(** * Minimum-Spanning-Tree-Generator: the MST engine and its animation trace

    A shallow embedding of [Code/src/mst_algorithms.py] (class [MSTAlgorithms]:
    constructor, metrics, union-find, Kruskal, Prim) and of
    [Code/src/mst_animation.py] (class [MSTAnimation]), followed by the
    verification of the properties the specification states about them.

    A second part embeds the code around the engine: the two algorithms of
    [Code/src/benchmarking/combined_metrics_chart.py], the runner of
    [Code/src/gui_algorithm_runner.py], the weights of
    [Code/src/gui_weight_manager.py], the parser of
    [Code/src/gui_input_handler.py] and the loop over the user's edges of
    [Code/src/graph_manager.py], and proves what this code does with the
    engine.

    Conventions of the embedding.
    - Python [int]s that index lists are [nat]; weights and counters are [Z].
    - Python lists are [list]; [l[i]] is stdpp's lookup [l !! i] and raises
      [IndexError] out of range; [l[i] = x] is [<[i:=x]> l] after a
      successful read of the same index.
    - The dict [in_heap] is a [gmap nat Z], the set [visited] a [gset nat].
    - Attributes of [self] that a method assigns are threaded explicitly:
      a method takes the instance and returns the updated instance.
    - A Python exception is the outcome [Raise]; the recursion of [find] and
      the [while] loop of [prim_mst] are driven by a fuel that the theorems
      show to be sufficient.
    - [time.perf_counter()] is an input: the two readings a call makes are
      passed as rationals, and [runtime] holds the exact value of
      [(t1 - t0) * 1000]. The code computes this in doubles and stores the
      rounded value, which has the same sign; the only property proved
      of [runtime] is its sign. *)

From Stdlib Require Import ZArith QArith Lia List Permutation Sorted Reals Lra Ascii.
From stdpp Require Import gmap list sets fin_sets sorting.

Local Open Scope Z_scope.

(** ** Outcomes of fallible code *)

Inductive exn : Type :=
| IndexError  (* list index out of range *)
| KeyError.   (* del d[k] with k not a key *)

Inductive outcome (A : Type) : Type :=
| Ok (a : A)
| Raise (e : exn)
| OutOfFuel.
Arguments Ok {A} a.
Arguments Raise {A} e.
Arguments OutOfFuel {A}.

#[global] Instance outcome_bind : MBind outcome := λ A B k m,
  match m with
  | Ok a => k a
  | Raise e => Raise e
  | OutOfFuel => OutOfFuel
  end.

(** [l[i]] as an rvalue. *)
Definition getitem {A : Type} (l : list A) (i : nat) : outcome A :=
  match l !! i with
  | Some x => Ok x
  | None => Raise IndexError
  end.

(** ** Data model *)

(** An edge [(u, v, weight)]. *)
Definition edge : Type := nat * nat * Z.

Definition src (e : edge) : nat := e.1.1.
Definition dst (e : edge) : nat := e.1.2.
Definition weight (e : edge) : Z := e.2.

(** The second component of what [kruskal_mst] and [prim_mst] return is
    [None] or one of two messages. Both messages are non-empty strings, so
    [if error:] holds exactly when the component is not [None]. *)
Inductive error : Type :=
| Graph_is_empty         (* "Graph is empty" *)
| Graph_is_unconnected.  (* "Graph is unconnected—partial MST returned" *)

Record Metrics : Type := mkMetrics {
  runtime : Q;
  edge_comparisons : Z;
  iterations : Z
}.

(** The attributes of an [MSTAlgorithms] instance. *)
Record MSTAlgorithms : Type := mkMST {
  num_nodes : nat;
  edges_list : list edge;
  adj_list : list (list (nat * Z));
  metrics : Metrics
}.

Definition set_metrics (self : MSTAlgorithms) (m : Metrics) : MSTAlgorithms :=
  mkMST (num_nodes self) (edges_list self) (adj_list self) m.

(** [reset_metrics] *)
Definition reset_metrics (self : MSTAlgorithms) : MSTAlgorithms :=
  set_metrics self (mkMetrics 0%Q 0 0).

(** [get_metrics] *)
Definition get_metrics (self : MSTAlgorithms) : Metrics := metrics self.

(** ** The constructor *)

(** What the constructor reads of a networkx graph: [graph.nodes()] and
    [graph.edges(data=True)] with each [d['weight']]. *)
Record Graph : Type := mkGraph {
  nodes : list nat;
  edges : list (nat * nat * Z)
}.

(** [{node: i for i, node in enumerate(graph.nodes())}] *)
Definition node_map (g : Graph) : gmap nat nat :=
  foldl (λ m p, <[p.2 := p.1]> m) ∅ (imap pair (nodes g)).

Definition map_getitem (m : gmap nat nat) (k : nat) : outcome nat :=
  match m !! k with
  | Some i => Ok i
  | None => Raise KeyError
  end.

Fixpoint remap_edges (m : gmap nat nat) (l : list (nat * nat * Z)) : outcome (list edge) :=
  match l with
  | [] => Ok []
  | (u, v, w) :: l' =>
      u' ← map_getitem m u;
      v' ← map_getitem m v;
      r ← remap_edges m l';
      Ok ((u', v', w) :: r)
  end.

(** [adj[u].append(x)] *)
Definition adj_append (adj : list (list (nat * Z))) (u : nat) (x : nat * Z)
  : outcome (list (list (nat * Z))) :=
  l ← getitem adj u;
  Ok (<[u := l ++ [x]]> adj).

Fixpoint build_adj (adj : list (list (nat * Z))) (es : list edge)
  : outcome (list (list (nat * Z))) :=
  match es with
  | [] => Ok adj
  | (u, v, w) :: es' =>
      adj1 ← adj_append adj u (v, w);
      adj2 ← adj_append adj1 v (u, w);
      build_adj adj2 es'
  end.

(** [MSTAlgorithms.__init__] *)
Definition init (g : Graph) : outcome MSTAlgorithms :=
  let n := length (nodes g) in
  es ← remap_edges (node_map g) (edges g);
  adj ← build_adj (replicate n []) es;
  Ok (reset_metrics (mkMST n es adj (mkMetrics 0%Q 0 0))).

(** ** Union-find *)

(** [find]: the root of [i], with path compression. The fuel bounds the
    depth of the recursion. *)
Fixpoint find (fuel : nat) (parent : list nat) (i : nat) : outcome (list nat * nat) :=
  match fuel with
  | O => OutOfFuel
  | S fuel' =>
      pi ← getitem parent i;
      if decide (pi ≠ i) then
        '(parent1, r) ← find fuel' parent pi;
        Ok (<[i := r]> parent1, r)
      else Ok (parent, pi)
  end.

(** [union]: by rank. Returns the updated [parent] and [rank]. *)
Definition union (fuel : nat) (parent : list nat) (rank : list Z) (x y : nat)
  : outcome (list nat * list Z) :=
  '(parent1, px) ← find fuel parent x;
  '(parent2, py) ← find fuel parent1 y;
  if decide (px = py) then Ok (parent2, rank)
  else
    rx ← getitem rank px;
    ry ← getitem rank py;
    let '(px, py) := if decide (rx < ry) then (py, px) else (px, py) in
    _ ← getitem parent2 py;
    let parent3 := <[py := px]> parent2 in
    rx' ← getitem rank px;
    ry' ← getitem rank py;
    if decide (rx' = ry') then Ok (parent3, <[px := rx' + 1]> rank)
    else Ok (parent3, rank).

(** ** Kruskal *)

(** [sorted(edges_list, key=lambda x: x[2])]: the stable sort by weight. *)
Fixpoint insert_by_weight (e : edge) (l : list edge) : list edge :=
  match l with
  | [] => [e]
  | x :: l' =>
      if decide (weight e ≤ weight x) then e :: x :: l'
      else x :: insert_by_weight e l'
  end.

Definition sorted (l : list edge) : list edge := foldr insert_by_weight [] l.

(** [int.bit_length]: the number of binary digits of the absolute value. *)
Definition bit_length (n : Z) : Z := Z.of_N (N.size (Z.abs_N n)).

(** The local state of the loop of [kruskal_mst], with the two counters. *)
Record kruskal_state : Type := mkKS {
  ks_parent : list nat;
  ks_rank : list Z;
  ks_mst_edges : list edge;
  ks_edge_comparisons : Z;
  ks_iterations : Z
}.

(** The state when the loop is entered: after the sort and the line that
    adds the estimate of the sort's comparisons. *)
Definition kruskal_sort_phase (self : MSTAlgorithms) : list edge * kruskal_state :=
  let self := reset_metrics self in
  let edges := sorted (edges_list self) in
  let comparisons :=
    edge_comparisons (metrics self)
    + Z.of_nat (length edges) * (bit_length (Z.of_nat (length edges)) - 1) in
  (edges,
   mkKS (seq 0 (num_nodes self)) (replicate (num_nodes self) 0) []
        comparisons (iterations (metrics self))).

(** One iteration of [for u, v, weight in edges]. *)
Definition kruskal_body (fuel : nat) (st : kruskal_state) (e : edge) : outcome kruskal_state :=
  let '(u, v, w) := e in
  let iters := ks_iterations st + 1 in
  '(parent1, x) ← find fuel (ks_parent st) u;
  '(parent2, y) ← find fuel parent1 v;
  let comps := ks_edge_comparisons st + 1 in
  if decide (x ≠ y) then
    let mst := ks_mst_edges st ++ [(u, v, w)] in
    '(parent3, rank3) ← union fuel parent2 (ks_rank st) x y;
    Ok (mkKS parent3 rank3 mst comps iters)
  else Ok (mkKS parent2 (ks_rank st) (ks_mst_edges st) comps iters).

Fixpoint kruskal_loop (fuel : nat) (st : kruskal_state) (es : list edge) : outcome kruskal_state :=
  match es with
  | [] => Ok st
  | e :: es' =>
      st' ← kruskal_body fuel st e;
      kruskal_loop fuel st' es'
  end.

(** [kruskal_mst]. [t0] and [t1] are the readings of [time.perf_counter()]
    at the start and at the end of the call; [runtime] is exact where the
    code rounds to a double. The recursion of [find] gets [num_nodes] as
    fuel: a chain of parents visits each node at most once. *)
Definition kruskal_mst (t0 t1 : Q) (self : MSTAlgorithms)
  : outcome (list edge * option error * MSTAlgorithms) :=
  let self0 := reset_metrics self in
  if decide (num_nodes self0 = 0%nat) then
    Ok ([], Some Graph_is_empty,
        set_metrics self0
          (mkMetrics ((t1 - t0) * 1000)%Q (edge_comparisons (metrics self0))
                     (iterations (metrics self0))))
  else
    let '(edges, st0) := kruskal_sort_phase self in
    st ← kruskal_loop (num_nodes self0) st0 edges;
    Ok (ks_mst_edges st, None,
        set_metrics self0
          (mkMetrics ((t1 - t0) * 1000)%Q (ks_edge_comparisons st) (ks_iterations st))).

(** ** Prim *)

(** A heap entry [(weight, node, parent)]; the parent of the entry that
    seeds the heap is [None]. *)
Definition heap_entry : Type := Z * nat * option nat.

(** The order of Python tuples on heap entries: by weight, then by node,
    then by parent. Python cannot order [None] and an [int]; the seed is
    the only entry whose parent is [None] and it is popped before any other
    entry is pushed (lemma [seed_alone]), so the value chosen for that case
    is never used. *)
Definition parent_leb (p q : option nat) : bool :=
  match p, q with
  | None, _ => true
  | Some _, None => false
  | Some a, Some b => (a <=? b)%nat
  end.

Definition entry_leb (x y : heap_entry) : bool :=
  let '(w1, v1, p1) := x in
  let '(w2, v2, p2) := y in
  if decide (w1 < w2) then true
  else if decide (w2 < w1) then false
  else if decide (v1 < v2)%nat then true
  else if decide (v2 < v1)%nat then false
  else parent_leb p1 p2.

(** The priority queue of [heapq] as the list of its entries: [heappush]
    adds an entry and [heappop] removes a least one. Entries that compare
    equal are equal, so the entry popped and the entries left depend only
    on the entries present, not on their layout in the array. *)
Definition heappush (heap : list heap_entry) (x : heap_entry) : list heap_entry :=
  heap ++ [x].

Fixpoint heappop (heap : list heap_entry) : option (heap_entry * list heap_entry) :=
  match heap with
  | [] => None
  | x :: heap' =>
      match heappop heap' with
      | None => Some (x, [])
      | Some (m, rest) =>
          if entry_leb x m then Some (x, heap') else Some (m, x :: rest)
      end
  end.

(** The local state of the loop of [prim_mst], with the two counters. *)
Record prim_state : Type := mkPS {
  ps_heap : list heap_entry;
  ps_in_heap : gmap nat Z;
  ps_visited : gset nat;
  ps_mst_edges : list edge;
  ps_edge_comparisons : Z;
  ps_iterations : Z
}.

(** [heappush(heap, (w, v, u)); in_heap[v] = w; self.edge_comparisons += 1] *)
Definition push_candidate (u : nat) (st : prim_state) (v : nat) (w : Z) : prim_state :=
  mkPS (heappush (ps_heap st) (w, v, Some u))
       (<[v := w]> (ps_in_heap st))
       (ps_visited st) (ps_mst_edges st)
       (ps_edge_comparisons st + 1) (ps_iterations st).

(** One iteration of [for v, w in self.adj_list[u]]. *)
Definition relax (u : nat) (st : prim_state) (vw : nat * Z) : prim_state :=
  let '(v, w) := vw in
  if decide (v ∉ ps_visited st) then
    match ps_in_heap st !! v with
    | None => push_candidate u st v w
    | Some m => if decide (w < m) then push_candidate u st v w else st
    end
  else st.

(** One iteration of [while heap], entered with a non-empty heap. *)
Definition prim_body (adj : list (list (nat * Z))) (st : prim_state) : outcome prim_state :=
  let iters := ps_iterations st + 1 in
  match heappop (ps_heap st) with
  | None => Raise IndexError
  | Some ((w, u, parent), heap') =>
      let comps := ps_edge_comparisons st + 1 in
      if decide (u ∈ ps_visited st) then
        Ok (mkPS heap' (ps_in_heap st) (ps_visited st) (ps_mst_edges st) comps iters)
      else
        let visited := {[u]} ∪ ps_visited st in
        if decide (ps_in_heap st !! u = None) then Raise KeyError
        else
          let in_heap := delete u (ps_in_heap st) in
          let mst :=
            match parent with
            | Some p => ps_mst_edges st ++ [(p, u, w)]
            | None => ps_mst_edges st
            end in
          nbrs ← getitem adj u;
          Ok (foldl (relax u) (mkPS heap' in_heap visited mst comps iters) nbrs)
  end.

Fixpoint prim_loop (fuel : nat) (adj : list (list (nat * Z))) (st : prim_state)
  : outcome prim_state :=
  match ps_heap st with
  | [] => Ok st
  | _ :: _ =>
      match fuel with
      | O => OutOfFuel
      | S fuel' =>
          st' ← prim_body adj st;
          prim_loop fuel' adj st'
      end
  end.

(** The state when the loop is entered. *)
Definition prim_init (self : MSTAlgorithms) : prim_state :=
  let self := reset_metrics self in
  mkPS [(0, 0%nat, None)] {[0%nat := 0]} ∅ []
       (edge_comparisons (metrics self)) (iterations (metrics self)).

(** The fuel of the loop: one iteration for the seed and one for each entry
    a neighbour list can push. *)
Definition prim_fuel (self : MSTAlgorithms) : nat :=
  S (sum_list (length <$> adj_list self)).

(** [prim_mst], with the clock readings [t0] and [t1] as in [kruskal_mst]. *)
Definition prim_mst (t0 t1 : Q) (self : MSTAlgorithms)
  : outcome (list edge * option error * MSTAlgorithms) :=
  let self0 := reset_metrics self in
  if decide (num_nodes self0 = 0%nat) then
    Ok ([], Some Graph_is_empty,
        set_metrics self0
          (mkMetrics ((t1 - t0) * 1000)%Q (edge_comparisons (metrics self0))
                     (iterations (metrics self0))))
  else
    st ← prim_loop (prim_fuel self0) (adj_list self0) (prim_init self);
    let self1 :=
      set_metrics self0
        (mkMetrics ((t1 - t0) * 1000)%Q (ps_edge_comparisons st) (ps_iterations st)) in
    if decide (size (ps_visited st) < num_nodes self0)%nat then
      Ok (ps_mst_edges st, Some Graph_is_unconnected, self1)
    else Ok (ps_mst_edges st, None, self1).

(** ** The animation trace *)

Inductive event : Type :=
| Vertex (n : nat)                                   (* ('vertex', n) *)
| Edge (u v : nat)                                   (* ('edge', (u, v)) *)
| Final (mst_edges : list edge) (err : option error). (* ('final', (mst_edges, err)) *)

(** One iteration of the loop of [kruskal_mst_with_animation]: the set of
    vertices seen and the events yielded so far. *)
Definition kruskal_replay (acc : gset nat * list event) (e : edge) : gset nat * list event :=
  let '(u, v, _) := e in
  let '(seen, evs) := acc in
  let '(seen, evs) :=
    if decide (u ∉ seen) then ({[u]} ∪ seen, evs ++ [Vertex u]) else (seen, evs) in
  let '(seen, evs) :=
    if decide (v ∉ seen) then ({[v]} ∪ seen, evs ++ [Vertex v]) else (seen, evs) in
  (seen, evs ++ [Edge u v]).

(** [MSTAnimation.kruskal_mst_with_animation]: the events the generator
    yields, in order, and the instance after the call it makes. *)
Definition kruskal_mst_with_animation (t0 t1 : Q) (mst : MSTAlgorithms)
  : outcome (list event * MSTAlgorithms) :=
  '(mst_edges, err, mst') ← kruskal_mst t0 t1 mst;
  match err with
  | Some e => Ok ([Final [] (Some e)], mst')
  | None =>
      let '(_, evs) := foldl kruskal_replay (∅, []) mst_edges in
      Ok (evs ++ [Final mst_edges None], mst')
  end.

(** One iteration of the loop of [prim_mst_with_animation]. *)
Definition prim_replay (acc : gset nat * list event) (e : edge) : gset nat * list event :=
  let '(parent, u, _) := e in
  let '(seen, evs) := acc in
  let '(seen, evs) :=
    if decide (u ∉ seen) then ({[u]} ∪ seen, evs ++ [Vertex u]) else (seen, evs) in
  (seen, evs ++ [Edge parent u]).

(** [MSTAnimation.prim_mst_with_animation] *)
Definition prim_mst_with_animation (t0 t1 : Q) (mst : MSTAlgorithms)
  : outcome (list event * MSTAlgorithms) :=
  '(mst_edges, err, mst') ← prim_mst t0 t1 mst;
  match err with
  | Some e => Ok ([Final [] (Some e)], mst')
  | None =>
      let start_node := 0%nat in
      let '(_, evs) := foldl prim_replay ({[start_node]}, [Vertex start_node]) mst_edges in
      Ok (evs ++ [Final mst_edges None], mst')
  end.

(** ** The concrete scenarios of the specification *)

Definition graph4 : Graph :=
  mkGraph [0; 1; 2; 3]%nat
          [(0%nat, 1%nat, 5); (1%nat, 2%nat, 3); (2%nat, 3%nat, 1); (0%nat, 3%nat, 10)].
Definition graph1 : Graph := mkGraph [0%nat] [].
Definition graph3 : Graph := mkGraph [0; 1; 2]%nat [(0%nat, 1%nat, 2)].
Definition graph0 : Graph := mkGraph [] [].

(** * Specification: graphs, invariants, traces *)

(** ** Graphs *)

(** Two nodes are connected by the edges of [F]: the least equivalence
    relation that relates the endpoints of every edge. *)
Inductive conn (F : list edge) : nat → nat → Prop :=
| conn_refl x : conn F x x
| conn_edge e : e ∈ F → conn F (src e) (dst e)
| conn_sym x y : conn F x y → conn F y x
| conn_trans x y z : conn F x y → conn F y z → conn F x z.

(** The graph with nodes [0..n-1] and edges [E] is connected. *)
Definition connected_graph (n : nat) (E : list edge) : Prop :=
  ∀ x y, (x < n)%nat → (y < n)%nat → conn E x y.

(** [F] has no cycle: no edge of [F] joins two nodes that the other edges
    of [F] connect already. *)
Definition acyclic (F : list edge) : Prop :=
  ∀ F1 e F2, F = F1 ++ e :: F2 → ¬ conn (F1 ++ F2) (src e) (dst e).

(** The same edge, read from its other end. *)
Definition flip (e : edge) : edge := (dst e, src e, weight e).

(** Every edge of [F] is an edge of [E], in one direction or the other. *)
Definition edges_of (E F : list edge) : Prop :=
  ∀ e, e ∈ F → e ∈ E ∨ flip e ∈ E.

(** [F] connects all the nodes [0..n-1]. *)
Definition spanning (n : nat) (F : list edge) : Prop :=
  ∀ x y, (x < n)%nat → (y < n)%nat → conn F x y.

Definition spanning_tree (n : nat) (E F : list edge) : Prop :=
  edges_of E F ∧ acyclic F ∧ spanning n F.

Definition total_weight (F : list edge) : Z := foldr (λ e s, weight e + s) 0 F.

(** The input the engine assumes: the endpoints of every edge are nodes. *)
Definition edges_in_range (n : nat) (E : list edge) : Prop :=
  ∀ e, e ∈ E → (src e < n)%nat ∧ (dst e < n)%nat.

Definition positive_weights (E : list edge) : Prop :=
  ∀ e, e ∈ E → 0 < weight e.

(** [reps] has one node of every connected component of the graph with
    nodes [0..n-1] and edges [F]: its length is the number of components. *)
Definition transversal (n : nat) (F : list edge) (reps : list nat) : Prop :=
  NoDup reps
  ∧ (∀ r, r ∈ reps → (r < n)%nat)
  ∧ (∀ x, (x < n)%nat → ∃ r, r ∈ reps ∧ conn F x r)
  ∧ (∀ r r', r ∈ reps → r' ∈ reps → conn F r r' → r = r').

(** ** Minimum spanning trees *)

(** [F] weighs no more than any set of edges of the graph that connects
    all the nodes; the spanning trees of the graph are among these. *)
Definition minimal (n : nat) (E F : list edge) : Prop :=
  ∀ T, edges_of E T → spanning n T → total_weight F ≤ total_weight T.

Definition minimum_spanning_tree (n : nat) (E F : list edge) : Prop :=
  spanning_tree n E F ∧ minimal n E F.

(** [F] can be completed to a connecting set of edges that weighs no more
    than [T]. *)
Definition promising (n : nat) (E T F : list edge) : Prop :=
  ∃ R, edges_of E R ∧ spanning n (F ++ R)
       ∧ total_weight F + total_weight R ≤ total_weight T.

(** ** Union-find: what the arrays represent *)

(** [root_of parent i r d]: following the parents from [i] reaches, after
    [d] steps, the node [r] that is its own parent. *)
Inductive root_of (parent : list nat) : nat → nat → nat → Prop :=
| root_here i : parent !! i = Some i → root_of parent i i 0
| root_up i j r d :
    parent !! i = Some j → j ≠ i → root_of parent j r d → root_of parent i r (S d).

Definition rep (parent : list nat) (i r : nat) : Prop := ∃ d, root_of parent i r d.

(** The invariant of the two arrays: every node has a root, ranks grow
    strictly along parents and are bounded by [K]. *)
Record uf_inv (n : nat) (K : Z) (parent : list nat) (rank : list Z) : Prop := {
  uf_len_parent : length parent = n;
  uf_len_rank : length rank = n;
  uf_total : ∀ i, (i < n)%nat → ∃ r, rep parent i r;
  uf_rank_up : ∀ i j, parent !! i = Some j → j ≠ i →
    ∃ a b, rank !! i = Some a ∧ rank !! j = Some b ∧ a < b;
  uf_rank_bound : ∀ i a, rank !! i = Some a → 0 ≤ a ≤ K
}.

(** The partition the array represents is the one into the components of
    the forest [F]. *)
Definition uf_models (n : nat) (parent : list nat) (F : list edge) : Prop :=
  ∀ i j, (i < n)%nat → (j < n)%nat →
    conn F i j ↔ ∃ r, rep parent i r ∧ rep parent j r.

(** [parent'] is [parent] after some paths were compressed: an entry is
    unchanged or holds the root of its node. *)
Definition compressed (parent parent' : list nat) : Prop :=
  length parent' = length parent
  ∧ ∀ j, parent' !! j = parent !! j
         ∨ ∃ r d, parent' !! j = Some r ∧ root_of parent j r (S d).

(** ** Kruskal: the invariant of the loop *)

(** Whether [find] gives [z] the root [x]. *)
Definition same_root (fuel : nat) (parent : list nat) (x z : nat) : bool :=
  match find fuel parent z with
  | Ok (_, r) => bool_decide (r = x)
  | _ => false
  end.

(** The state of the loop of [kruskal_mst] after the edges [P] were
    processed, on the graph with nodes [0..n-1] and edges [E]. *)
Record kruskal_inv (n : nat) (E : list edge) (P : list edge) (st : kruskal_state) : Prop := {
  ki_uf : uf_inv n (Z.of_nat (length (ks_mst_edges st))) (ks_parent st) (ks_rank st);
  ki_models : uf_models n (ks_parent st) (ks_mst_edges st);
  ki_count : ∃ reps, transversal n (ks_mst_edges st) reps
                     ∧ (length (ks_mst_edges st) + length reps = n)%nat;
  ki_acyclic : acyclic (ks_mst_edges st);
  ki_range : edges_in_range n (ks_mst_edges st);
  ki_sub : ks_mst_edges st `sublist_of` P;
  ki_done : ∀ e, e ∈ P → conn (ks_mst_edges st) (src e) (dst e);
  ki_promising : ∀ T, edges_of E T → spanning n T →
                      promising n E T (ks_mst_edges st)
}.

(** The order the sort establishes. *)
Definition weight_le (a b : edge) : Prop := weight a ≤ weight b.

(** What [__init__] establishes: the endpoints of the edges are node
    indices and [adj_list] is built from [edges_list]. *)
Definition well_formed (self : MSTAlgorithms) : Prop :=
  edges_in_range (num_nodes self) (edges_list self)
  ∧ build_adj (replicate (num_nodes self) []) (edges_list self) = Ok (adj_list self).

(** The value of [edge_comparisons] after a run of [kruskal_mst] on [m] edges. *)
Definition kruskal_comparisons (m : nat) : Z :=
  Z.of_nat m * (bit_length (Z.of_nat m) - 1) + Z.of_nat m.

(** ** Prim: the invariant of the loop *)

(** [(v, w)] is an entry of [adj[u]]. *)
Definition in_adj (adj : list (list (nat * Z))) (u v : nat) (w : Z) : Prop :=
  ∃ l, adj !! u = Some l ∧ (v, w) ∈ l.

(** The heap and the map [in_heap]. [seen u v w] holds of the entries
    [(v, w)] of [adj[u]] that the loop has relaxed. *)
Record heap_inv (adj : list (list (nat * Z))) (seen : nat → nat → Z → Prop)
    (st : prim_state) : Prop := {
  hi_entries : ∀ w v p, (w, v, p) ∈ ps_heap st →
    ∃ u, p = Some u ∧ u ∈ ps_visited st ∧ in_adj adj u v w;
  hi_in_heap : ∀ v m, ps_in_heap st !! v = Some m →
    (v ∉ ps_visited st) ∧ ∃ p, (m, v, p) ∈ ps_heap st;
  hi_frontier : ∀ u v w, seen u v w → v ∉ ps_visited st →
    ∃ m, ps_in_heap st !! v = Some m ∧ m ≤ w
}.

(** The visited nodes and the edges chosen. *)
Record tree_inv (n : nat) (E : list edge) (st : prim_state) : Prop := {
  ti_root : 0%nat ∈ ps_visited st;
  ti_range : ∀ x, x ∈ ps_visited st → (x < n)%nat;
  ti_edges : ∀ e, e ∈ ps_mst_edges st →
    src e ∈ ps_visited st ∧ dst e ∈ ps_visited st ∧ (e ∈ E ∨ flip e ∈ E);
  ti_conn : ∀ x, x ∈ ps_visited st → conn (ps_mst_edges st) 0%nat x;
  ti_acyclic : acyclic (ps_mst_edges st);
  ti_size : size (ps_visited st) = S (length (ps_mst_edges st));
  ti_children : ∀ x, x ∈ ps_visited st ↔ x = 0%nat ∨ x ∈ (dst <$> ps_mst_edges st);
  ti_nodup : NoDup (dst <$> ps_mst_edges st);
  ti_order : ∀ i e, ps_mst_edges st !! i = Some e →
    src e = 0%nat
    ∨ ∃ j e', (j < i)%nat ∧ ps_mst_edges st !! j = Some e' ∧ dst e' = src e;
  ti_promising : ∀ T, edges_of E T → spanning n T →
    promising n E T (ps_mst_edges st)
}.

(** The invariant of [while heap] once the seed has been popped. *)
Definition prim_inv (n : nat) (E : list edge) (adj : list (list (nat * Z)))
    (st : prim_state) : Prop :=
  tree_inv n E st
  ∧ heap_inv adj (λ u v w, u ∈ ps_visited st ∧ in_adj adj u v w) st.

(** The state in which the loop is entered. *)
Definition prim_seed (st : prim_state) : Prop :=
  ps_heap st = [(0, 0%nat, None)] ∧ ps_in_heap st = {[0%nat := 0]}
  ∧ ps_visited st = ∅ ∧ ps_mst_edges st = [].

(** The entries of the lists of the nodes not yet visited, from node [i] on. *)
Fixpoint pending_from (i : nat) (adj : list (list (nat * Z))) (V : gset nat) : nat :=
  match adj with
  | [] => 0
  | l :: adj' => (if decide (i ∈ V) then 0 else length l) + pending_from (S i) adj' V
  end.

(** The bound on the iterations left: the entries in the heap and the
    entries that can still be pushed. *)
Definition prim_measure (adj : list (list (nat * Z))) (st : prim_state) : nat :=
  length (ps_heap st) + pending_from 0 adj (ps_visited st).

(** The states in which [while heap] is tested during a run of the loop
    that starts in [st0]. *)
Inductive prim_reachable (adj : list (list (nat * Z))) (st0 : prim_state)
  : prim_state → Prop :=
| reach_start : prim_reachable adj st0 st0
| reach_step st st' :
    prim_reachable adj st0 st → ps_heap st ≠ [] → prim_body adj st = Ok st' →
    prim_reachable adj st0 st'.

(** ** Instances for the scenarios *)

(** The instances built from the graphs of the scenarios. *)
Definition instance_of (g : Graph) : MSTAlgorithms :=
  match init g with
  | Ok self => self
  | _ => mkMST 0 [] [] (mkMetrics 0%Q 0 0)
  end.

(** ** Traces *)

(** The pairs carried by the [Edge] events of a trace, in order. *)
Definition edge_events (evs : list event) : list (nat * nat) :=
  omap (λ ev, match ev with Edge u v => Some (u, v) | _ => None end) evs.

(** The contents of the [Final] events of a trace, in order. *)
Definition final_events (evs : list event) : list (list edge * option error) :=
  omap (λ ev, match ev with Final F err => Some (F, err) | _ => None end) evs.

(** The two ends of an edge, and a pair of nodes without its order. *)
Definition ends (e : edge) : nat * nat := (src e, dst e).
Definition unordered (p : nat * nat) : nat * nat := (p.1 `min` p.2, p.1 `max` p.2)%nat.

(** The trace [tr] replays the result [(F, err, s)] of a call: on error it
    is the single event [Final [] err]; otherwise it ends with
    [Final F None], has no other [Final] event, and its [Edge] events are,
    in order, the ends of the edges of [F], no two of which join the same
    two nodes. *)
Definition trace_replays (tr : outcome (list event * MSTAlgorithms))
    (res : list edge * option error * MSTAlgorithms) : Prop :=
  match res.1.2 with
  | Some err => tr = Ok ([Final [] (Some err)], res.2)
  | None =>
      ∃ evs, tr = Ok (evs ++ [Final res.1.1 None], res.2)
        ∧ final_events evs = []
        ∧ edge_events evs = ends <$> res.1.1
        ∧ NoDup (unordered ∘ ends <$> res.1.1)
  end.

(** ** The estimate of the sort's comparisons *)

(** The binary logarithm of the specification, on the reals. *)
Definition log2_real (x : R) : R := (ln x / ln 2)%R.

(** A graph with three edges. *)
Definition triangle : Graph :=
  mkGraph [0; 1; 2]%nat [(0%nat, 1%nat, 1); (1%nat, 2%nat, 2); (0%nat, 2%nat, 3)].

(** * Further code and its vocabulary *)

(** ** Union-find: runs of [union] *)

(** The calls [union(parent, rank, x, y)] for the pairs [(x, y)] of [ops],
    in order, on the same two arrays. *)
Fixpoint unions (fuel : nat) (parent : list nat) (rank : list Z) (ops : list (nat * nat))
  : outcome (list nat * list Z) :=
  match ops with
  | [] => Ok (parent, rank)
  | (x, y) :: ops' =>
      '(parent', rank') ← union fuel parent rank x y;
      unions fuel parent' rank' ops'
  end.

(** The pair of a [union] call, as an edge. *)
Definition pair_edge (p : nat * nat) : edge := (p.1, p.2, 0).

(** The two arrays after unions that joined the ends of the edges [F]. *)
Record uf_state (n : nat) (parent : list nat) (rank : list Z) (F : list edge) : Prop := {
  us_inv : uf_inv n (Z.of_nat (length F)) parent rank;
  us_models : uf_models n parent F;
  us_count : ∃ reps, transversal n F reps ∧ (length F + length reps = n)%nat;
  us_range : edges_in_range n F
}.

(** ** The constructor: what the instance holds *)

(** What [adj_list[u]] holds after the constructor's loop over [es]: for
    each edge at [u], in order, the other end and the weight; a loop at
    [u] counts twice. *)
Definition incident (u : nat) (es : list edge) : list (nat * Z) :=
  flat_map (λ e, (if decide (src e = u) then [(dst e, weight e)] else [])
                 ++ (if decide (dst e = u) then [(src e, weight e)] else [])) es.

(** The edge [e'] of the instance is the edge [e] of the graph, with each
    end replaced by the position of its label in [graph.nodes()]. *)
Definition renamed (g : Graph) (e : nat * nat * Z) (e' : edge) : Prop :=
  nodes g !! src e' = Some (e.1.1) ∧ nodes g !! dst e' = Some (e.1.2) ∧ weight e' = e.2.

(** The edges of the graph are between nodes of the graph. *)
Definition closed_graph (g : Graph) : Prop :=
  ∀ e, e ∈ edges g → e.1.1 ∈ nodes g ∧ e.1.2 ∈ nodes g.

(** ** Spanning forests *)

(** [G] connects whatever the graph [E] connects. *)
Definition covers (E G : list edge) : Prop := ∀ x y, conn E x y → conn G x y.

(** [F] is a spanning forest of the graph [E]: edges of the graph,
    without a cycle, that connect whatever the graph connects. *)
Definition spanning_forest (E F : list edge) : Prop :=
  edges_of E F ∧ acyclic F ∧ covers E F.

(** [F] weighs no more than any set of edges of the graph that connects
    whatever the graph connects; the spanning forests are among these. *)
Definition minimal_forest (E F : list edge) : Prop :=
  ∀ T, edges_of E T → covers E T → total_weight F ≤ total_weight T.

(** [F] can be completed to a set of edges of the graph that connects the
    pairs of nodes in [D] and weighs no more than [T]. *)
Definition promising_for (D : nat → nat → Prop) (E T F : list edge) : Prop :=
  ∃ R, edges_of E R ∧ (∀ x y, D x y → conn (F ++ R) x y)
       ∧ total_weight F + total_weight R ≤ total_weight T.

(** Two nodes that the graph connects with node 0, where [prim_mst]
    starts. *)
Definition component_of_root (E : list edge) (x y : nat) : Prop :=
  conn E 0%nat x ∧ conn E 0%nat y.

(** [F] is a spanning tree of the component of node 0 in the graph [E]:
    edges of the graph, without a cycle, that connect node 0 with exactly
    the nodes the graph connects it with, and with both ends of each of
    them. *)
Definition spanning_tree_of_root (E F : list edge) : Prop :=
  edges_of E F ∧ acyclic F
  ∧ (∀ x, conn F 0%nat x ↔ conn E 0%nat x)
  ∧ (∀ e, e ∈ F → conn F 0%nat (src e) ∧ conn F 0%nat (dst e)).

(** [F] weighs no more than any set of edges of the graph that connects
    node 0 with every node that the graph connects it with. *)
Definition minimal_from_root (E F : list edge) : Prop :=
  ∀ T, edges_of E T → (∀ x, conn E 0%nat x → conn T 0%nat x) →
       total_weight F ≤ total_weight T.

(** ** Traces: the vertices *)

(** The nodes carried by the [Vertex] events of a trace, in order. *)
Definition vertex_events (evs : list event) : list nat :=
  omap (λ ev, match ev with Vertex u => Some u | _ => None end) evs.

(** Every [Edge] event comes after the [Vertex] events of its two ends. *)
Definition announced (evs : list event) : Prop :=
  ∀ pre post u v, evs = pre ++ Edge u v :: post →
    u ∈ vertex_events pre ∧ v ∈ vertex_events pre.

(** The events that [prim_mst_with_animation] yields for one edge. *)
Definition prim_edge_events (e : edge) : list event :=
  [Vertex (dst e); Edge (src e) (dst e)].

(** ** The benchmark's algorithms *)

(** [kruskal_mst(graph)] of [benchmarking/combined_metrics_chart.py]. Its
    local functions [find] and [union] are those of the engine, line for
    line; the loop differs: it tests the roots of [u] and [v], then calls
    [union] on [u] and [v] themselves. The state of the loop is [parent],
    [rank] and [mst]. *)
Definition bench_kruskal_body (fuel : nat) (st : list nat * list Z * list edge) (e : edge)
  : outcome (list nat * list Z * list edge) :=
  let '(parent, rank, mst) := st in
  let '(u, v, w) := e in
  '(parent1, x) ← find fuel parent u;
  '(parent2, y) ← find fuel parent1 v;
  if decide (x ≠ y) then
    '(parent3, rank3) ← union fuel parent2 rank u v;
    Ok (parent3, rank3, mst ++ [(u, v, w)])
  else Ok (parent2, rank, mst).

Fixpoint bench_kruskal_loop (fuel : nat) (st : list nat * list Z * list edge)
    (es : list edge) : outcome (list nat * list Z * list edge) :=
  match es with
  | [] => Ok st
  | e :: es' =>
      st' ← bench_kruskal_body fuel st e;
      bench_kruskal_loop fuel st' es'
  end.

(** The benchmark reads the graph itself: the labels of the nodes are the
    indices, as in the graphs of [nx.gnm_random_graph]. *)
Definition bench_kruskal_mst (g : Graph) : outcome (list edge * list nat * list Z) :=
  let edges := sorted (edges g) in
  let n := length (nodes g) in
  '(parent, rank, mst) ← bench_kruskal_loop n (seq 0 n, replicate n 0, []) edges;
  Ok (mst, parent, rank).

(** [prim_mst(graph)] of the benchmark: the engine's loop without the two
    counters and with [max_unique_nodes], the peak of [len(in_heap)]. *)
Record bench_prim_state : Type := mkBPS {
  bp_heap : list heap_entry;
  bp_in_heap : gmap nat Z;
  bp_visited : gset nat;
  bp_mst : list edge;
  bp_max_unique_nodes : nat
}.

(** [heappush(heap, (w, v, u)); in_heap[v] = w] *)
Definition bench_push (u : nat) (st : bench_prim_state) (v : nat) (w : Z)
  : bench_prim_state :=
  mkBPS (heappush (bp_heap st) (w, v, Some u)) (<[v := w]> (bp_in_heap st))
        (bp_visited st) (bp_mst st) (bp_max_unique_nodes st).

(** One iteration of [for v, w in adj_list[u]]. *)
Definition bench_relax (u : nat) (st : bench_prim_state) (vw : nat * Z)
  : bench_prim_state :=
  let '(v, w) := vw in
  if decide (v ∉ bp_visited st) then
    match bp_in_heap st !! v with
    | None => bench_push u st v w
    | Some m => if decide (w < m) then bench_push u st v w else st
    end
  else st.

(** One iteration of [while heap], entered with a non-empty heap. *)
Definition bench_prim_body (adj : list (list (nat * Z))) (st : bench_prim_state)
  : outcome bench_prim_state :=
  let peak := (bp_max_unique_nodes st `max` size (bp_in_heap st))%nat in
  match heappop (bp_heap st) with
  | None => Raise IndexError
  | Some ((w, u, parent), heap') =>
      if decide (u ∈ bp_visited st) then
        Ok (mkBPS heap' (bp_in_heap st) (bp_visited st) (bp_mst st) peak)
      else
        let visited := {[u]} ∪ bp_visited st in
        if decide (bp_in_heap st !! u = None) then Raise KeyError
        else
          let in_heap := delete u (bp_in_heap st) in
          let mst :=
            match parent with
            | Some p => bp_mst st ++ [(p, u, w)]
            | None => bp_mst st
            end in
          nbrs ← getitem adj u;
          Ok (foldl (bench_relax u) (mkBPS heap' in_heap visited mst peak) nbrs)
  end.

Fixpoint bench_prim_loop (fuel : nat) (adj : list (list (nat * Z)))
    (st : bench_prim_state) : outcome bench_prim_state :=
  match bp_heap st with
  | [] => Ok st
  | _ :: _ =>
      match fuel with
      | O => OutOfFuel
      | S fuel' =>
          st' ← bench_prim_body adj st;
          bench_prim_loop fuel' adj st'
      end
  end.

(** The result: the edges and [spc_kb], the peak times 80 bytes, in KB.
    The quotient by 1024 is exact in floating point, so the rational is
    the value of the float. *)
Definition bench_prim_mst (g : Graph) : outcome (list edge * Q) :=
  if decide (nodes g = []) then Ok ([], 0%Q)
  else
    let num_nodes := length (nodes g) in
    adj_list ← build_adj (replicate num_nodes []) (edges g);
    st ← bench_prim_loop (S (sum_list (length <$> adj_list))) adj_list
           (mkBPS [(0, 0%nat, None)] {[0%nat := 0]} ∅ [] 0);
    let spc_bytes := (Z.of_nat (bp_max_unique_nodes st) * 80)%Z in
    Ok (bp_mst st, (inject_Z spc_bytes / 1024)%Q).

(** The benchmark's state that goes with a state of the engine's loop. *)
Definition bench_of (st : prim_state) (peak : nat) : bench_prim_state :=
  mkBPS (ps_heap st) (ps_in_heap st) (ps_visited st) (ps_mst_edges st) peak.

(** ** The GUI's runner *)

(** The two entries of the GUI's list of algorithms, ["Kruskal’s"] and
    ["Prim’s"]. *)
Inductive algorithm : Type := Kruskal | Prim.

(** The error a run reports: the engine's, or the runner's
    ["Unexpected termination"]. *)
Inductive run_error : Type :=
| Reported (e : error)
| Unexpected_termination.

(** [AlgorithmRunner.run_algorithm_generator]: the loop over [next] of the
    generator, whose events are [gen]; the list ends where the generator
    raises [StopIteration], without a value as the generators of
    [MSTAnimation] do. The state is [steps], [first_edge_processed] and
    [self.starting_node]; the result is [steps], the pair that the final
    event carries, and [self.starting_node] after the call. *)
Fixpoint run_algorithm_generator_loop (algo : algorithm) (gen : list event)
    (steps : list event) (first_edge_processed : bool) (starting_node : option nat)
  : list event * (list edge * option run_error) * option nat :=
  match gen with
  | [] =>
      (steps, ([], Some Unexpected_termination),
       match algo, steps with
       | Prim, _ :: _ => Some 0%nat
       | _, _ => starting_node
       end)
  | Edge u v :: gen' =>
      match algo, first_edge_processed with
      | Kruskal, false =>
          run_algorithm_generator_loop algo gen' (steps ++ [Edge u v]) true (Some u)
      | _, _ =>
          run_algorithm_generator_loop algo gen' (steps ++ [Edge u v])
            first_edge_processed starting_node
      end
  | Vertex u :: gen' =>
      run_algorithm_generator_loop algo gen' (steps ++ [Vertex u])
        first_edge_processed starting_node
  | Final mst_edges err :: _ =>
      (steps, (mst_edges, Reported <$> err),
       match algo, steps with
       | Prim, _ :: _ => Some 0%nat
       | _, _ => starting_node
       end)
  end.

Definition run_algorithm_generator (algo : algorithm) (gen : list event)
    (starting_node : option nat)
  : list event * (list edge * option run_error) * option nat :=
  run_algorithm_generator_loop algo gen [] false starting_node.

(** The engine's call and the generator that [run_algorithm] selects for
    an entry of the list. *)
Definition engine_of (algo : algorithm) (t0 t1 : Q) (self : MSTAlgorithms)
  : outcome (list edge * option error * MSTAlgorithms) :=
  match algo with
  | Kruskal => kruskal_mst t0 t1 self
  | Prim => prim_mst t0 t1 self
  end.

Definition generator_of (algo : algorithm) (t0 t1 : Q) (self : MSTAlgorithms)
  : outcome (list event * MSTAlgorithms) :=
  match algo with
  | Kruskal => kruskal_mst_with_animation t0 t1 self
  | Prim => prim_mst_with_animation t0 t1 self
  end.

(** The part of the GUI's state that [AlgorithmRunner.animate_step] reads
    and writes: the runner's fields, [visualizer.highlighted_edges],
    [parent.is_animation_running], and whether the timer that calls
    [animate_step] runs. The drawing of the graph and the update of the
    table are left out. *)
Record animation : Type := mkAnimation {
  animation_steps : list event;
  current_step : nat;
  sub_step : nat;
  starting_node : option nat;
  visited_vertices : list nat;
  highlighted_edges : list (nat * nat);
  is_animation_running : bool;
  timer_active : bool
}.

(** [animate_step]: one call by the timer. [animation_steps[current_step]]
    exists exactly when [current_step < len(animation_steps)]. *)
Definition animate_step (a : animation) : animation :=
  match animation_steps a !! current_step a with
  | Some step =>
      if decide (sub_step a = 0%nat) then
        let visited :=
          match step with
          | Vertex u =>
              if decide (u ∉ visited_vertices a) then visited_vertices a ++ [u]
              else visited_vertices a
          | _ => visited_vertices a
          end in
        mkAnimation (animation_steps a) (current_step a) 1 (starting_node a)
                    visited (highlighted_edges a)
                    (is_animation_running a) (timer_active a)
      else
        let highlighted :=
          match step with
          | Edge u v => highlighted_edges a ++ [(u, v)]
          | _ => highlighted_edges a
          end in
        mkAnimation (animation_steps a) (current_step a + 1) 0 (starting_node a)
                    (visited_vertices a) highlighted
                    (is_animation_running a) (timer_active a)
  | None =>
      let visited :=
        match starting_node a with
        | Some s => [s]
        | None => []
        end in
      mkAnimation (animation_steps a) (current_step a) (sub_step a) (starting_node a)
                  visited (highlighted_edges a) false false
  end.

(** The state in which [run_algorithm] starts the timer, which it does
    when there are steps: the steps and the starting node that
    [run_algorithm_generator] left, nothing visited, nothing highlighted. *)
Definition animation_start (steps : list event) (start : option nat) : animation :=
  mkAnimation steps 0 0 start [] [] true true.

(** ** The GUI's weights *)

(** [WeightManager.calculate_mst_weight] *)
Definition calculate_mst_weight (mst_edges : list edge) : Z :=
  match mst_edges with
  | [] => 0
  | _ :: _ => foldl (λ s e, s + weight e) 0 mst_edges
  end.

(** [WeightManager.calculate_total_graph_weight] on the graph of the graph
    manager, which is [None] until a graph is generated. A networkx graph
    without nodes counts as false; in a [Graph] every edge has a weight. *)
Definition calculate_total_graph_weight (G : option Graph) : Z :=
  match G with
  | None => 0
  | Some g =>
      if decide (nodes g = []) then 0
      else foldl (λ s e, s + e.2) 0 (edges g)
  end.

(** ** The GUI's input *)

(** A Python [str] as the list of its characters. *)
Definition str : Type := list ascii.

(** [s.replace(" ", "")] *)
Definition remove_spaces (s : str) : str := filter (λ c, c ≠ " "%char) s.

(** [s.lstrip("(")] and [s.rstrip(")")] *)
Fixpoint lstrip (c : ascii) (s : str) : str :=
  match s with
  | [] => []
  | x :: s' => if decide (x = c) then lstrip c s' else s
  end.

Definition rstrip (c : ascii) (s : str) : str := reverse (lstrip c (reverse s)).

(** Whether [sep] starts [s]. *)
Fixpoint starts_with (sep s : str) : bool :=
  match sep, s with
  | [], _ => true
  | _ :: _, [] => false
  | a :: sep', b :: s' => if decide (a = b) then starts_with sep' s' else false
  end.

(** [s.split(sep)] for a non-empty [sep]: the pieces between the
    occurrences of [sep], found from the left without overlap. [skip]
    counts the characters of an occurrence still to pass, [cur] holds the
    piece being read, reversed. *)
Fixpoint split_go (sep : str) (skip : nat) (cur : str) (s : str) : list str :=
  match s with
  | [] => [reverse cur]
  | c :: s' =>
      match skip with
      | S k => split_go sep k cur s'
      | O =>
          if starts_with sep s then reverse cur :: split_go sep (length sep - 1) [] s'
          else split_go sep 0 (c :: cur) s'
      end
  end.

Definition split (sep : str) (s : str) : list str := split_go sep 0 [] s.

(** An edge as the user enters it: [(u, v)] or [(u, v, weight)]. *)
Inductive user_edge : Type :=
| Unweighted (u v : Z)
| Weighted (u v weight : Z).

(** The [ValueError]s raised in the body of [parse_edges_input], by the
    start of their message or by their origin. *)
Inductive body_error : Type :=
| Each_edge_must_be     (* "Each edge must be in the format ..." *)
| Invalid_literal       (* raised by [int] *)
| Node_indices          (* "Node indices must be between 0 and ..." *)
| Edge_weights.         (* "Edge weights must be positive integers" *)

(** What a call of [parse_edges_input] gives: [None], the list, a
    [ValueError] that leaves the function, or an [IndexError] if
    [edges[0]] did not exist. *)
Inductive parse_error : Type :=
| Node_indices_error
| Edge_weights_error
| Invalid_edge_format.

Inductive parsed : Type :=
| Parsed_none
| Parsed (edge_list : list user_edge)
| Parse_value_error (e : parse_error)
| Parse_index_error.

Section InputHandler.
(** [int(s)]: [None] where it raises [ValueError]. *)
Variable int : str → option Z.

(** The body of [for edge in edges]. *)
Definition parse_edge (num_nodes : Z) (edge : str) : body_error + user_edge :=
  let parts := split [","%char] edge in
  if decide (length parts ≠ 3%nat ∧ length parts ≠ 2%nat) then inl Each_edge_must_be
  else
    match parts with
    | p0 :: p1 :: rest =>
        match int p0, int p1 with
        | Some u, Some v =>
            if decide (¬ (0 ≤ u < num_nodes ∧ 0 ≤ v < num_nodes)) then inl Node_indices
            else
              match rest with
              | [p2] =>
                  match int p2 with
                  | Some weight =>
                      if decide (weight ≤ 0) then inl Edge_weights
                      else inr (Weighted u v weight)
                  | None => inl Invalid_literal
                  end
              | _ => inr (Unweighted u v)
              end
        | _, _ => inl Invalid_literal
        end
    | _ => inl Each_edge_must_be
    end.

Fixpoint parse_edges (num_nodes : Z) (edges : list str) : body_error + list user_edge :=
  match edges with
  | [] => inr []
  | edge :: edges' =>
      match parse_edge num_nodes edge with
      | inl e => inl e
      | inr x =>
          match parse_edges num_nodes edges' with
          | inl e => inl e
          | inr l => inr (x :: l)
          end
      end
  end.

(** [InputHandler.parse_edges_input] *)
Definition parse_edges_input (edges_text : str) (num_nodes : Z) : parsed :=
  if decide (edges_text = []) then Parsed_none
  else
    let edges := split [")"%char; ","%char; "("%char] (remove_spaces edges_text) in
    match edges !! 0%nat with
    | None => Parse_index_error
    | Some first =>
        let edges := <[0%nat := lstrip "("%char first]> edges in
        match last edges with
        | None => Parse_index_error
        | Some final =>
            let edges := <[(length edges - 1)%nat := rstrip ")"%char final]> edges in
            match parse_edges num_nodes edges with
            | inr edge_list => Parsed edge_list
            | inl Node_indices => Parse_value_error Node_indices_error
            | inl Edge_weights => Parse_value_error Edge_weights_error
            | inl _ => Parse_value_error Invalid_edge_format
            end
        end
    end.
End InputHandler.

(** A stand-in for [int] in the examples. It reads the literals made of
    the digits [0] to [9] with an optional sign, on which it agrees with
    [int], and gives [None] on every other string; [int] accepts some of
    those (underscores between digits, surrounding whitespace, other
    decimal digits). The theorems do not use it: they hold for every
    [int]. *)
Definition digit_of (c : ascii) : option Z :=
  let n := Z.of_nat (nat_of_ascii c) in
  if decide (48 ≤ n ≤ 57) then Some (n - 48) else None.

Fixpoint digits_value (acc : Z) (s : str) : option Z :=
  match s with
  | [] => Some acc
  | c :: s' =>
      match digit_of c with
      | Some d => digits_value (10 * acc + d) s'
      | None => None
      end
  end.

Definition int_decimal (s : str) : option Z :=
  match s with
  | [] => None
  | c :: s' =>
      if decide (c = "-"%char) then
        match s' with [] => None | _ => Z.opp <$> digits_value 0 s' end
      else if decide (c = "+"%char) then
        match s' with [] => None | _ => digits_value 0 s' end
      else digits_value 0 s
  end.

(** ** The graph manager: edges given by the user *)

(** The [ValueError]s of the loop over [user_edges]: the two that
    [generate_random_graph] raises itself, and the one of
    [for u, v, w in user_edges] on a pair. *)
Inductive generate_error : Type :=
| Out_of_range           (* "Nodes ... are out of range ..." *)
| Weight_not_positive    (* "Weight ... must be positive" *)
| Not_enough_values.     (* "not enough values to unpack (expected 3, got 2)" *)

(** [for u, v, w in user_edges] of [GraphManager.generate_random_graph],
    entered when [user_edges] is not empty. [added] lists the calls
    [self.graph.add_edge(u, v, weight=w)] made so far; an error leaves the
    graph with the edges added before it. *)
Fixpoint add_user_edges (num_nodes : Z) (user_edges : list user_edge)
    (added : list (Z * Z * Z)) : option generate_error * list (Z * Z * Z) :=
  match user_edges with
  | [] => (None, added)
  | Unweighted _ _ :: _ => (Some Not_enough_values, added)
  | Weighted u v w :: user_edges' =>
      if decide (¬ (0 ≤ u < num_nodes ∧ 0 ≤ v < num_nodes)) then (Some Out_of_range, added)
      else if decide (w ≤ 0) then (Some Weight_not_positive, added)
      else add_user_edges num_nodes user_edges' (added ++ [(u, v, w)])
  end.

(** The entries of a parsed list: indices in range, weights positive. *)
Definition valid_user_edge (num_nodes : Z) (e : user_edge) : Prop :=
  match e with
  | Unweighted u v => 0 ≤ u < num_nodes ∧ 0 ≤ v < num_nodes
  | Weighted u v w => 0 ≤ u < num_nodes ∧ 0 ≤ v < num_nodes ∧ 0 < w
  end.

(** The triple of an edge entered with its weight. *)
Definition weighted_triple (e : user_edge) : option (Z * Z * Z) :=
  match e with
  | Unweighted _ _ => None
  | Weighted u v w => Some (u, v, w)
  end.

(** ** The benchmark's graphs *)

(** [max_edges = V * (V - 1) // 2] and [E = min(V * V, max_edges)] of the
    benchmark loop. *)
Definition bench_max_edges (V : Z) : Z := V * (V - 1) / 2.
Definition bench_num_edges (V : Z) : Z := Z.min (V * V) (bench_max_edges V).

(** * Basic facts *)

Lemma bind_Ok {A B : Type} (a : A) (k : A → outcome B) : (Ok a ≫= k) = k a.
Proof. reflexivity. Qed.

Lemma getitem_Some {A : Type} (l : list A) (i : nat) (x : A) :
  l !! i = Some x → getitem l i = Ok x.
Proof. unfold getitem. by intros ->. Qed.

(** * Connectivity, forests, spanning trees *)

Section Connectivity.
Implicit Types (F G : list edge) (e : edge) (x y z : nat).

Lemma conn_mono F G x y : (∀ e, e ∈ F → e ∈ G) → conn F x y → conn G x y.
Proof.
  intros Hsub H. induction H.
  - apply conn_refl.
  - apply conn_edge; auto.
  - apply conn_sym; auto.
  - eapply conn_trans; eauto.
Qed.

Lemma conn_perm F G x y : F ≡ₚ G → conn F x y → conn G x y.
Proof. intros HP. apply conn_mono. intros e. by rewrite HP. Qed.

Lemma conn_edge' F u v w : (u, v, w) ∈ F → conn F u v.
Proof. intros H. apply (conn_edge F (u, v, w) H). Qed.

Lemma conn_flip F e : flip e ∈ F → conn F (src e) (dst e).
Proof. intros H. apply conn_sym. apply (conn_edge F (flip e) H). Qed.

(** Connectivity through one more edge. *)
Lemma conn_cons_inv e F x y :
  conn (e :: F) x y →
  conn F x y
  ∨ (conn F x (src e) ∧ conn F (dst e) y)
  ∨ (conn F x (dst e) ∧ conn F (src e) y).
Proof.
  induction 1 as [x|e' He'|x y H IH|x y z H1 IH1 H2 IH2].
  - left. apply conn_refl.
  - apply elem_of_cons in He' as [->|He'].
    + right. left. split; apply conn_refl.
    + left. by apply conn_edge.
  - destruct IH as [IH|[[IHa IHb]|[IHa IHb]]].
    + left. by apply conn_sym.
    + right. right. split; by apply conn_sym.
    + right. left. split; by apply conn_sym.
  - destruct IH1 as [A|[[A1 A2]|[A1 A2]]], IH2 as [B|[[B1 B2]|[B1 B2]]].
    + left. eapply conn_trans; eauto.
    + right. left. split; [eapply conn_trans; eauto | done].
    + right. right. split; [eapply conn_trans; eauto | done].
    + right. left. split; [done | eapply conn_trans; eauto].
    + right. left. by split.
    + left. eapply conn_trans; eauto.
    + right. right. split; [done | eapply conn_trans; eauto].
    + left. eapply conn_trans; eauto.
    + right. right. by split.
Qed.

(** An edge between two connected nodes adds no connection. *)
Lemma conn_cons_redundant e F x y :
  conn F (src e) (dst e) → conn (e :: F) x y → conn F x y.
Proof.
  intros He H. apply conn_cons_inv in H as [H|[[H1 H2]|[H1 H2]]]; [done|..].
  - eapply conn_trans; [exact H1|]. eapply conn_trans; [exact He|done].
  - eapply conn_trans; [exact H1|]. eapply conn_trans; [apply conn_sym, He|done].
Qed.

Lemma conn_cons_weaken e F x y : conn F x y → conn (e :: F) x y.
Proof. apply conn_mono. intros. by apply elem_of_cons; right. Qed.

Lemma conn_cons_new e F : conn (e :: F) (src e) (dst e).
Proof. apply conn_edge. by left. Qed.

(** If [G] connects whatever [F] connects, this stays so when both get
    the same further edge. *)
Lemma conn_cons_incl e F G :
  (∀ x y, conn F x y → conn G x y) →
  ∀ x y, conn (e :: F) x y → conn (e :: G) x y.
Proof.
  intros Hsub x y H. induction H as [x|e' He'|x y H IH|x y z H1 IH1 H2 IH2].
  - apply conn_refl.
  - apply elem_of_cons in He' as [->|He'].
    + apply conn_cons_new.
    + apply conn_cons_weaken, Hsub. by apply conn_edge.
  - by apply conn_sym.
  - eapply conn_trans; eauto.
Qed.

(** A set of nodes that no edge of [F] leaves is closed under [conn F]. *)
Lemma conn_closed (S : nat → Prop) F x y :
  (∀ e, e ∈ F → S (src e) ↔ S (dst e)) → conn F x y → S x ↔ S y.
Proof.
  intros HS. induction 1 as [x|e' He'|x y H IH|x y z H1 IH1 H2 IH2].
  - done.
  - by apply HS.
  - by symmetry.
  - by etrans.
Qed.

Lemma conn_nil x y : conn [] x y → x = y.
Proof.
  intros H. apply (conn_closed (λ z, x = z) [] x y); [|done..].
  intros e He. by apply elem_of_nil in He.
Qed.

Lemma conn_in_range n F x y :
  edges_in_range n F → conn F x y → x ≠ y → (x < n)%nat ∧ (y < n)%nat.
Proof.
  intros HF H Hne.
  assert (Hc : x = x ∨ (x < n)%nat ↔ x = y ∨ (y < n)%nat).
  { apply (conn_closed (λ z, x = z ∨ (z < n)%nat) F x y); [|done].
    intros e He. destruct (HF e He). tauto. }
  assert (Hc' : y = y ∨ (y < n)%nat ↔ y = x ∨ (x < n)%nat).
  { apply (conn_closed (λ z, y = z ∨ (z < n)%nat) F y x); [|by apply conn_sym].
    intros e He. destruct (HF e He). tauto. }
  split; [destruct Hc' as [[|] _]|destruct Hc as [[|] _]]; auto; congruence.
Qed.
End Connectivity.

Section Forests.
Implicit Types (F G R : list edge) (e c : edge) (x y z : nat).

Lemma acyclic_nil : acyclic [].
Proof. intros F1 e F2 H. by destruct F1. Qed.

Lemma acyclic_cons e F :
  acyclic F → ¬ conn F (src e) (dst e) → acyclic (e :: F).
Proof.
  intros HF He F1 c F2 Heq Hc. destruct F1 as [|e' F1]; simplify_eq/=; [done|].
  assert (Hsub : ∀ x y, conn (F1 ++ F2) x y → conn (F1 ++ c :: F2) x y).
  { intros x y. apply conn_mono. intros a. rewrite !elem_of_app, elem_of_cons. tauto. }
  assert (Hcc : conn (F1 ++ c :: F2) (src c) (dst c)).
  { apply conn_edge. rewrite elem_of_app, elem_of_cons. tauto. }
  apply conn_cons_inv in Hc as [Hc|[[H1 H2]|[H1 H2]]].
  - by apply (HF F1 c F2).
  - apply He.
    eapply conn_trans; [apply conn_sym, Hsub, H1|].
    eapply conn_trans; [apply Hcc|]. apply conn_sym, Hsub, H2.
  - apply He.
    eapply conn_trans; [apply Hsub, H2|].
    eapply conn_trans; [apply conn_sym, Hcc|]. apply Hsub, H1.
Qed.

Lemma acyclic_perm F G : F ≡ₚ G → acyclic F → acyclic G.
Proof.
  intros HP HF G1 c G2 -> Hc.
  assert (Hin : c ∈ F).
  { rewrite HP, elem_of_app, elem_of_cons. tauto. }
  apply list_elem_of_split in Hin as (F1 & F2 & ->).
  apply (HF F1 c F2 eq_refl). eapply conn_perm; [|exact Hc].
  rewrite <-!Permutation_middle in HP. by apply Permutation_cons_inv in HP.
Qed.

Lemma acyclic_snoc e F :
  acyclic F → ¬ conn F (src e) (dst e) → acyclic (F ++ [e]).
Proof.
  intros HF He. apply (acyclic_perm (e :: F)).
  - by rewrite Permutation_app_comm.
  - by apply acyclic_cons.
Qed.

(** In a forest no two edges join the same two nodes. *)
Lemma acyclic_no_parallel F1 e F2 c :
  acyclic (F1 ++ e :: F2) → c ∈ F1 ++ F2 →
  ¬ (src c = src e ∧ dst c = dst e) ∧ ¬ (src c = dst e ∧ dst c = src e).
Proof.
  intros HF Hc. split; intros [H1 H2]; apply (HF F1 e F2 eq_refl).
  - rewrite <-H1, <-H2. by apply conn_edge.
  - rewrite <-H1, <-H2. apply conn_sym. by apply conn_edge.
Qed.

Lemma total_weight_app F G : total_weight (F ++ G) = total_weight F + total_weight G.
Proof. induction F as [|e F IH]; simpl; [done|]. unfold total_weight in *. simpl. lia. Qed.

Lemma total_weight_perm F G : F ≡ₚ G → total_weight F = total_weight G.
Proof.
  unfold total_weight. induction 1; simpl; try lia. 
Qed.

Lemma total_weight_nonneg F : (∀ e, e ∈ F → 0 ≤ weight e) → 0 ≤ total_weight F.
Proof.
  induction F as [|e F IH]; intros H; unfold total_weight in *; simpl; [done|].
  assert (0 ≤ weight e) by (apply H; by left).
  assert (0 ≤ foldr (λ e s, weight e + s) 0 F).
  { apply IH. intros. apply H. by right. }
  lia.
Qed.

(** The exchange step of the cut argument. [S] is a set of nodes that no
    edge of [F] leaves and that the edge [e] leaves. If [F ++ R] connects
    the ends of [e], then some edge [c] of [R] leaves [S] too and can be
    traded for [e]: what [F ++ R] connects stays connected. *)
Lemma exchange (S : nat → Prop) `{!∀ x, Decision (S x)} e R : ∀ F,
  (∀ c, c ∈ F → S (src c) ↔ S (dst c)) →
  S (src e) → ¬ S (dst e) →
  conn (F ++ R) (src e) (dst e) →
  ∃ c R', R ≡ₚ c :: R'
    ∧ ¬ (S (src c) ↔ S (dst c))
    ∧ ∀ x y, conn (F ++ R) x y → conn (e :: F ++ R') x y.
Proof.
  induction R as [|c R IH]; intros F HF Hs Hd Hconn.
  { exfalso. rewrite app_nil_r in Hconn.
    apply Hd. by apply (conn_closed S F _ _ HF Hconn). }
  assert (Hmid : ∀ G x y, conn (G ++ c :: R) x y ↔ conn (c :: G ++ R) x y).
  { intros G x y. split; apply conn_perm; by rewrite Permutation_middle. }
  destruct (decide (S (src c) ↔ S (dst c))) as [Hc|Hc].
  - destruct (IH (c :: F)) as (c' & R' & HP & Hc' & Hsub); [|done|done|by apply Hmid|].
    { intros a [->|Ha]%elem_of_cons; auto. }
    exists c', (c :: R'). split_and!; [|done|].
    + rewrite HP. apply perm_swap.
    + intros x y Hxy. apply Hmid in Hxy. apply Hsub in Hxy.
      eapply conn_perm; [|exact Hxy]. simpl.
      apply perm_skip. by rewrite Permutation_middle.
  - apply Hmid, conn_cons_inv in Hconn as [Hconn|[[H1 H2]|[H1 H2]]].
    + destruct (IH F) as (c' & R' & HP & Hc' & Hsub); [done..|].
      exists c', (c :: R'). split_and!; [|done|].
      * rewrite HP. apply perm_swap.
      * intros x y Hxy. apply Hmid in Hxy.
        apply (conn_cons_incl c _ _ Hsub) in Hxy.
        eapply conn_perm; [|exact Hxy].
        rewrite perm_swap. apply perm_skip. by rewrite Permutation_middle.
    + exists c, R. split_and!; [done..|].
      intros x y Hxy. apply Hmid in Hxy.
      apply (conn_cons_redundant c).
      * eapply conn_trans; [apply conn_sym, conn_cons_weaken, H1|].
        eapply conn_trans; [apply conn_cons_new|].
        apply conn_sym, conn_cons_weaken, H2.
      * eapply conn_perm; [apply perm_swap|]. by apply conn_cons_weaken.
    + exists c, R. split_and!; [done..|].
      intros x y Hxy. apply Hmid in Hxy.
      apply (conn_cons_redundant c).
      * eapply conn_trans; [apply conn_cons_weaken, H2|].
        eapply conn_trans; [apply conn_sym, conn_cons_new|].
        apply conn_cons_weaken, H1.
      * eapply conn_perm; [apply perm_swap|]. by apply conn_cons_weaken.
Qed.
End Forests.

(** ** Minimality by the cut argument *)

Section CutArgument.
Context (n : nat) (E T : list edge).
Implicit Types (F R : list edge) (e c : edge).

Lemma weight_flip e : weight (flip e) = weight e.
Proof. done. Qed.

Lemma promising_start : edges_of E T → spanning n T → promising n E T [].
Proof. intros H1 H2. exists T. simpl. split_and!; [done..|lia]. Qed.

Lemma promising_step (S : nat → Prop) `{!∀ x, Decision (S x)} F e :
  promising n E T F →
  (∀ c, c ∈ F → S (src c) ↔ S (dst c)) →
  (src e < n)%nat → (dst e < n)%nat →
  S (src e) → ¬ S (dst e) →
  (∀ c, c ∈ E ∨ flip c ∈ E → ¬ (S (src c) ↔ S (dst c)) → weight e ≤ weight c) →
  promising n E T (F ++ [e]).
Proof.
  intros (R & HR & Hsp & Hw) HF Hu Hv Hs Hd Hmin.
  destruct (exchange S e R F HF Hs Hd (Hsp _ _ Hu Hv)) as (c & R' & HP & Hc & Hsub).
  assert (Hc' : c ∈ R) by (rewrite HP; by left).
  exists R'. split_and!.
  - intros a Ha. apply HR. rewrite HP. by right.
  - intros x y Hx Hy. eapply conn_perm; [|apply Hsub, Hsp; done].
    rewrite <-app_assoc. simpl. by rewrite Permutation_middle.
  - rewrite total_weight_app. rewrite (total_weight_perm _ _ HP) in Hw.
    specialize (Hmin c (HR c Hc') Hc).
    unfold total_weight in *. simpl in *. lia.
Qed.

Lemma promising_end F :
  (∀ e, e ∈ E → 0 ≤ weight e) → promising n E T F →
  total_weight F ≤ total_weight T.
Proof.
  intros Hpos (R & HR & _ & Hw).
  assert (0 ≤ total_weight R); [|lia].
  apply total_weight_nonneg. intros e He.
  destruct (HR e He) as [H|H]; apply Hpos in H; by rewrite ?weight_flip in H.
Qed.
End CutArgument.

(** ** Counting components *)

Section Components.
Implicit Types (F G : list edge) (e : edge) (reps : list nat).

Lemma transversal_nil n : transversal n [] (seq 0 n).
Proof.
  split_and!.
  - apply NoDup_seq.
  - intros r Hr%elem_of_seq. lia.
  - intros x Hx. exists x. split; [apply elem_of_seq; lia|apply conn_refl].
  - intros r r' _ _. apply conn_nil.
Qed.

Lemma transversal_ext n F G reps :
  (∀ x y, (x < n)%nat → (y < n)%nat → conn F x y ↔ conn G x y) →
  transversal n F reps → transversal n G reps.
Proof.
  intros Heq (Hnd & Hlt & Hex & Huniq). split_and!; [done..| |].
  - intros x Hx. destruct (Hex x Hx) as (r & Hr & Hc). exists r. split; [done|].
    apply Heq; auto.
  - intros r r' Hr Hr' Hc. apply Huniq; [done..|]. apply Heq; auto.
Qed.

(** An edge between two components merges them. *)
Lemma transversal_cons n F reps e :
  transversal n F reps →
  (src e < n)%nat → (dst e < n)%nat → ¬ conn F (src e) (dst e) →
  ∃ reps', transversal n (e :: F) reps' ∧ length reps = S (length reps').
Proof.
  intros (Hnd & Hlt & Hex & Huniq) Hu Hv Hne.
  destruct (Hex _ Hu) as (ru & Hru & Hcu), (Hex _ Hv) as (rv & Hrv & Hcv).
  assert (ru ≠ rv).
  { intros ->. apply Hne. eapply conn_trans; [exact Hcu|by apply conn_sym]. }
  pose proof Hrv as Hsplit.
  apply list_elem_of_split in Hsplit as (l1 & l2 & ->).
  apply NoDup_app in Hnd as (Hnd1 & Hdis & Hnd2).
  apply NoDup_cons in Hnd2 as [Hrv2 Hnd2].
  assert (Hin : ∀ r, r ∈ l1 ++ rv :: l2 → r ≠ rv → r ∈ l1 ++ l2).
  { intros r. rewrite !elem_of_app, elem_of_cons. tauto. }
  assert (Hin' : ∀ r, r ∈ l1 ++ l2 → r ∈ l1 ++ rv :: l2 ∧ r ≠ rv).
  { intros r. rewrite !elem_of_app, elem_of_cons. intros [H1|H2]; split; auto.
    - intros ->. by apply (Hdis rv); [|left].
    - by intros ->. }
  exists (l1 ++ l2). split; [|rewrite !length_app; simpl; lia].
  split_and!.
  - apply NoDup_app. split_and!; [done| |done].
    intros x Hx Hx'. apply (Hdis x Hx). by right.
  - intros r Hr. apply Hlt. by apply Hin'.
  - intros x Hx. destruct (Hex _ Hx) as (r & Hr & Hc).
    destruct (decide (r = rv)) as [->|Hrne].
    + exists ru. split; [by apply Hin|].
      eapply conn_trans; [apply conn_cons_weaken, Hc|].
      eapply conn_trans; [apply conn_sym, conn_cons_weaken, Hcv|].
      eapply conn_trans; [apply conn_sym, conn_cons_new|].
      by apply conn_cons_weaken.
    + exists r. split; [by apply Hin|by apply conn_cons_weaken].
  - intros r r' [Hr Hrne]%Hin' [Hr' Hrne']%Hin' Hc.
    apply conn_cons_inv in Hc as [Hc|[[H1 H2]|[H1 H2]]]; [by apply Huniq|..]; exfalso.
    + apply Hrne', (Huniq r' rv Hr' Hrv).
      eapply conn_trans; [apply conn_sym, H2|done].
    + apply Hrne, (Huniq r rv Hr Hrv).
      eapply conn_trans; [exact H1|done].
Qed.

(** A list without repetition that maps injectively into another is no
    longer than it. *)
Lemma injection_length {A} (R : A → A → Prop) (l1 : list A) : ∀ l2 : list A,
  NoDup l1 →
  (∀ a, a ∈ l1 → ∃ b, b ∈ l2 ∧ R a b) →
  (∀ a a' b, a ∈ l1 → a' ∈ l1 → R a b → R a' b → a = a') →
  (length l1 ≤ length l2)%nat.
Proof.
  induction l1 as [|a l1 IH]; intros l2 Hnd Hex Hinj; simpl; [lia|].
  apply NoDup_cons in Hnd as [Ha Hnd].
  destruct (Hex a) as (b & Hb & Hab); [by left|].
  apply list_elem_of_split in Hb as (k1 & k2 & ->).
  rewrite length_app. simpl.
  enough (length l1 ≤ length (k1 ++ k2))%nat by (rewrite length_app in *; lia).
  apply IH; [done| |].
  - intros a' Ha'. destruct (Hex a') as (b' & Hb' & Hab'); [by right|].
    exists b'. split; [|done].
    assert (b' ≠ b).
    { intros ->. apply Ha. rewrite (Hinj a a' b); [done|by left|by right|done..]. }
    revert Hb'. rewrite !elem_of_app, elem_of_cons. tauto.
  - intros a1 a2 b' H1 H2. apply Hinj; by right.
Qed.

(** Any two transversals have the same length: the number of components. *)
Lemma transversal_length n F reps reps' :
  transversal n F reps → transversal n F reps' → length reps = length reps'.
Proof.
  assert (Hle : ∀ r1 r2, transversal n F r1 → transversal n F r2 →
                         (length r1 ≤ length r2)%nat).
  { intros r1 r2 (Hnd1 & Hlt1 & Hex1 & Hu1) (Hnd2 & Hlt2 & Hex2 & Hu2).
    apply (injection_length (conn F)); [done| |].
    - intros a Ha. apply Hex2, Hlt1, Ha.
    - intros a a' b Ha Ha' H1 H2. apply Hu1; [done..|].
      eapply conn_trans; [exact H1|by apply conn_sym]. }
  intros H1 H2. apply Nat.le_antisymm; by apply Hle.
Qed.

Lemma transversal_connected n F :
  (0 < n)%nat → spanning n F → transversal n F [0%nat].
Proof.
  intros Hn Hsp. split_and!.
  - apply NoDup_singleton.
  - intros r ->%list_elem_of_singleton. done.
  - intros x Hx. exists 0%nat. split; [by apply list_elem_of_singleton|by apply Hsp].
  - intros r r' ->%list_elem_of_singleton ->%list_elem_of_singleton _. done.
Qed.
End Components.

(** * Union-find *)

Section UnionFind.
Implicit Types (parent : list nat) (rank : list Z) (i j r d : nat).

Lemma root_of_is_root parent i r d : root_of parent i r d → parent !! r = Some r.
Proof. induction 1; auto. Qed.

Lemma root_of_det parent i r d r' d' :
  root_of parent i r d → root_of parent i r' d' → r = r' ∧ d = d'.
Proof.
  intros H. revert r' d'. induction H as [i Hi|i j r d Hi Hne H IH]; intros r' d' H'.
  - inversion H'; simplify_eq; done.
  - inversion H'; simplify_eq. destruct (IH _ _ H2) as [-> ->]. done.
Qed.

Lemma rep_det parent i r r' : rep parent i r → rep parent i r' → r = r'.
Proof. intros [d H] [d' H']. by destruct (root_of_det _ _ _ _ _ _ H H'). Qed.

Lemma root_of_lt parent i r d : root_of parent i r d → (i < length parent)%nat.
Proof. intros H. inversion H; subst; by eapply lookup_lt_Some. Qed.

Lemma rep_root_lt parent i r : rep parent i r → (r < length parent)%nat.
Proof. intros [d H]. eapply lookup_lt_Some, root_of_is_root, H. Qed.

Lemma rep_root parent r : parent !! r = Some r → rep parent r r.
Proof. exists 0%nat. by apply root_here. Qed.

(** The depth of a node is bounded by the difference of ranks. *)
Lemma depth_rank n K parent rank i r d :
  uf_inv n K parent rank → root_of parent i r d →
  ∃ a b, rank !! i = Some a ∧ rank !! r = Some b ∧ a + Z.of_nat d ≤ b.
Proof.
  intros Hinv. induction 1 as [i Hi|i j r d Hi Hne H IH].
  - assert (is_Some (rank !! i)) as [a Ha].
    { apply lookup_lt_is_Some. rewrite (uf_len_rank _ _ _ _ Hinv).
      rewrite <-(uf_len_parent _ _ _ _ Hinv). by eapply lookup_lt_Some. }
    exists a, a. split_and!; [done..|lia].
  - destruct IH as (a & b & Ha & Hb & Hab).
    destruct (uf_rank_up _ _ _ _ Hinv i j Hi Hne) as (a' & b' & Ha' & Hb' & Hlt).
    simplify_eq. exists a', b. split_and!; [done..|lia].
Qed.

Lemma depth_bound n K parent rank i r d :
  uf_inv n K parent rank → root_of parent i r d → Z.of_nat d ≤ K.
Proof.
  intros Hinv H. destruct (depth_rank _ _ _ _ _ _ _ Hinv H) as (a & b & Ha & Hb & Hab).
  pose proof (uf_rank_bound _ _ _ _ Hinv _ _ Ha).
  pose proof (uf_rank_bound _ _ _ _ Hinv _ _ Hb). lia.
Qed.

(** [find] returns the root and compresses, given fuel beyond the depth. *)
Lemma find_root_of fuel parent i r d :
  root_of parent i r d → (d < fuel)%nat →
  ∃ parent', find fuel parent i = Ok (parent', r) ∧ compressed parent parent'.
Proof.
  intros H. revert fuel. induction H as [i Hi|i j r d Hi Hne H IH]; intros fuel Hd.
  - destruct fuel as [|fuel]; [lia|]. exists parent. simpl. unfold getitem. rewrite Hi. simpl.
    rewrite decide_False by (intros ?; done). split; [done|]. split; [done|by left].
  - destruct fuel as [|fuel]; [lia|].
    destruct (IH fuel) as (parent1 & Hfind & Hlen & Hc); [lia|].
    exists (<[i:=r]> parent1). simpl. unfold getitem. rewrite Hi. simpl.
    rewrite decide_True by done. rewrite Hfind. simpl. split; [done|].
    split; [by rewrite length_insert|].
    intros k. destruct (decide (k = i)) as [->|Hk].
    + right. exists r, d. split; [|by eapply root_up].
      apply list_lookup_insert_eq. rewrite Hlen. by eapply lookup_lt_Some.
    + rewrite list_lookup_insert_ne by done. apply Hc.
Qed.

Lemma find_at_root fuel parent r :
  parent !! r = Some r → find (S fuel) parent r = Ok (parent, r).
Proof.
  intros Hr. simpl. unfold getitem. rewrite Hr. simpl.
  by rewrite decide_False by (intros ?; done).
Qed.

(** Compression keeps every root. *)
Lemma compressed_root_of parent parent' i r d :
  compressed parent parent' → root_of parent i r d →
  ∃ d', root_of parent' i r d'.
Proof.
  intros [Hlen Hc] H.
  assert (Hroot : ∀ k, parent !! k = Some k → parent' !! k = Some k).
  { intros k Hk. destruct (Hc k) as [->|(r' & d' & _ & Hr')]; [done|].
    destruct (root_of_det _ _ _ _ _ _ Hr' (root_here _ _ Hk)). done. }
  induction H as [i Hi|i j r d Hi Hne H IH].
  - exists 0%nat. apply root_here. auto.
  - destruct IH as [d' IH].
    destruct (Hc i) as [Heq|(r' & d'' & Heq & Hr')].
    + exists (S d'). eapply root_up; [by rewrite Heq|done..].
    + destruct (root_of_det _ _ _ _ _ _ Hr' (root_up _ _ _ _ _ Hi Hne H)) as [-> _].
      exists 1%nat. eapply root_up; [done| |].
      * intros ->. pose proof (root_of_is_root _ _ _ _ H). congruence.
      * apply root_here, Hroot. by eapply root_of_is_root.
Qed.

Lemma compressed_rep n K parent rank parent' i r :
  uf_inv n K parent rank → compressed parent parent' → (i < n)%nat →
  rep parent' i r ↔ rep parent i r.
Proof.
  intros Hinv Hc Hi. split.
  - intros Hr'. destruct (uf_total _ _ _ _ Hinv i Hi) as [r0 [d0 Hr0]].
    destruct (compressed_root_of _ _ _ _ _ Hc Hr0) as [d1 Hr1].
    rewrite (rep_det _ _ _ _ Hr' (ex_intro _ d1 Hr1)). by exists d0.
  - intros [d Hr]. eapply compressed_root_of; eauto.
Qed.

Lemma compressed_inv n K parent rank parent' :
  uf_inv n K parent rank → compressed parent parent' → uf_inv n K parent' rank.
Proof.
  intros Hinv Hc. split.
  - destruct Hc as [-> _]. apply Hinv.
  - apply Hinv.
  - intros i Hi. destruct (uf_total _ _ _ _ Hinv i Hi) as [r Hr].
    exists r. by eapply compressed_rep.
  - intros i j Hij Hne. destruct Hc as [_ Hc].
    destruct (Hc i) as [Heq|(r & d & Heq & Hr)].
    + eapply uf_rank_up; [done| |done]. by rewrite <-Heq.
    + simplify_eq.
      destruct (depth_rank _ _ _ _ _ _ _ Hinv Hr) as (a & b & Ha & Hb & Hab).
      exists a, b. split_and!; [done..|lia].
  - apply Hinv.
Qed.

Lemma compressed_models n K parent rank parent' F :
  uf_inv n K parent rank → compressed parent parent' →
  uf_models n parent F → uf_models n parent' F.
Proof.
  intros Hinv Hc Hm i j Hi Hj. rewrite (Hm i j Hi Hj).
  split; intros (r & H1 & H2); exists r.
  - by rewrite !(compressed_rep _ _ _ _ _ _ _ Hinv Hc).
  - by rewrite <-!(compressed_rep _ _ _ _ _ _ _ Hinv Hc).
Qed.

(** [find] on a node of a well-formed array, with [fuel] above the bound
    of the ranks. *)
Lemma find_spec n K parent rank fuel i :
  uf_inv n K parent rank → (i < n)%nat → K < Z.of_nat fuel →
  ∃ parent' r, find fuel parent i = Ok (parent', r)
    ∧ rep parent i r ∧ parent' !! r = Some r ∧ (r < n)%nat
    ∧ compressed parent parent'.
Proof.
  intros Hinv Hi HK. destruct (uf_total _ _ _ _ Hinv i Hi) as [r [d Hr]].
  pose proof (depth_bound _ _ _ _ _ _ _ Hinv Hr).
  destruct (find_root_of fuel _ _ _ _ Hr) as (parent' & Hfind & Hc); [lia|].
  exists parent', r. split_and!; [done|by exists d| | |done].
  - destruct (compressed_root_of _ _ _ _ _ Hc Hr) as [d' Hr'].
    by eapply root_of_is_root.
  - rewrite <-(uf_len_parent _ _ _ _ Hinv). eapply rep_root_lt. by exists d.
Qed.
End UnionFind.

Section Link.
Implicit Types (parent : list nat) (rank : list Z).

(** Making the root [a] the parent of the root [b]. *)
Lemma link_rep parent a b j r :
  parent !! a = Some a → parent !! b = Some b → a ≠ b →
  rep parent j r → rep (<[b:=a]> parent) j (if decide (r = b) then a else r).
Proof.
  intros Ha Hb Hab [d H].
  assert (Hla : <[b:=a]> parent !! a = Some a) by by rewrite list_lookup_insert_ne.
  assert (Hlb : <[b:=a]> parent !! b = Some a).
  { apply list_lookup_insert_eq. by eapply lookup_lt_Some. }
  induction H as [i Hi|i k r d Hi Hne H IH].
  - destruct (decide (i = b)) as [->|Hib].
    + exists 1%nat. eapply root_up; [done..|]. by apply root_here.
    + exists 0%nat. apply root_here. by rewrite list_lookup_insert_ne.
  - destruct IH as [d' IH]. exists (S d'). eapply root_up; [|done..].
    rewrite list_lookup_insert_ne; [done|]. intros ->. congruence.
Qed.

Lemma link_inv n K parent rank a b ra rb :
  uf_inv n K parent rank →
  parent !! a = Some a → parent !! b = Some b → a ≠ b →
  rank !! a = Some ra → rank !! b = Some rb → rb ≤ ra →
  uf_inv n (K + 1) (<[b:=a]> parent)
         (if decide (ra = rb) then <[a:=ra + 1]> rank else rank).
Proof.
  intros Hinv Ha Hb Hab Hra Hrb Hle.
  set (rank' := if decide (ra = rb) then <[a:=ra + 1]> rank else rank).
  assert (Hrank'_ne : ∀ i, i ≠ a → rank' !! i = rank !! i).
  { intros i Hi. unfold rank'. case_decide; [|done]. by rewrite list_lookup_insert_ne. }
  assert (Hrank'_a : ∃ ra', rank' !! a = Some ra' ∧ ra ≤ ra' ≤ ra + 1 ∧ rb < ra').
  { unfold rank'. case_decide.
    - exists (ra + 1). split; [|lia]. apply list_lookup_insert_eq. by eapply lookup_lt_Some.
    - exists ra. split; [done|lia]. }
  destruct Hrank'_a as (ra' & Hra' & Hra'1 & Hra'2).
  split.
  - rewrite length_insert. apply Hinv.
  - unfold rank'. case_decide; rewrite ?length_insert; apply Hinv.
  - intros i Hi. destruct (uf_total _ _ _ _ Hinv i Hi) as [r Hr].
    eexists. by apply link_rep.
  - intros i j Hij Hne. destruct (decide (i = b)) as [->|Hib].
    + rewrite list_lookup_insert_eq in Hij by by eapply lookup_lt_Some.
      simplify_eq. exists rb, ra'. rewrite Hrank'_ne by done. done.
    + rewrite list_lookup_insert_ne in Hij by done.
      assert (i ≠ a) by (intros ->; congruence).
      destruct (uf_rank_up _ _ _ _ Hinv i j Hij Hne) as (x & y & Hx & Hy & Hxy).
      rewrite Hrank'_ne by done.
      destruct (decide (j = a)) as [->|Hja].
      * simplify_eq. exists x, ra'. split_and!; [done..|lia].
      * exists x, y. by rewrite Hrank'_ne.
  - intros i x Hx. destruct (decide (i = a)) as [->|Hia].
    + simplify_eq. pose proof (uf_rank_bound _ _ _ _ Hinv _ _ Hra). lia.
    + rewrite Hrank'_ne in Hx by done.
      pose proof (uf_rank_bound _ _ _ _ Hinv _ _ Hx). lia.
Qed.

(** [union] on two distinct roots links one under the other. *)
Lemma union_roots n K parent rank fuel x y :
  uf_inv n K parent rank → (0 < fuel)%nat →
  parent !! x = Some x → parent !! y = Some y → x ≠ y →
  ∃ parent' rank' a b,
    union fuel parent rank x y = Ok (parent', rank')
    ∧ ((a = x ∧ b = y) ∨ (a = y ∧ b = x))
    ∧ parent' = <[b:=a]> parent
    ∧ uf_inv n (K + 1) parent' rank'.
Proof.
  intros Hinv Hfuel Hx Hy Hxy. destruct fuel as [|fuel]; [lia|clear Hfuel].
  assert (is_Some (rank !! x)) as [rx Hrx].
  { apply lookup_lt_is_Some. rewrite (uf_len_rank _ _ _ _ Hinv).
    rewrite <-(uf_len_parent _ _ _ _ Hinv). by eapply lookup_lt_Some. }
  assert (is_Some (rank !! y)) as [ry Hry].
  { apply lookup_lt_is_Some. rewrite (uf_len_rank _ _ _ _ Hinv).
    rewrite <-(uf_len_parent _ _ _ _ Hinv). by eapply lookup_lt_Some. }
  unfold union. rewrite (find_at_root _ _ _ Hx), bind_Ok. cbv beta iota.
  rewrite (find_at_root _ _ _ Hy), bind_Ok. cbv beta iota.
  rewrite decide_False by done.
  rewrite (getitem_Some _ _ _ Hrx), bind_Ok.
  rewrite (getitem_Some _ _ _ Hry), bind_Ok.
  destruct (decide (rx < ry)) as [Hlt|Hge].
  - rewrite (getitem_Some _ _ _ Hx), bind_Ok.
    rewrite (getitem_Some _ _ _ Hry), bind_Ok.
    rewrite (getitem_Some _ _ _ Hrx), bind_Ok.
    exists (<[x:=y]> parent), (if decide (ry = rx) then <[y:=ry + 1]> rank else rank), y, x.
    split; [by destruct (decide (ry = rx))|]. split; [by right|]. split; [done|].
    apply link_inv; auto; lia.
  - rewrite (getitem_Some _ _ _ Hy), bind_Ok.
    rewrite (getitem_Some _ _ _ Hrx), bind_Ok.
    rewrite (getitem_Some _ _ _ Hry), bind_Ok.
    exists (<[y:=x]> parent), (if decide (rx = ry) then <[x:=rx + 1]> rank else rank), x, y.
    split; [by destruct (decide (rx = ry))|]. split; [by left|]. split; [done|].
    apply link_inv; auto; lia.
Qed.
End Link.

Section LinkModels.
Implicit Types (parent : list nat) (rank : list Z) (F : list edge).

Lemma conn_snoc F e x y : conn (F ++ [e]) x y ↔ conn (e :: F) x y.
Proof. split; apply conn_perm; by rewrite Permutation_app_comm. Qed.

Lemma models_same_root n parent F i j r :
  uf_models n parent F → (i < n)%nat → (j < n)%nat →
  rep parent i r → rep parent j r → conn F i j.
Proof. intros Hm Hi Hj H1 H2. apply Hm; [done..|]. by exists r. Qed.

Lemma models_conn_root n parent F i j r :
  uf_models n parent F → (i < n)%nat → (j < n)%nat →
  conn F i j → rep parent i r → rep parent j r.
Proof.
  intros Hm Hi Hj Hc H1. apply Hm in Hc as (r' & H1' & H2'); [|done..].
  by rewrite (rep_det _ _ _ _ H1 H1').
Qed.

(** Linking the roots of the two ends of a new edge represents the forest
    with that edge. *)
Lemma link_models n K parent rank F a b e :
  uf_inv n K parent rank → uf_models n parent F →
  parent !! a = Some a → parent !! b = Some b → a ≠ b →
  (src e < n)%nat → (dst e < n)%nat →
  (rep parent (src e) a ∧ rep parent (dst e) b)
  ∨ (rep parent (src e) b ∧ rep parent (dst e) a) →
  uf_models n (<[b:=a]> parent) (F ++ [e]).
Proof.
  intros Hinv Hm Ha Hb Hab Hu Hv Hends i j Hi Hj.
  set (f := λ r : nat, if decide (r = b) then a else r).
  assert (Hf : ∀ k r, rep parent k r → rep (<[b:=a]> parent) k (f r)).
  { intros k r. by apply link_rep. }
  assert (Hfa : f a = a) by (unfold f; by case_decide).
  assert (Hfb : f b = a) by (unfold f; by case_decide).
  assert (Hfe : ∃ ru rv, rep parent (src e) ru ∧ rep parent (dst e) rv
                         ∧ f ru = a ∧ f rv = a ∧ ru ≠ rv
                         ∧ (ru = a ∨ ru = b) ∧ (rv = a ∨ rv = b)).
  { destruct Hends as [[H1 H2]|[H1 H2]]; [exists a, b|exists b, a]; split_and!; auto. }
  destruct Hfe as (ru & rv & Hru & Hrv & Hfu & Hfv & Huv & Hru' & Hrv').
  rewrite conn_snoc. split.
  - intros Hc. apply conn_cons_inv in Hc as [Hc|[[H1 H2]|[H1 H2]]].
    + apply Hm in Hc as (r & H1 & H2); [|done..]. exists (f r). auto.
    + pose proof (models_conn_root n parent F _ _ ru Hm Hu Hi (conn_sym _ _ _ H1) Hru) as Hi'.
      pose proof (models_conn_root n parent F _ _ rv Hm Hv Hj H2 Hrv) as Hj'.
      apply Hf in Hi', Hj'. rewrite Hfu in Hi'. rewrite Hfv in Hj'. by exists a.
    + pose proof (models_conn_root n parent F _ _ rv Hm Hv Hi (conn_sym _ _ _ H1) Hrv) as Hi'.
      pose proof (models_conn_root n parent F _ _ ru Hm Hu Hj H2 Hru) as Hj'.
      apply Hf in Hi', Hj'. rewrite Hfv in Hi'. rewrite Hfu in Hj'. by exists a.
  - intros (r & H1 & H2).
    destruct (uf_total _ _ _ _ Hinv i Hi) as [ri Hri].
    destruct (uf_total _ _ _ _ Hinv j Hj) as [rj Hrj].
    pose proof (rep_det _ _ _ _ H1 (Hf _ _ Hri)) as Hr1.
    pose proof (rep_det _ _ _ _ H2 (Hf _ _ Hrj)) as Hr2.
    destruct (decide (ri = rj)) as [->|Hne].
    { apply conn_cons_weaken. by eapply models_same_root. }
    assert (Hcase : (ri = ru ∧ rj = rv) ∨ (ri = rv ∧ rj = ru)).
    { assert (Hff : f ri = f rj) by congruence. unfold f in Hff.
      clear -Hff Hne Hru' Hrv' Huv.
      destruct (decide (ri = b)), (decide (rj = b)), Hru', Hrv'; subst; intuition congruence. }
    destruct Hcase as [[-> ->]|[-> ->]].
    + eapply conn_trans;
        [apply conn_cons_weaken, (models_same_root n parent F i (src e) ru); done|].
      eapply conn_trans; [apply conn_cons_new|].
      apply conn_cons_weaken, (models_same_root n parent F (dst e) j rv); done.
    + eapply conn_trans;
        [apply conn_cons_weaken, (models_same_root n parent F i (dst e) rv); done|].
      eapply conn_trans; [apply conn_sym, conn_cons_new|].
      apply conn_cons_weaken, (models_same_root n parent F (src e) j ru); done.
Qed.
End LinkModels.

(** * Kruskal: the loop invariant *)

Section KruskalInvariant.
Context (n : nat) (E : list edge).
Context (Hn : (0 < n)%nat) (HE : edges_in_range n E).

Lemma compressed_root parent parent' k :
  compressed parent parent' → parent !! k = Some k → parent' !! k = Some k.
Proof.
  intros Hc Hk. destruct (compressed_root_of _ _ _ _ _ Hc (root_here _ _ Hk)) as [d Hd].
  by eapply root_of_is_root.
Qed.

Lemma transversal_nonempty F reps : transversal n F reps → (0 < length reps)%nat.
Proof.
  intros (_ & _ & Hex & _). destruct (Hex 0%nat Hn) as (r & Hr & _).
  destruct reps; [by apply elem_of_nil in Hr|simpl; lia].
Qed.

Lemma same_root_rep K parent rank x z :
  uf_inv n K parent rank → K < Z.of_nat n → (z < n)%nat →
  same_root n parent x z = true ↔ rep parent z x.
Proof.
  intros Hinv HK Hz. unfold same_root.
  destruct (find_spec n K parent rank n z Hinv Hz HK) as (p' & r & -> & Hr & _).
  rewrite bool_decide_eq_true. split; [by intros <-|].
  intros Hx. by eapply rep_det.
Qed.

Lemma kruskal_inv_start :
  kruskal_inv n E [] (mkKS (seq 0 n) (replicate n 0) [] 0 0).
Proof.
  assert (Hroot : ∀ i, (i < n)%nat → seq 0 n !! i = Some i).
  { intros i Hi. by rewrite lookup_seq_lt. }
  split; simpl.
  - split.
    + by rewrite length_seq.
    + by rewrite length_replicate.
    + intros i Hi. exists i. apply rep_root. auto.
    + intros i j Hij Hne. apply lookup_seq in Hij as [-> _]. done.
    + intros i a [-> _]%lookup_replicate. lia.
  - intros i j Hi Hj. split.
    + intros ->%conn_nil. exists j. split; apply rep_root; auto.
    + intros (r & H1 & H2).
      rewrite (rep_det _ _ _ _ H1 (rep_root _ _ (Hroot i Hi))) in H2.
      rewrite (rep_det _ _ _ _ H2 (rep_root _ _ (Hroot j Hj))). apply conn_refl.
  - exists (seq 0 n). split; [apply transversal_nil|by rewrite length_seq].
  - apply acyclic_nil.
  - intros e He. by apply elem_of_nil in He.
  - done.
  - intros e He. by apply elem_of_nil in He.
  - intros T. apply promising_start.
Qed.
End KruskalInvariant.

Section KruskalStep.
Context (n : nat) (E : list edge).
Context (Hn : (0 < n)%nat) (HE : edges_in_range n E).

(** One iteration: the edge is taken exactly when its ends are not yet
    connected, and the invariant is kept. *)
Lemma kruskal_body_spec P st e :
  kruskal_inv n E P st →
  (src e < n)%nat → (dst e < n)%nat →
  (∀ c, c ∈ E ∨ flip c ∈ E → c ∈ P ∨ flip c ∈ P ∨ weight e ≤ weight c) →
  ∃ st', kruskal_body n st e = Ok st'
    ∧ kruskal_inv n E (P ++ [e]) st'
    ∧ ks_iterations st' = ks_iterations st + 1
    ∧ ks_edge_comparisons st' = ks_edge_comparisons st + 1.
Proof.
  intros Hinv Hu Hv Hmin. destruct e as [[u v] w].
  change (u < n)%nat in Hu. change (v < n)%nat in Hv.
  destruct st as [parent rank F comps iters].
  destruct Hinv as [Huf Hmod (reps & Hreps & Hcount) Hacyc Hrange Hsub Hdone Hprom].
  simpl in *.
  pose proof (transversal_nonempty n Hn _ _ Hreps) as Hne.
  assert (HK : Z.of_nat (length F) < Z.of_nat n) by lia.
  unfold kruskal_body. simpl.
  destruct (find_spec _ _ _ _ n u Huf Hu HK) as (parent1 & x & -> & Hx & Hx1 & Hxn & Hc1).
  rewrite bind_Ok. cbv beta iota.
  pose proof (compressed_inv _ _ _ _ _ Huf Hc1) as Huf1.
  pose proof (compressed_models _ _ _ _ _ _ Huf Hc1 Hmod) as Hmod1.
  destruct (find_spec _ _ _ _ n v Huf1 Hv HK) as (parent2 & y & -> & Hy & Hy2 & Hyn & Hc2).
  rewrite bind_Ok. cbv beta iota.
  pose proof (compressed_inv _ _ _ _ _ Huf1 Hc2) as Huf2.
  pose proof (compressed_models _ _ _ _ _ _ Huf1 Hc2 Hmod1) as Hmod2.
  pose proof (compressed_root _ _ _ Hc2 Hx1) as Hx2.
  assert (Hxu : rep parent2 u x).
  { apply (compressed_rep _ _ _ _ _ _ _ Huf1 Hc2 Hu).
    by apply (compressed_rep _ _ _ _ _ _ _ Huf Hc1 Hu). }
  assert (Hyv : rep parent2 v y).
  { by apply (compressed_rep _ _ _ _ _ _ _ Huf1 Hc2 Hv). }
  destruct (decide (x ≠ y)) as [Hxy|Hxy].
  - (* the edge is taken *)
    assert (Hnc : ¬ conn F u v).
    { intros Hc. apply Hxy. eapply rep_det; [exact Hxu|].
      exact (models_conn_root n parent2 F v u y Hmod2 Hv Hu (conn_sym _ _ _ Hc) Hyv). }
    destruct (union_roots _ _ _ _ n x y Huf2 Hn Hx2 Hy2 Hxy)
      as (parent3 & rank3 & a & b & Hun & Hab & -> & Huf3).
    rewrite Hun, bind_Ok. cbv beta iota.
    eexists. split; [reflexivity|]. split; [|done]. split; simpl.
    + rewrite length_app. simpl. by replace (Z.of_nat (length F + 1)) with (Z.of_nat (length F) + 1) by lia.
    + apply (link_models _ _ _ _ _ _ _ (u, v, w) Huf2 Hmod2); try done.
      * destruct Hab as [[-> ->]|[-> ->]]; done.
      * destruct Hab as [[-> ->]|[-> ->]]; done.
      * destruct Hab as [[-> ->]|[-> ->]]; congruence.
      * destruct Hab as [[-> ->]|[-> ->]]; [left|right]; done.
    + destruct (transversal_cons _ _ _ (u, v, w) Hreps Hu Hv Hnc) as (reps' & Hreps' & Hlen).
      exists reps'. split.
      * eapply transversal_ext; [|exact Hreps']. intros. symmetry. apply conn_snoc.
      * rewrite length_app. simpl. lia.
    + by apply acyclic_snoc.
    + intros c [Hc| ->%list_elem_of_singleton]%elem_of_app; [by apply Hrange|done].
    + apply sublist_app; [done|]. reflexivity.
    + intros c [Hc| ->%list_elem_of_singleton]%elem_of_app.
      * eapply conn_mono; [|by apply Hdone]. intros c' Hc'. apply elem_of_app. by left.
      * apply conn_edge. apply elem_of_app. right. by apply list_elem_of_singleton.
    + intros T HT1 HT2.
      assert (HS : ∀ z, (z < n)%nat →
                same_root n parent2 x z = true ↔ conn F z u).
      { intros z Hz. rewrite (same_root_rep n _ _ _ x z Huf2 HK Hz). split.
        - intros Hzx. exact (models_same_root n parent2 F z u x Hmod2 Hz Hu Hzx Hxu).
        - intros Hc.
          exact (models_conn_root n parent2 F u z x Hmod2 Hu Hz (conn_sym _ _ _ Hc) Hxu). }
      assert (HSc : ∀ c, (src c < n)%nat → (dst c < n)%nat → conn F (src c) (dst c) →
                same_root n parent2 x (src c) = true ↔ same_root n parent2 x (dst c) = true).
      { intros c Hc1' Hc2' Hc. rewrite !HS by done. split; intros H'.
        - eapply conn_trans; [by apply conn_sym|done].
        - eapply conn_trans; [done|done]. }
      apply (promising_step n E T (λ z, same_root n parent2 x z = true)); try done.
      * by apply Hprom.
      * intros c Hc. destruct (Hrange c Hc). apply HSc; [done..|]. by apply conn_edge.
      * simpl. apply HS; [done|]. apply conn_refl.
      * simpl. rewrite HS by done. intros Hc. by apply Hnc, conn_sym.
      * intros c Hc Hcross.
        assert ((src c < n)%nat ∧ (dst c < n)%nat) as [Hc1' Hc2'].
        { destruct Hc as [Hc|Hc]; destruct (HE _ Hc); done. }
        destruct (Hmin c Hc) as [Hp|[Hp|Hw]]; [| |done].
        -- exfalso. apply Hcross, HSc; [done..|]. by apply Hdone in Hp.
        -- exfalso. apply Hcross, HSc; [done..|]. apply Hdone in Hp. by apply conn_sym.
  - (* the edge closes a cycle *)
    apply dec_stable in Hxy. subst y.
    assert (Hc : conn F u v).
    { exact (models_same_root n parent2 F u v x Hmod2 Hu Hv Hxu Hyv). }
    eexists. split; [reflexivity|]. split; [|done]. split; simpl; try done.
    + by exists reps.
    + by apply sublist_inserts_r.
    + intros c [Hc'| ->%list_elem_of_singleton]%elem_of_app; [by apply Hdone|done].
Qed.
End KruskalStep.

(** * The sort *)

Section Sort.
Implicit Types (l : list edge) (e : edge).

Lemma insert_by_weight_perm e l : insert_by_weight e l ≡ₚ e :: l.
Proof.
  induction l as [|x l IH]; simpl; [done|].
  case_decide; [done|]. rewrite IH. apply perm_swap.
Qed.

Lemma sorted_perm l : sorted l ≡ₚ l.
Proof.
  induction l as [|x l IH]; simpl; [done|].
  by rewrite insert_by_weight_perm, IH.
Qed.

Lemma sorted_length l : length (sorted l) = length l.
Proof. by rewrite sorted_perm. Qed.

Lemma insert_by_weight_sorted e l :
  StronglySorted weight_le l → StronglySorted weight_le (insert_by_weight e l).
Proof.
  induction 1 as [|x l Hl IH Hx]; simpl.
  - repeat constructor.
  - case_decide.
    + constructor; [by constructor|]. constructor; [done|].
      eapply Forall_impl; [exact Hx|]. unfold weight_le. intros; simpl in *; lia.
    + constructor; [done|]. rewrite insert_by_weight_perm.
      constructor; [unfold weight_le; lia|done].
Qed.

Lemma sorted_sorted l : StronglySorted weight_le (sorted l).
Proof.
  induction l as [|x l IH]; simpl; [constructor|]. by apply insert_by_weight_sorted.
Qed.

(** The sort is stable: edges of one weight keep their order. *)
Lemma insert_by_weight_filter w e l :
  StronglySorted weight_le l →
  filter (λ x, weight x = w) (insert_by_weight e l)
  = filter (λ x, weight x = w) (e :: l).
Proof.
  induction 1 as [|x l Hl IH Hx]; simpl; [done|].
  case_decide as Hle; [done|].
  rewrite filter_cons. rewrite IH. rewrite !filter_cons.
  destruct (decide (weight x = w)), (decide (weight e = w)); try done. lia.
Qed.

Lemma sorted_stable w l :
  filter (λ x, weight x = w) (sorted l) = filter (λ x, weight x = w) l.
Proof.
  induction l as [|x l IH]; simpl; [done|].
  rewrite insert_by_weight_filter by apply sorted_sorted.
  by rewrite !filter_cons, IH.
Qed.
(** A list sorted by weight is determined by its edges of each weight, in
    their order: every stable sort by weight returns [sorted l]. *)
Lemma stable_sort_unique l : ∀ k,
  StronglySorted weight_le l → StronglySorted weight_le k →
  (∀ w, filter (λ x, weight x = w) l = filter (λ x, weight x = w) k) →
  l = k.
Proof.
  induction l as [|a l IH]; intros k Hl Hk Heq.
  - destruct k as [|b k]; [done|]. specialize (Heq (weight b)).
    rewrite filter_cons, decide_True in Heq by done. done.
  - destruct k as [|b k].
    { specialize (Heq (weight a)). rewrite filter_cons, decide_True in Heq by done. done. }
    apply StronglySorted_cons in Hl as [Hal Hl], Hk as [Hbk Hk].
    rewrite Forall_forall in Hal, Hbk.
    assert (Hw : weight a = weight b).
    { assert (a ∈ b :: k) as Ha.
      { apply (list_elem_of_filter (λ x, weight x = weight a)).
        rewrite <-Heq, filter_cons, decide_True by done. by left. }
      assert (b ∈ a :: l) as Hb.
      { apply (list_elem_of_filter (λ x, weight x = weight b)).
        rewrite Heq, filter_cons, decide_True by done. by left. }
      apply elem_of_cons in Ha as [->|Ha]; [done|].
      apply elem_of_cons in Hb as [->|Hb]; [done|].
      apply Hbk in Ha. apply Hal in Hb. unfold weight_le in *. lia. }
    assert (a = b) as ->.
    { specialize (Heq (weight a)). rewrite !filter_cons in Heq.
      rewrite decide_True in Heq by done. rewrite decide_True in Heq by done.
      by injection Heq. }
    f_equal. apply IH; [done..|]. intros w. specialize (Heq w).
    rewrite !filter_cons in Heq. destruct (decide (weight b = w)); [by injection Heq|done].
Qed.
End Sort.

(** * Kruskal: the loop *)

Section KruskalLoop.
Context (n : nat) (E : list edge).
Context (Hn : (0 < n)%nat) (HE : edges_in_range n E).

Lemma kruskal_loop_spec es : ∀ P st,
  kruskal_inv n E P st →
  (∀ c, c ∈ E → c ∈ P ++ es) →
  edges_in_range n es →
  StronglySorted weight_le (P ++ es) →
  ∃ st', kruskal_loop n st es = Ok st'
    ∧ kruskal_inv n E (P ++ es) st'
    ∧ ks_iterations st' = ks_iterations st + Z.of_nat (length es)
    ∧ ks_edge_comparisons st' = ks_edge_comparisons st + Z.of_nat (length es).
Proof.
  induction es as [|e es IH]; intros P st Hinv Hall Hrange Hsorted.
  { exists st. simpl. rewrite app_nil_r. split_and!; [done..|lia|lia]. }
  assert (Hmin : ∀ c, c ∈ E ∨ flip c ∈ E → c ∈ P ∨ flip c ∈ P ∨ weight e ≤ weight c).
  { apply StronglySorted_app_1_r, StronglySorted_cons in Hsorted as [Hle _].
    rewrite Forall_forall in Hle.
    assert (Hin : ∀ c, c ∈ E → c ∈ P ∨ weight e ≤ weight c).
    { intros c Hc. apply Hall in Hc.
      apply elem_of_app in Hc as [Hc|Hc]; [by left|right].
      apply elem_of_cons in Hc as [->|Hc]; [lia|]. by apply Hle. }
    intros c [Hc|Hc]; apply Hin in Hc; rewrite ?weight_flip in Hc; tauto. }
  destruct (Hrange e) as [Hu Hv]; [by left|].
  destruct (kruskal_body_spec n E Hn HE P st e Hinv Hu Hv Hmin)
    as (st1 & Hbody & Hinv1 & Hit1 & Hco1).
  destruct (IH (P ++ [e]) st1) as (st' & Hloop & Hinv' & Hit' & Hco').
  - done.
  - intros c Hc. rewrite <-app_assoc. by apply Hall.
  - intros c Hc. apply Hrange. by right.
  - by rewrite <-app_assoc.
  - exists st'. simpl. rewrite Hbody, bind_Ok. rewrite <-app_assoc in Hinv'.
    split_and!; [done..|lia|lia].
Qed.
End KruskalLoop.

(** * Kruskal: what [kruskal_mst] returns *)

Section KruskalResult.
Context (self : MSTAlgorithms) (t0 t1 : Q).
Local Abbreviation n := (num_nodes self).
Local Abbreviation E := (edges_list self).
Context (Hn : (0 < n)%nat) (HE : edges_in_range n E).

Lemma kruskal_mst_spec :
  ∃ F,
    kruskal_mst t0 t1 self
    = Ok (F, None,
          set_metrics self
            (mkMetrics ((t1 - t0) * 1000)%Q (kruskal_comparisons (length E))
                       (Z.of_nat (length E))))
    ∧ acyclic F
    ∧ F `sublist_of` sorted E
    ∧ (∀ x y, conn F x y ↔ conn E x y)
    ∧ (∃ reps, transversal n E reps ∧ (length F + length reps = n)%nat)
    ∧ (∀ T, edges_of E T → spanning n T → promising n E T F).
Proof.
  destruct (kruskal_loop_spec n E Hn HE (sorted E) []
              (mkKS (seq 0 n) (replicate n 0) [] 
                 (0 + Z.of_nat (length (sorted E)) * (bit_length (Z.of_nat (length (sorted E))) - 1)) 0))
    as (st & Hloop & Hinv & Hit & Hco).
  - destruct (kruskal_inv_start n E Hn). by split.
  - intros c Hc. simpl. by rewrite sorted_perm.
  - intros c Hc. apply HE. by rewrite <-(sorted_perm E).
  - apply sorted_sorted.
  - simpl in *. destruct Hinv as [_ _ (reps & Hreps & Hcount) Hacyc _ Hsub Hdone Hprom].
    assert (Hconn : ∀ x y, conn (ks_mst_edges st) x y ↔ conn E x y).
    { intros x y. split.
      - apply conn_mono. intros e He. rewrite <-(sorted_perm E).
        by eapply elem_of_sublist.
      - induction 1 as [x|e He|x y H IH|x y z H1 IH1 H2 IH2].
        + apply conn_refl.
        + apply Hdone. by rewrite sorted_perm.
        + by apply conn_sym.
        + by eapply conn_trans. }
    exists (ks_mst_edges st). split_and!; [|done..| |done].
    + unfold kruskal_mst. simpl. rewrite decide_False by lia.
      rewrite Hloop, bind_Ok. rewrite Hit, Hco.
      rewrite sorted_length. unfold kruskal_comparisons.
      by rewrite !Z.add_0_l.
    + exists reps. split; [|done]. eapply transversal_ext; [|exact Hreps].
      intros x y _ _. apply Hconn.
Qed.
End KruskalResult.

(** * The adjacency lists *)

Section Adjacency.
Implicit Types (adj : list (list (nat * Z))) (es : list edge).

Lemma adj_append_spec adj u x adj' :
  adj_append adj u x = Ok adj' →
  length adj' = length adj
  ∧ ∀ u' v' w', in_adj adj' u' v' w' ↔ in_adj adj u' v' w' ∨ (u' = u ∧ (v', w') = x).
Proof.
  unfold adj_append, getitem. destruct (adj !! u) as [l|] eqn:Hl; [|done].
  rewrite bind_Ok. intros [= <-]. split; [by rewrite length_insert|].
  intros u' v' w'. unfold in_adj. destruct (decide (u' = u)) as [->|Hne].
  - rewrite list_lookup_insert_eq by by eapply lookup_lt_Some. split.
    + intros (l' & [= <-] & [Hin| ->%list_elem_of_singleton]%elem_of_app); [|by right].
      left. by exists l.
    + intros [(l' & Hl' & Hin)|[_ <-]]; simplify_eq; eexists; (split; [done|]);
        apply elem_of_app; [by left|right; by apply list_elem_of_singleton].
  - rewrite list_lookup_insert_ne by done. split; [by left|]. by intros [?|[? _]].
Qed.

Lemma build_adj_spec es : ∀ adj0 adj,
  build_adj adj0 es = Ok adj →
  length adj = length adj0
  ∧ ∀ u v w, in_adj adj u v w ↔
      in_adj adj0 u v w ∨ (u, v, w) ∈ es ∨ (v, u, w) ∈ es.
Proof.
  induction es as [|[[a b] c] es IH]; intros adj0 adj; simpl.
  - intros [= <-]. split; [done|]. intros u v w. rewrite !elem_of_nil. tauto.
  - destruct (adj_append adj0 a (b, c)) as [adj1| |] eqn:H1; [|done..]. rewrite bind_Ok.
    destruct (adj_append adj1 b (a, c)) as [adj2| |] eqn:H2; [|done..]. rewrite bind_Ok.
    intros H3. apply adj_append_spec in H1 as [Hl1 H1], H2 as [Hl2 H2].
    apply IH in H3 as [Hl3 H3]. split; [congruence|].
    intros u v w. rewrite H3, H2, H1, !elem_of_cons.
    split; [intros [[[?|[-> [= -> ->]]]|[-> [= -> ->]]]|[?|?]]|
            intros [?|[[[= -> -> ->]|?]|[[= -> -> ->]|?]]]]; tauto.
Qed.

Lemma in_adj_replicate n u v w : ¬ in_adj (replicate n []) u v w.
Proof.
  intros (l & Hl & Hin). apply lookup_replicate in Hl as [-> _].
  by apply elem_of_nil in Hin.
Qed.

(** The adjacency lists of a well-formed instance: one list per node,
    holding the edges at that node from either end. *)
Lemma well_formed_adj self :
  well_formed self →
  length (adj_list self) = num_nodes self
  ∧ ∀ u v w, in_adj (adj_list self) u v w ↔
      (u, v, w) ∈ edges_list self ∨ (v, u, w) ∈ edges_list self.
Proof.
  intros [_ Hb]. apply build_adj_spec in Hb as [Hlen Hb].
  rewrite length_replicate in Hlen. split; [done|].
  intros u v w. rewrite Hb. pose proof (in_adj_replicate (num_nodes self) u v w). tauto.
Qed.
End Adjacency.

(** * The priority queue *)

Section Heap.
Implicit Types (x y z : heap_entry) (h : list heap_entry).

Lemma entry_leb_total x y : entry_leb x y = false → entry_leb y x = true.
Proof.
  destruct x as [[w1 v1] p1], y as [[w2 v2] p2]. unfold entry_leb.
  repeat case_decide; try done; try lia.
  destruct p1 as [a|], p2 as [b|]; simpl; try done.
  rewrite Nat.leb_gt, Nat.leb_le. lia.
Qed.

Lemma entry_leb_trans x y z :
  entry_leb x y = true → entry_leb y z = true → entry_leb x z = true.
Proof.
  destruct x as [[w1 v1] p1], y as [[w2 v2] p2], z as [[w3 v3] p3]. unfold entry_leb.
  repeat case_decide; try done; try lia.
  destruct p1 as [a|], p2 as [b|], p3 as [c|]; simpl; try done.
  rewrite !Nat.leb_le. lia.
Qed.

Lemma entry_leb_refl x : entry_leb x x = true.
Proof.
  destruct (entry_leb x x) eqn:H; [done|]. pose proof (entry_leb_total _ _ H). congruence.
Qed.

Lemma entry_leb_weight x y : entry_leb x y = true → x.1.1 ≤ y.1.1.
Proof.
  destruct x as [[w1 v1] p1], y as [[w2 v2] p2]. unfold entry_leb. simpl.
  repeat case_decide; try done; lia.
Qed.

Lemma heappop_nonempty a h : ∃ x h', heappop (a :: h) = Some (x, h').
Proof.
  simpl. destruct (heappop h) as [[m rest]|]; [destruct (entry_leb a m)|]; eauto.
Qed.

(** [heappop] removes an entry that is least among the entries. *)
Lemma heappop_spec h x h' :
  heappop h = Some (x, h') →
  h ≡ₚ x :: h' ∧ ∀ y, y ∈ h → entry_leb x y = true.
Proof.
  revert x h'. induction h as [|a h IH]; intros x h'; simpl; [done|].
  destruct (heappop h) as [[m rest]|] eqn:Hpop.
  - destruct (IH m rest eq_refl) as [HP Hmin].
    destruct (entry_leb a m) eqn:Ham; intros [= <- <-].
    + split; [done|]. intros y [->|Hy]%elem_of_cons; [apply entry_leb_refl|].
      eapply entry_leb_trans; [exact Ham|by apply Hmin].
    + split; [rewrite HP; apply perm_swap|].
      intros y [->|Hy]%elem_of_cons; [by apply entry_leb_total|by apply Hmin].
  - intros [= <- <-]. destruct h as [|b h].
    + split; [done|]. intros y ->%list_elem_of_singleton. apply entry_leb_refl.
    + destruct (heappop_nonempty b h) as (? & ? & ?). congruence.
Qed.
End Heap.

(** * Prim: the loop invariant *)

Section PrimRelax.
Context (adj : list (list (nat * Z))).
Implicit Types (st : prim_state) (seen : nat → nat → Z → Prop).

Lemma relax_visited u st vw : ps_visited (relax u st vw) = ps_visited st.
Proof.
  destruct vw as [v w]. unfold relax, push_candidate.
  repeat (case_decide || case_match); done.
Qed.

Lemma relax_mst_edges u st vw : ps_mst_edges (relax u st vw) = ps_mst_edges st.
Proof.
  destruct vw as [v w]. unfold relax, push_candidate.
  repeat (case_decide || case_match); done.
Qed.

Lemma relax_iterations u st vw : ps_iterations (relax u st vw) = ps_iterations st.
Proof.
  destruct vw as [v w]. unfold relax, push_candidate.
  repeat (case_decide || case_match); done.
Qed.

Lemma relax_heap_length u st vw :
  (length (ps_heap (relax u st vw)) ≤ S (length (ps_heap st)))%nat.
Proof.
  destruct vw as [v w]. unfold relax, push_candidate, heappush.
  repeat (case_decide || case_match); simpl; rewrite ?length_app; simpl; lia.
Qed.

Lemma foldl_relax_visited u nbrs : ∀ st,
  ps_visited (foldl (relax u) st nbrs) = ps_visited st.
Proof.
  induction nbrs as [|vw nbrs IH]; intros st; simpl; [done|].
  by rewrite IH, relax_visited.
Qed.

Lemma foldl_relax_mst_edges u nbrs : ∀ st,
  ps_mst_edges (foldl (relax u) st nbrs) = ps_mst_edges st.
Proof.
  induction nbrs as [|vw nbrs IH]; intros st; simpl; [done|].
  by rewrite IH, relax_mst_edges.
Qed.

Lemma foldl_relax_iterations u nbrs : ∀ st,
  ps_iterations (foldl (relax u) st nbrs) = ps_iterations st.
Proof.
  induction nbrs as [|vw nbrs IH]; intros st; simpl; [done|].
  by rewrite IH, relax_iterations.
Qed.

Lemma foldl_relax_heap_length u nbrs : ∀ st,
  (length (ps_heap (foldl (relax u) st nbrs)) ≤ length (ps_heap st) + length nbrs)%nat.
Proof.
  induction nbrs as [|vw nbrs IH]; intros st; simpl; [lia|].
  specialize (IH (relax u st vw)). pose proof (relax_heap_length u st vw). lia.
Qed.

Lemma push_candidate_inv seen u st v w :
  heap_inv adj seen st →
  u ∈ ps_visited st → in_adj adj u v w → v ∉ ps_visited st →
  (∀ m, ps_in_heap st !! v = Some m → w < m) →
  heap_inv adj (λ x y z, seen x y z ∨ (x, y, z) = (u, v, w)) (push_candidate u st v w).
Proof.
  intros [He Hm Hf] Hu Hadj Hv Hlt. split; simpl.
  - unfold heappush. intros w' v' p [Hin|Hin%list_elem_of_singleton]%elem_of_app.
    + by apply He.
    + simplify_eq. by exists u.
  - intros v' m. destruct (decide (v' = v)) as [->|Hne].
    + rewrite lookup_insert_eq. intros [= <-]. split; [done|]. exists (Some u).
      unfold heappush. apply elem_of_app. right. by apply list_elem_of_singleton.
    + rewrite lookup_insert_ne by done. intros Hv'.
      destruct (Hm _ _ Hv') as [? [p Hp]]. split; [done|]. exists p.
      unfold heappush. apply elem_of_app. by left.
  - intros x y z Hseen Hy. destruct (decide (y = v)) as [->|Hne].
    + rewrite lookup_insert_eq. exists w. split; [done|].
      destruct Hseen as [Hseen|[= _ ->]]; [|lia].
      destruct (Hf _ _ _ Hseen Hy) as (m & Hm' & Hle). specialize (Hlt _ Hm'). lia.
    + rewrite lookup_insert_ne by done.
      destruct Hseen as [Hseen|[= _ -> _]]; [|done]. by eapply Hf.
Qed.

Lemma relax_inv seen u st v w :
  heap_inv adj seen st →
  u ∈ ps_visited st → in_adj adj u v w →
  heap_inv adj (λ x y z, seen x y z ∨ (x, y, z) = (u, v, w)) (relax u st (v, w)).
Proof.
  intros Hinv Hu Hadj. unfold relax.
  destruct (decide (v ∉ ps_visited st)) as [Hv|Hv].
  - destruct (ps_in_heap st !! v) as [m|] eqn:Hm.
    + destruct (decide (w < m)) as [Hlt|Hge].
      * apply push_candidate_inv; try done. intros m' ?. by simplify_eq.
      * destruct Hinv as [He Hm' Hf]. split; [done..|].
        intros x y z [Hseen|[= -> -> ->]] Hy; [by eapply Hf|].
        exists m. split; [done|lia].
    + apply push_candidate_inv; try done. intros m' ?. by simplify_eq.
  - destruct Hinv as [He Hm' Hf]. split; [done..|].
    intros x y z [Hseen|[= -> -> ->]] Hy; [by eapply Hf|done].
Qed.

Lemma foldl_relax_inv u nbrs : ∀ seen st,
  heap_inv adj seen st →
  u ∈ ps_visited st → (∀ v w, (v, w) ∈ nbrs → in_adj adj u v w) →
  heap_inv adj (λ x y z, seen x y z ∨ (x = u ∧ (y, z) ∈ nbrs)) (foldl (relax u) st nbrs).
Proof.
  induction nbrs as [|[v w] nbrs IH]; intros seen st Hinv Hu Hadj; simpl.
  - destruct Hinv as [He Hm Hf]. split; [done..|].
    intros x y z [Hseen|[_ Hin]] Hy; [by eapply Hf|by apply elem_of_nil in Hin].
  - assert (Hstep := relax_inv seen u st v w Hinv Hu (Hadj v w ltac:(by left))).
    apply IH in Hstep.
    + destruct Hstep as [He Hm Hf]. split; [done..|].
      intros x y z Hseen Hy. apply (Hf x y z); [|done].
      destruct Hseen as [Hseen|[-> [[= -> ->]|Hin]%elem_of_cons]]; auto.
    + by rewrite relax_visited.
    + intros v' w' Hin. apply Hadj. by right.
Qed.
End PrimRelax.

Section Pending.
Implicit Types (adj : list (list (nat * Z))) (V : gset nat).

Lemma pending_from_other adj : ∀ i u V,
  (u < i)%nat → pending_from i adj ({[u]} ∪ V) = pending_from i adj V.
Proof.
  induction adj as [|l adj IH]; intros i u V Hu; simpl; [done|].
  rewrite IH by lia. f_equal.
  destruct (decide (i ∈ V)) as [Hi|Hi], (decide (i ∈ {[u]} ∪ V)) as [Hi'|Hi'];
    try done; exfalso; revert Hi Hi'; rewrite elem_of_union, elem_of_singleton; intros; intuition lia.
Qed.

Lemma pending_from_visit adj : ∀ i u l V,
  adj !! u = Some l → (i + u)%nat ∉ V →
  (pending_from i adj ({[(i + u)%nat]} ∪ V) + length l = pending_from i adj V)%nat.
Proof.
  induction adj as [|l' adj IH]; intros i u l V Hl Hu; [done|].
  destruct u as [|u]; simpl in *.
  - simplify_eq. rewrite Nat.add_0_r in *.
    rewrite pending_from_other by lia.
    rewrite decide_True by set_solver. rewrite decide_False by done. lia.
  - replace (i + S u)%nat with (S i + u)%nat in * by lia.
    rewrite <-(IH (S i) u l V Hl Hu).
    destruct (decide (i ∈ V)) as [Hi|Hi], (decide (i ∈ {[(S i + u)%nat]} ∪ V)) as [Hi'|Hi'];
      try lia; exfalso; revert Hi Hi'; rewrite elem_of_union, elem_of_singleton; intros; intuition lia.
Qed.

Lemma pending_from_empty adj i : pending_from i adj ∅ = sum_list (length <$> adj).
Proof.
  revert i. induction adj as [|l adj IH]; intros i; simpl; [done|].
  rewrite IH. by rewrite decide_False by set_solver.
Qed.
End Pending.

Section PrimStep.
Context (n : nat) (E : list edge) (adj : list (list (nat * Z))).
Context (Hn : (0 < n)%nat) (HE : edges_in_range n E).
Context (Hlen : length adj = n).
Context (Hadj : ∀ u v w, in_adj adj u v w ↔ (u, v, w) ∈ E ∨ (v, u, w) ∈ E).
Implicit Types (st : prim_state).

Lemma in_adj_range u v w : in_adj adj u v w → (u < n)%nat ∧ (v < n)%nat.
Proof. intros [H|H]%Hadj; destruct (HE _ H); done. Qed.

Lemma in_adj_sym u v w : in_adj adj u v w → in_adj adj v u w.
Proof. rewrite !Hadj. tauto. Qed.

Lemma in_adj_edge c :
  c ∈ E ∨ flip c ∈ E → in_adj adj (src c) (dst c) (weight c).
Proof. destruct c as [[a b] w]. intros H. by apply Hadj. Qed.

Lemma edge_in_adj u v w :
  in_adj adj u v w → (u, v, w) ∈ E ∨ flip (u, v, w) ∈ E.
Proof. intros H. by apply Hadj. Qed.

Lemma tree_inv_proper st st' :
  ps_visited st' = ps_visited st → ps_mst_edges st' = ps_mst_edges st →
  tree_inv n E st → tree_inv n E st'.
Proof. intros HV HF [? ? ? ? ? ? ? ? ? ?]. split; rewrite ?HV, ?HF; done. Qed.

Lemma heap_inv_weaken (seen seen' : nat → nat → Z → Prop) st :
  (∀ x y z, seen' x y z → seen x y z) → heap_inv adj seen st → heap_inv adj seen' st.
Proof. intros Hsub [He Hm Hf]. split; [done..|]. intros x y z H. apply (Hf x y z). auto. Qed.

(** The loop over the neighbours of the node [u] just visited. *)
Lemma relax_phase u nbrs st :
  tree_inv n E st → u ∈ ps_visited st → adj !! u = Some nbrs →
  heap_inv adj (λ x y z, x ∈ ps_visited st ∧ x ≠ u ∧ in_adj adj x y z) st →
  prim_inv n E adj (foldl (relax u) st nbrs).
Proof.
  intros Htree Hu Hnbrs Hheap. split.
  - eapply tree_inv_proper; [apply foldl_relax_visited|apply foldl_relax_mst_edges|done].
  - eapply heap_inv_weaken; [|apply foldl_relax_inv; [exact Hheap|done|]].
    + intros x y z [Hx Hxy]. rewrite foldl_relax_visited in Hx.
      destruct (decide (x = u)) as [->|Hne]; [right|left; done].
      split; [done|]. destruct Hxy as (l & Hl & Hin). by simplify_eq.
    + intros v w Hin. by exists nbrs.
Qed.

(** The tree when the entry [(w, u, p)] of an unvisited node is popped. *)
Lemma visit_tree st w u p h' comps iters :
  prim_inv n E adj st →
  heappop (ps_heap st) = Some ((w, u, Some p), h') → u ∉ ps_visited st →
  tree_inv n E
    (mkPS h' (delete u (ps_in_heap st)) ({[u]} ∪ ps_visited st)
          (ps_mst_edges st ++ [(p, u, w)]) comps iters).
Proof.
  intros [[Hroot Hrange Hedges Hconn Hacyc Hsize Hchild Hnodup Horder Hprom]
          [Hent Hmap Hfront]] Hpop Hu.
  destruct (heappop_spec _ _ _ Hpop) as [Hperm Hmin].
  assert (Hin : (w, u, Some p) ∈ ps_heap st) by (rewrite Hperm; by left).
  destruct (Hent _ _ _ Hin) as (p' & [= <-] & Hp & Hpu).
  destruct (in_adj_range _ _ _ Hpu) as [Hpn Hun].
  set (e := (p, u, w) : edge). set (F := ps_mst_edges st) in *.
  set (V := ps_visited st) in *.
  assert (Hclosed : ∀ c, c ∈ F → src c ∈ V ↔ dst c ∈ V).
  { intros c Hc. destruct (Hedges c Hc) as (? & ? & _). tauto. }
  assert (Hnc : ¬ conn F (src e) (dst e)).
  { intros Hc. apply Hu. by apply (conn_closed (λ z, z ∈ V) F _ _ Hclosed Hc). }
  split; simpl.
  - apply elem_of_union. by right.
  - intros x [->%elem_of_singleton|Hx]%elem_of_union; auto.
  - intros c [Hc| ->%list_elem_of_singleton]%elem_of_app.
    + destruct (Hedges c Hc) as (? & ? & ?).
      split_and!; [apply elem_of_union; by right..|done].
    + split_and!; [apply elem_of_union; by right| |by apply edge_in_adj].
      apply elem_of_union. left. by apply elem_of_singleton.
  - intros x [->%elem_of_singleton|Hx]%elem_of_union.
    + apply conn_snoc. eapply conn_trans; [apply conn_cons_weaken, Hconn, Hp|].
      apply (conn_cons_new e).
    + apply conn_snoc, conn_cons_weaken. auto.
  - by apply acyclic_snoc.
  - rewrite size_union by by apply disjoint_singleton_l.
    rewrite size_singleton, length_app. simpl.
    fold V. lia.
  - intros x. rewrite fmap_app, elem_of_app, elem_of_union, elem_of_singleton. simpl.
    rewrite list_elem_of_singleton. fold V. rewrite (Hchild x). fold F. tauto.
  - rewrite fmap_app. simpl. apply NoDup_app. split_and!; [done| |apply NoDup_singleton].
    intros x Hx ->%list_elem_of_singleton. apply Hu, Hchild. by right.
  - intros i c Hi. destruct (decide (i < length F)%nat) as [Hlt|Hge].
    + rewrite lookup_app_l in Hi by done.
      destruct (Horder i c Hi) as [?|(j & c' & Hj & Hc' & Heq)]; [by left|right].
      exists j, c'. split_and!; [done| |done]. by apply lookup_app_l_Some.
    + assert (i = length F) as ->.
      { apply lookup_lt_Some in Hi. rewrite length_app in Hi. simpl in Hi. lia. }
      rewrite list_lookup_middle in Hi by done. injection Hi as <-.
      apply Hchild in Hp as [->|Hp]; [by left|right].
      apply list_elem_of_fmap in Hp as (c' & -> & Hc').
      apply list_elem_of_lookup in Hc' as [j Hj].
      exists j, c'. split_and!; [by eapply lookup_lt_Some| |done].
      by apply lookup_app_l_Some.
  - intros T HT1 HT2.
    apply (promising_step n E T (λ z, z ∈ V)); try done.
    + by apply Hprom.
    + intros c Hc Hcross.
      assert (Hcadj := in_adj_edge c Hc).
      assert (Hgo : ∀ x y, x ∈ V → y ∉ V → in_adj adj x y (weight c) → w ≤ weight c).
      { intros x y Hx Hy Hxy.
        destruct (Hfront x y (weight c) (conj Hx Hxy) Hy) as (m & Hm & Hle).
        destruct (Hmap _ _ Hm) as [_ [q Hq]].
        apply Hmin, entry_leb_weight in Hq. simpl in Hq. lia. }
      destruct (decide (src c ∈ V)) as [Hs|Hs], (decide (dst c ∈ V)) as [Hd|Hd].
      * tauto.
      * by apply (Hgo (src c) (dst c)).
      * apply (Hgo (dst c) (src c)); [done..|]. by apply in_adj_sym.
      * tauto.
Qed.
End PrimStep.

Section PrimBody.
Context (n : nat) (E : list edge) (adj : list (list (nat * Z))).
Context (Hn : (0 < n)%nat) (HE : edges_in_range n E).
Context (Hlen : length adj = n).
Context (Hadj : ∀ u v w, in_adj adj u v w ↔ (u, v, w) ∈ E ∨ (v, u, w) ∈ E).
Implicit Types (st : prim_state).

(** A node that is popped unvisited is a key of [in_heap]. *)
Lemma popped_in_heap st w u p h' :
  prim_seed st ∨ prim_inv n E adj st →
  heappop (ps_heap st) = Some ((w, u, p), h') → u ∉ ps_visited st →
  is_Some (ps_in_heap st !! u).
Proof.
  intros [(Hh & Hm & _)|[_ [Hent Hmap Hfront]]] Hpop Hu.
  - rewrite Hh in Hpop. simpl in Hpop. injection Hpop as <- <- <- <-.
    rewrite Hm, lookup_singleton_eq. by eexists.
  - destruct (heappop_spec _ _ _ Hpop) as [Hperm _].
    destruct (Hent w u p) as (q & -> & Hq & Hqu); [rewrite Hperm; by left|].
    destruct (Hfront q u w (conj Hq Hqu) Hu) as (m & Hm & _). by eexists.
Qed.

Lemma prim_body_main st :
  prim_inv n E adj st → ps_heap st ≠ [] →
  ∃ st', prim_body adj st = Ok st'
    ∧ prim_inv n E adj st'
    ∧ (prim_measure adj st' < prim_measure adj st)%nat.
Proof.
  intros Hinv Hne. pose proof Hinv as [Htree [Hent Hmap Hfront]].
  destruct (ps_heap st) as [|a h] eqn:Hheap; [done|]. clear Hne.
  destruct (heappop_nonempty a h) as ([[w u] p] & h' & Hpop).
  rewrite <-Hheap in *. clear a h Hheap.
  destruct (heappop_spec _ _ _ Hpop) as [Hperm Hmin].
  assert (Hrest : ∀ x, x ∈ h' → x ∈ ps_heap st) by (intros x Hx; rewrite Hperm; by right).
  assert (Hkeep : ∀ m v q, (m, v, q) ∈ ps_heap st → v ≠ u → (m, v, q) ∈ h').
  { intros m v q Hq Hvu. rewrite Hperm in Hq.
    apply elem_of_cons in Hq as [[= -> -> ->]|Hq]; done. }
  assert (Hlenh : length (ps_heap st) = S (length h')) by by rewrite Hperm.
  destruct (Hent w u p) as (q & -> & Hq & Hqu); [rewrite Hperm; by left|].
  unfold prim_body. rewrite Hpop.
  destruct (decide (u ∈ ps_visited st)) as [Hu|Hu].
  - (* a stale entry *)
    eexists. split; [done|]. split; [split|].
    + by apply (tree_inv_proper n E st).
    + split; simpl.
      * intros w' v' p' Hin. by apply Hent, Hrest.
      * intros v m Hv. destruct (Hmap v m Hv) as [Hv' [p' Hp']]. split; [done|].
        exists p'. apply Hkeep; [done|]. by intros ->.
      * done.
    + unfold prim_measure. simpl. lia.
  - (* a new node *)
    destruct (popped_in_heap st w u (Some q) h' (or_intror Hinv) Hpop Hu) as [m Hm].
    rewrite decide_False by (rewrite Hm; done).
    destruct (in_adj_range n E adj HE Hadj _ _ _ Hqu) as [_ Hun].
    destruct (lookup_lt_is_Some_2 adj u) as [nbrs Hnbrs]; [lia|].
    rewrite (getitem_Some _ _ _ Hnbrs), bind_Ok.
    eexists. split; [done|].
    pose proof (visit_tree n E adj Hn HE Hlen Hadj st w u q h'
                  (ps_edge_comparisons st + 1) (ps_iterations st + 1) Hinv Hpop Hu) as Htree'.
    split.
    + apply (relax_phase n E adj Hn HE Hlen); [done|simpl; apply elem_of_union; left; by apply elem_of_singleton|done|].
      split; simpl.
      * intros w' v' p' Hin. destruct (Hent _ _ _ (Hrest _ Hin)) as (q' & -> & Hq' & Hadj').
        exists q'. split_and!; [done|apply elem_of_union; by right|done].
      * intros v m'. rewrite lookup_delete_Some. intros [Hvu Hv].
        destruct (Hmap v m' Hv) as [Hv' [p' Hp']]. split.
        -- rewrite elem_of_union, elem_of_singleton. intros [?|?]; done.
        -- exists p'. by apply Hkeep.
      * intros x y z (Hx & Hxu & Hxy) Hy.
        rewrite elem_of_union, elem_of_singleton in Hx, Hy.
        destruct (Hfront x y z) as (m' & Hm' & Hle); [split; [tauto|done]|tauto|].
        exists m'. split; [|done]. rewrite lookup_delete_ne; [done|]. intros ->. tauto.
    + unfold prim_measure. rewrite foldl_relax_visited. simpl.
      pose proof (foldl_relax_heap_length u nbrs
        (mkPS h' (delete u (ps_in_heap st)) ({[u]} ∪ ps_visited st)
              (ps_mst_edges st ++ [(q, u, w)]) (ps_edge_comparisons st + 1)
              (ps_iterations st + 1))) as Hfl. simpl in Hfl.
      pose proof (pending_from_visit adj 0 u nbrs (ps_visited st) Hnbrs Hu) as Hp.
      simpl in Hp. lia.
Qed.

Lemma prim_body_seed st :
  prim_seed st →
  ∃ st', prim_body adj st = Ok st'
    ∧ prim_inv n E adj st'
    ∧ (prim_measure adj st' < prim_measure adj st)%nat.
Proof.
  intros (Hh & Hm & HV & HF). unfold prim_body. rewrite Hh. simpl.
  rewrite decide_False by (rewrite HV; apply not_elem_of_empty).
  rewrite decide_False by (rewrite Hm, lookup_singleton_eq; done).
  destruct (lookup_lt_is_Some_2 adj 0%nat) as [nbrs Hnbrs]; [lia|].
  rewrite (getitem_Some _ _ _ Hnbrs), bind_Ok.
  eexists. split; [done|]. split.
  - apply (relax_phase n E adj Hn HE Hlen); [|simpl; apply elem_of_union; left; by apply elem_of_singleton|done|].
    + rewrite HV, HF. split; simpl.
      * apply elem_of_union. left. by apply elem_of_singleton.
      * intros x. rewrite elem_of_union, elem_of_singleton, elem_of_empty. intros [->|[]]. done.
      * intros e He. by apply elem_of_nil in He.
      * intros x. rewrite elem_of_union, elem_of_singleton, elem_of_empty. intros [->|[]].
        apply conn_refl.
      * apply acyclic_nil.
      * reflexivity.
      * intros x. rewrite elem_of_union, elem_of_singleton, elem_of_empty, elem_of_nil. tauto.
      * apply NoDup_nil_2.
      * intros i e Hi. done.
      * intros T. apply promising_start.
    + rewrite HV, Hm. split; simpl.
      * intros w v p Hin. by apply elem_of_nil in Hin.
      * intros v m. rewrite delete_singleton_eq, lookup_empty. done.
      * intros x y z (Hx & Hx0 & _).
        rewrite elem_of_union, elem_of_singleton, elem_of_empty in Hx. tauto.
  - unfold prim_measure. rewrite foldl_relax_visited. simpl. rewrite Hh, HV. simpl.
    pose proof (foldl_relax_heap_length 0 nbrs
        (mkPS [] (delete 0%nat (ps_in_heap st)) ({[0%nat]} ∪ ∅)
              (ps_mst_edges st) (ps_edge_comparisons st + 1)
              (ps_iterations st + 1))) as Hfl. simpl in Hfl.
    pose proof (pending_from_visit adj 0 0 nbrs ∅ Hnbrs) as Hp.
    simpl in Hp. specialize (Hp (not_elem_of_empty _)). lia.
Qed.
End PrimBody.

Section PrimLoop.
Context (n : nat) (E : list edge) (adj : list (list (nat * Z))).
Context (Hn : (0 < n)%nat) (HE : edges_in_range n E).
Context (Hlen : length adj = n).
Context (Hadj : ∀ u v w, in_adj adj u v w ↔ (u, v, w) ∈ E ∨ (v, u, w) ∈ E).
Implicit Types (st : prim_state).

(** The loop ends within the fuel, with an empty heap and the invariant. *)
Lemma prim_loop_spec fuel : ∀ st,
  prim_seed st ∨ prim_inv n E adj st →
  (prim_measure adj st ≤ fuel)%nat →
  ∃ st', prim_loop fuel adj st = Ok st' ∧ ps_heap st' = [] ∧ prim_inv n E adj st'.
Proof.
  induction fuel as [|fuel IH]; intros st Hst Hfuel.
  - unfold prim_measure in Hfuel.
    destruct (ps_heap st) as [|a h] eqn:Hh; [|simpl in Hfuel; lia].
    exists st. simpl. rewrite Hh. split_and!; [done..|].
    destruct Hst as [(Hseed & _)|?]; [congruence|done].
  - destruct (ps_heap st) as [|a h] eqn:Hh.
    + exists st. simpl. rewrite Hh. split_and!; [done..|].
      destruct Hst as [(Hseed & _)|?]; [congruence|done].
    + assert (∃ st', prim_body adj st = Ok st' ∧ prim_inv n E adj st'
                ∧ (prim_measure adj st' < prim_measure adj st)%nat)
        as (st1 & Hbody & Hinv1 & Hlt).
      { destruct Hst as [Hseed|Hinv].
        - by apply (prim_body_seed n E adj Hn HE Hlen).
        - apply (prim_body_main n E adj Hn HE Hlen Hadj); [done|]. by rewrite Hh. }
      destruct (IH st1) as (st' & Hloop & Hend); [by right|lia|].
      exists st'. simpl. rewrite Hh, Hbody, bind_Ok. done.
Qed.

(** When the heap is empty, the visited nodes are the component of node 0. *)
Lemma prim_final_visited st x :
  prim_inv n E adj st → ps_heap st = [] →
  x ∈ ps_visited st ↔ (x < n)%nat ∧ conn E 0%nat x.
Proof.
  intros [Htree [Hent Hmap Hfront]] Hh.
  assert (Hclosed : ∀ u v w, u ∈ ps_visited st → in_adj adj u v w → v ∈ ps_visited st).
  { intros u v w Hu Huv. destruct (decide (v ∈ ps_visited st)) as [|Hv]; [done|].
    destruct (Hfront u v w (conj Hu Huv) Hv) as (m & Hm & _).
    destruct (Hmap _ _ Hm) as [_ [p Hp]]. rewrite Hh in Hp. by apply elem_of_nil in Hp. }
  split.
  - intros Hx. split; [by apply (ti_range _ _ _ Htree)|].
    pose proof (ti_conn _ _ _ Htree x Hx) as Hc.
    clear -Hc Htree. induction Hc as [x|e He|x y H IH|x y z H1 IH1 H2 IH2].
    + apply conn_refl.
    + destruct (ti_edges _ _ _ Htree e He) as (_ & _ & [H|H]);
        [by apply conn_edge|by apply conn_flip].
    + by apply conn_sym.
    + by eapply conn_trans.
  - intros [_ Hc].
    apply (conn_closed (λ z, z ∈ ps_visited st) E _ _) in Hc.
    + apply Hc, (ti_root _ _ _ Htree).
    + intros [[a b] w] He. change (a ∈ ps_visited st ↔ b ∈ ps_visited st).
      split; intros H; eapply Hclosed; try exact H; apply Hadj; eauto.
Qed.
End PrimLoop.

(** * Prim: what [prim_mst] returns *)

Section PrimResult.
Context (self : MSTAlgorithms) (t0 t1 : Q).
Local Abbreviation n := (num_nodes self).
Local Abbreviation E := (edges_list self).
Context (Hn : (0 < n)%nat) (Hwf : well_formed self).

Lemma prim_mst_spec :
  ∃ st,
    prim_mst t0 t1 self
    = Ok (ps_mst_edges st,
          (if decide (size (ps_visited st) < n)%nat
           then Some Graph_is_unconnected else None),
          set_metrics self
            (mkMetrics ((t1 - t0) * 1000)%Q (ps_edge_comparisons st) (ps_iterations st)))
    ∧ prim_loop (prim_fuel self) (adj_list self) (prim_init self) = Ok st
    ∧ tree_inv n E st
    ∧ (∀ x, x ∈ ps_visited st ↔ (x < n)%nat ∧ conn E 0%nat x).
Proof.
  destruct (well_formed_adj self Hwf) as [Hlen Hadj]. destruct Hwf as [HE _].
  destruct (prim_loop_spec n E (adj_list self) Hn HE Hlen Hadj
              (prim_fuel self) (prim_init self)) as (st & Hloop & Hh & Hinv).
  - left. by split_and!.
  - unfold prim_measure, prim_init, prim_fuel. simpl. rewrite pending_from_empty. lia.
  - exists st. split_and!; [|done|apply Hinv|].
    + unfold prim_mst. cbv zeta.
      change (num_nodes (reset_metrics self)) with n.
      change (prim_fuel (reset_metrics self)) with (prim_fuel self).
      change (adj_list (reset_metrics self)) with (adj_list self).
      rewrite decide_False by lia. rewrite Hloop, bind_Ok.
      by destruct (decide (size (ps_visited st) < n)%nat).
    + intros x. by apply (prim_final_visited n E (adj_list self) Hadj).
Qed.
End PrimResult.

(** * The constructor establishes well-formedness *)

Section Constructor.
Lemma node_map_range (g : Graph) k i :
  node_map g !! k = Some i → (i < length (nodes g))%nat.
Proof.
  unfold node_map.
  assert (Hgen : ∀ (ps : list (nat * nat)) (m0 : gmap nat nat) N,
    (∀ k i, m0 !! k = Some i → (i < N)%nat) →
    (∀ p, p ∈ ps → (p.1 < N)%nat) →
    ∀ k i, foldl (λ m p, <[p.2 := p.1]> m) m0 ps !! k = Some i → (i < N)%nat).
  { induction ps as [|p ps IH]; intros m0 N Hm0 Hps k' i'; simpl; [apply Hm0|].
    apply IH.
    - intros k1 i1. destruct (decide (p.2 = k1)) as [->|Hne].
      + rewrite lookup_insert_eq. intros [= <-]. apply Hps. by left.
      + rewrite lookup_insert_ne by done. apply Hm0.
    - intros q Hq. apply Hps. by right. }
  apply Hgen.
  - intros k' i'. by rewrite lookup_empty.
  - intros p Hp. apply list_elem_of_lookup in Hp as [j Hj].
    rewrite list_lookup_imap in Hj.
    destruct (nodes g !! j) as [x|] eqn:Hx; simplify_eq/=.
    by eapply lookup_lt_Some.
Qed.

Lemma remap_edges_range m N l es :
  (∀ k i, m !! k = Some i → (i < N)%nat) →
  remap_edges m l = Ok es → edges_in_range N es.
Proof.
  intros Hm. revert es. induction l as [|[[u v] w] l IH]; intros es; simpl.
  - intros [= <-] e He. by apply elem_of_nil in He.
  - unfold map_getitem.
    destruct (m !! u) as [u'|] eqn:Hu; [|done]. rewrite bind_Ok.
    destruct (m !! v) as [v'|] eqn:Hv; [|done]. rewrite bind_Ok.
    destruct (remap_edges m l) as [r| |]; [|done..]. rewrite bind_Ok.
    intros [= <-] e [->|He]%elem_of_cons.
    + split; [by apply (Hm u)|by apply (Hm v)].
    + by apply (IH r).
Qed.

Lemma init_well_formed g self : init g = Ok self → well_formed self.
Proof.
  unfold init.
  destruct (remap_edges (node_map g) (edges g)) as [es| |] eqn:Hes; [|done..].
  rewrite bind_Ok.
  destruct (build_adj (replicate (length (nodes g)) []) es) as [adj| |] eqn:Hadj; [|done..].
  rewrite bind_Ok. intros [= <-]. split; simpl; [|done].
  eapply remap_edges_range; [|exact Hes]. apply node_map_range.
Qed.
End Constructor.

(** * Checks for concrete instances *)

Section Checks.
Lemma edges_in_range_check n E :
  forallb (λ e, (src e <? n)%nat && (dst e <? n)%nat) E = true → edges_in_range n E.
Proof.
  rewrite forallb_forall. intros H e He%list_elem_of_In.
  apply H, andb_prop in He as [H1 H2]. by rewrite !Nat.ltb_lt in *.
Qed.

Lemma positive_weights_check E :
  forallb (λ e, 0 <? weight e) E = true → positive_weights E.
Proof.
  rewrite forallb_forall. intros H e He%list_elem_of_In. by apply Z.ltb_lt, H.
Qed.

(** A graph is connected when every node is connected to node 0. *)
Lemma connected_from_root n E :
  (∀ x, (x < n)%nat → conn E 0%nat x) → connected_graph n E.
Proof.
  intros H x y Hx Hy. eapply conn_trans; [apply conn_sym|]; by apply H.
Qed.
End Checks.

Lemma instance_of_well_formed g : well_formed (instance_of g).
Proof.
  unfold instance_of. destruct (init g) as [self| |] eqn:Hinit.
  - by eapply init_well_formed.
  - split; [|done]. intros x Hx. by apply elem_of_nil in Hx.
  - split; [|done]. intros x Hx. by apply elem_of_nil in Hx.
Qed.

Lemma graph4_connected : connected_graph 4 (edges_list (instance_of graph4)).
Proof.
  apply connected_from_root. intros x Hx.
  assert (H01 : conn (edges_list (instance_of graph4)) 0%nat 1%nat).
  { apply (conn_edge' _ 0%nat 1%nat 5). vm_compute. by left. }
  assert (H12 : conn (edges_list (instance_of graph4)) 1%nat 2%nat).
  { apply (conn_edge' _ 1%nat 2%nat 3). vm_compute. right. by left. }
  assert (H23 : conn (edges_list (instance_of graph4)) 2%nat 3%nat).
  { apply (conn_edge' _ 2%nat 3%nat 1). vm_compute. right. right. by left. }
  destruct x as [|[|[|[|x]]]]; [| | | |lia].
  - apply conn_refl.
  - done.
  - by eapply conn_trans.
  - eapply conn_trans; [exact H01|]. by eapply conn_trans.
Qed.

Lemma graph4_positive : positive_weights (edges_list (instance_of graph4)).
Proof. by apply positive_weights_check. Qed.

(** * The scenarios of the specification *)

(** Four nodes, edges [(0,1,5), (1,2,3), (2,3,1), (0,3,10)]: both results
    weigh 9 and use the edges [(1,2,3), (2,3,1), (0,1,5)]. *)
Example scenario_four_nodes :
  (r ← kruskal_mst 0 1 (instance_of graph4); Ok (r.1, total_weight r.1.1))
  = Ok ([(2%nat, 3%nat, 1); (1%nat, 2%nat, 3); (0%nat, 1%nat, 5)], None, 9)
  ∧ (r ← prim_mst 0 1 (instance_of graph4); Ok (r.1, total_weight r.1.1))
    = Ok ([(0%nat, 1%nat, 5); (1%nat, 2%nat, 3); (2%nat, 3%nat, 1)], None, 9).
Proof. split; vm_compute; reflexivity. Qed.

(** One node, no edge: both return [([], None)]. *)
Example scenario_one_node :
  (r ← kruskal_mst 0 1 (instance_of graph1); Ok r.1) = Ok ([], None)
  ∧ (r ← prim_mst 0 1 (instance_of graph1); Ok r.1) = Ok ([], None).
Proof. split; vm_compute; reflexivity. Qed.

(** Three nodes, the edge [(0,1,2)] only: [prim_mst] reports the graph
    unconnected, [kruskal_mst] reports nothing. *)
Example scenario_isolated_node :
  (r ← kruskal_mst 0 1 (instance_of graph3); Ok r.1) = Ok ([(0%nat, 1%nat, 2)], None)
  ∧ (r ← prim_mst 0 1 (instance_of graph3); Ok r.1)
    = Ok ([(0%nat, 1%nat, 2)], Some Graph_is_unconnected).
Proof. split; vm_compute; reflexivity. Qed.

(** The traces of the first scenario. *)
Example scenario_traces :
  (r ← kruskal_mst_with_animation 0 1 (instance_of graph4); Ok r.1)
  = Ok [Vertex 2; Vertex 3; Edge 2 3; Vertex 1; Edge 1 2; Vertex 0; Edge 0 1;
        Final [(2%nat, 3%nat, 1); (1%nat, 2%nat, 3); (0%nat, 1%nat, 5)] None]
  ∧ (r ← prim_mst_with_animation 0 1 (instance_of graph4); Ok r.1)
    = Ok [Vertex 0; Vertex 1; Edge 0 1; Vertex 2; Edge 1 2; Vertex 3; Edge 2 3;
          Final [(0%nat, 1%nat, 5); (1%nat, 2%nat, 3); (2%nat, 3%nat, 1)] None]
  ∧ (r ← prim_mst_with_animation 0 1 (instance_of graph3); Ok r.1)
    = Ok [Final [] (Some Graph_is_unconnected)].
Proof. split_and!; vm_compute; reflexivity. Qed.

(** * The properties of the specification *)

Section ConnectedGraphs.
Context (self : MSTAlgorithms) (t0 t1 : Q).
Local Abbreviation n := (num_nodes self).
Local Abbreviation E := (edges_list self).
Context (Hwf : well_formed self) (Hn : (1 ≤ n)%nat) (Hconn : connected_graph n E).

Lemma kruskal_connected :
  ∃ K sk, kruskal_mst t0 t1 self = Ok (K, None, sk)
    ∧ length K = (n - 1)%nat ∧ spanning_tree n E K
    ∧ (∀ T, edges_of E T → spanning n T → promising n E T K).
Proof.
  destruct Hwf as [HE _].
  destruct (kruskal_mst_spec self t0 t1 Hn HE)
    as (K & Hrun & Hacyc & Hsub & Hc & (reps & Hreps & Hcount) & Hprom).
  exists K. eexists. split; [exact Hrun|].
  assert (Hsp : spanning n K) by (intros x y Hx Hy; by apply Hc, Hconn).
  split_and!; [|split_and!|]; try done.
  - pose proof (transversal_length _ _ _ _ Hreps (transversal_connected n E Hn Hconn)) as Hl.
    simpl in Hl. lia.
  - intros e He. left. rewrite <-(sorted_perm E). by eapply elem_of_sublist.
Qed.

Lemma prim_connected :
  ∃ P sp, prim_mst t0 t1 self = Ok (P, None, sp)
    ∧ length P = (n - 1)%nat ∧ spanning_tree n E P
    ∧ (∀ T, edges_of E T → spanning n T → promising n E T P).
Proof.
  destruct (prim_mst_spec self t0 t1 Hn Hwf) as (st & Hrun & _ & Htree & HV).
  assert (Hall : ps_visited st = set_seq 0 n).
  { apply set_eq. intros x. rewrite HV, elem_of_set_seq. split.
    - intros [? _]. lia.
    - intros [_ Hx]. split; [lia|]. apply Hconn; lia. }
  assert (Hsize : size (ps_visited st) = n) by (rewrite Hall; apply size_set_seq).
  rewrite decide_False in Hrun by lia.
  exists (ps_mst_edges st). eexists. split; [exact Hrun|].
  pose proof (ti_size _ _ _ Htree) as Hs.
  split_and!; [lia|split_and!|apply Htree].
  - intros e He. by destruct (ti_edges _ _ _ Htree e He) as (_ & _ & ?).
  - apply Htree.
  - intros x y Hx Hy.
    assert (∀ z, (z < n)%nat → conn (ps_mst_edges st) 0%nat z) as H0.
    { intros z Hz. apply (ti_conn _ _ _ Htree). apply HV. split; [done|]. apply Hconn; lia. }
    eapply conn_trans; [apply conn_sym|]; by apply H0.
Qed.
End ConnectedGraphs.

(** C1. On a connected graph with [N ≥ 1] nodes and positive weights,
    [kruskal_mst] and [prim_mst] both return [N - 1] edges (none when
    [N = 1]) and no error, and the edges returned form a spanning tree of
    the graph: they are edges of the graph, have no cycle and connect all
    the nodes. *)
Theorem C1_connected_spanning_tree (self : MSTAlgorithms) (t0 t1 : Q) :
  well_formed self →
  (1 ≤ num_nodes self)%nat →
  connected_graph (num_nodes self) (edges_list self) →
  positive_weights (edges_list self) →
  ∃ K sk P sp,
    kruskal_mst t0 t1 self = Ok (K, None, sk)
    ∧ prim_mst t0 t1 self = Ok (P, None, sp)
    ∧ length K = (num_nodes self - 1)%nat
    ∧ length P = (num_nodes self - 1)%nat
    ∧ spanning_tree (num_nodes self) (edges_list self) K
    ∧ spanning_tree (num_nodes self) (edges_list self) P.
Proof.
  intros Hwf Hn Hconn _.
  destruct (kruskal_connected self t0 t1 Hwf Hn Hconn) as (K & sk & HK & HlK & HtK & _).
  destruct (prim_connected self t0 t1 Hwf Hn Hconn) as (P & sp & HP & HlP & HtP & _).
  exists K, sk, P, sp. done.
Qed.

Lemma C1_witness :
  ∃ K sk P sp,
    kruskal_mst 0 1 (instance_of graph4) = Ok (K, None, sk)
    ∧ prim_mst 0 1 (instance_of graph4) = Ok (P, None, sp)
    ∧ length K = 3%nat ∧ length P = 3%nat
    ∧ spanning_tree 4 (edges_list (instance_of graph4)) K
    ∧ spanning_tree 4 (edges_list (instance_of graph4)) P.
Proof.
  apply (C1_connected_spanning_tree (instance_of graph4) 0 1).
  - apply instance_of_well_formed.
  - vm_compute. lia.
  - apply graph4_connected.
  - apply graph4_positive.
Defined.

(** C2. On a connected graph with positive weights the edges returned by
    [kruskal_mst] and those returned by [prim_mst] have the same total
    weight. When the graph has a node, both calls return no error and both
    results are minimum spanning trees: spanning trees that weigh no more
    than any set of edges of the graph that connects all the nodes. *)
Theorem C2_same_total_weight (self : MSTAlgorithms) (t0 t1 : Q) :
  well_formed self →
  connected_graph (num_nodes self) (edges_list self) →
  positive_weights (edges_list self) →
  ∃ K ek sk P ep sp,
    kruskal_mst t0 t1 self = Ok (K, ek, sk)
    ∧ prim_mst t0 t1 self = Ok (P, ep, sp)
    ∧ total_weight K = total_weight P
    ∧ ((1 ≤ num_nodes self)%nat →
       ek = None ∧ ep = None
       ∧ minimum_spanning_tree (num_nodes self) (edges_list self) K
       ∧ minimum_spanning_tree (num_nodes self) (edges_list self) P).
Proof.
  intros Hwf Hconn Hpos.
  destruct (decide (num_nodes self = 0%nat)) as [Hn0|Hn0].
  { exists [], (Some Graph_is_empty). eexists. exists [], (Some Graph_is_empty). eexists.
    unfold kruskal_mst, prim_mst. cbv zeta.
    change (num_nodes (reset_metrics self)) with (num_nodes self).
    rewrite !decide_True by done. split_and!; [done..|lia]. }
  assert (Hn : (1 ≤ num_nodes self)%nat) by lia.
  destruct (kruskal_connected self t0 t1 Hwf Hn Hconn) as (K & sk & HK & _ & HtK & HpK).
  destruct (prim_connected self t0 t1 Hwf Hn Hconn) as (P & sp & HP & _ & HtP & HpP).
  assert (Hnn : ∀ e, e ∈ edges_list self → 0 ≤ weight e).
  { intros e He. apply Hpos in He. lia. }
  assert (HmK : minimal (num_nodes self) (edges_list self) K).
  { intros T HT1 HT2. eapply promising_end; [exact Hnn|]. by apply HpK. }
  assert (HmP : minimal (num_nodes self) (edges_list self) P).
  { intros T HT1 HT2. eapply promising_end; [exact Hnn|]. by apply HpP. }
  exists K, None, sk, P, None, sp. split_and!; try done.
  destruct HtK as (HK1 & _ & HK2), HtP as (HP1 & _ & HP2).
  apply Z.le_antisymm; [by apply HmK|by apply HmP].
Qed.

Lemma C2_witness :
  ∃ K ek sk P ep sp,
    kruskal_mst 0 1 (instance_of graph4) = Ok (K, ek, sk)
    ∧ prim_mst 0 1 (instance_of graph4) = Ok (P, ep, sp)
    ∧ total_weight K = total_weight P
    ∧ ((1 ≤ num_nodes (instance_of graph4))%nat →
       ek = None ∧ ep = None
       ∧ minimum_spanning_tree (num_nodes (instance_of graph4))
           (edges_list (instance_of graph4)) K
       ∧ minimum_spanning_tree (num_nodes (instance_of graph4))
           (edges_list (instance_of graph4)) P).
Proof.
  apply (C2_same_total_weight (instance_of graph4) 0 1).
  - apply instance_of_well_formed.
  - apply graph4_connected.
  - apply graph4_positive.
Defined.

(** C3. On a graph in which the component of node 0 has [k < N] nodes,
    [prim_mst] returns [k - 1] edges with the condition "unconnected", and
    [kruskal_mst] returns, with no error, a forest of edges of the graph
    with [N] minus the number of components many edges. The component of
    node 0 is given by the list [comp] of its nodes, the number of
    components by the length of a transversal [reps]. *)
Theorem C3_disconnected (self : MSTAlgorithms) (t0 t1 : Q) (comp reps : list nat) :
  well_formed self →
  NoDup comp →
  (∀ x, x ∈ comp ↔ (x < num_nodes self)%nat ∧ conn (edges_list self) 0%nat x) →
  (length comp < num_nodes self)%nat →
  transversal (num_nodes self) (edges_list self) reps →
  ∃ P sp K sk,
    prim_mst t0 t1 self = Ok (P, Some Graph_is_unconnected, sp)
    ∧ length P = (length comp - 1)%nat
    ∧ kruskal_mst t0 t1 self = Ok (K, None, sk)
    ∧ acyclic K
    ∧ edges_of (edges_list self) K
    ∧ length K = (num_nodes self - length reps)%nat.
Proof.
  intros Hwf Hnd Hcomp Hk Hreps.
  assert (Hn : (0 < num_nodes self)%nat) by lia.
  destruct (prim_mst_spec self t0 t1 Hn Hwf) as (st & Hrun & _ & Htree & HV).
  assert (HVc : ps_visited st = list_to_set comp).
  { apply set_eq. intros x. by rewrite HV, elem_of_list_to_set, Hcomp. }
  assert (Hsize : size (ps_visited st) = length comp).
  { rewrite HVc. by apply size_list_to_set. }
  rewrite decide_True in Hrun by lia.
  destruct Hwf as [HE _].
  destruct (kruskal_mst_spec self t0 t1 Hn HE)
    as (K & HrunK & Hacyc & Hsub & _ & (reps0 & Hreps0 & Hcount) & _).
  exists (ps_mst_edges st). eexists. exists K. eexists.
  split; [exact Hrun|]. split.
  { pose proof (ti_size _ _ _ Htree). lia. }
  split; [exact HrunK|]. split; [done|]. split.
  - intros e He. left. rewrite <-(sorted_perm (edges_list self)). by eapply elem_of_sublist.
  - rewrite <-(transversal_length _ _ _ _ Hreps0 Hreps). lia.
Qed.

Lemma graph3_component x :
  x ∈ [0; 1]%nat ↔ (x < 3)%nat ∧ conn (edges_list (instance_of graph3)) 0%nat x.
Proof.
  split.
  - intros [->|[->|H]%elem_of_cons]%elem_of_cons.
    + split; [lia|apply conn_refl].
    + split; [lia|]. apply (conn_edge' _ 0%nat 1%nat 2). vm_compute. by left.
    + by apply elem_of_nil in H.
  - intros [Hx Hc].
    apply (conn_closed (λ z, z ∈ [0; 1]%nat) _ _ _) in Hc.
    + apply Hc. by left.
    + intros e He. vm_compute in He. apply list_elem_of_singleton in He as ->.
      change (0%nat ∈ [0; 1]%nat ↔ 1%nat ∈ [0; 1]%nat). split; intros _; [right|]; by left.
Qed.

Lemma graph3_transversal :
  transversal 3 (edges_list (instance_of graph3)) [0; 2]%nat.
Proof.
  assert (H02 : ¬ conn (edges_list (instance_of graph3)) 0%nat 2%nat).
  { intros Hc. assert (2%nat ∈ [0; 1]%nat) as Hin by (apply graph3_component; split; [lia|done]).
    apply elem_of_cons in Hin as [|Hin]; [done|].
    apply elem_of_cons in Hin as [|Hin]; [done|]. by apply elem_of_nil in Hin. }
  split_and!.
  - apply NoDup_cons. split; [|apply NoDup_singleton].
    intros H%list_elem_of_singleton. done.
  - intros r [-> | ->%list_elem_of_singleton]%elem_of_cons; lia.
  - intros x Hx. destruct x as [|[|[|x]]]; [| | |lia].
    + exists 0%nat. split; [by left|apply conn_refl].
    + exists 0%nat. split; [by left|]. apply conn_sym.
      apply (conn_edge' _ 0%nat 1%nat 2). vm_compute. by left.
    + exists 2%nat. split; [right; by left|apply conn_refl].
  - intros r r' [-> | ->%list_elem_of_singleton]%elem_of_cons
                [-> | ->%list_elem_of_singleton]%elem_of_cons Hc; try done;
      exfalso; apply H02; first [done | by apply conn_sym].
Qed.

Lemma C3_witness :
  ∃ P sp K sk,
    prim_mst 0 1 (instance_of graph3) = Ok (P, Some Graph_is_unconnected, sp)
    ∧ length P = 1%nat
    ∧ kruskal_mst 0 1 (instance_of graph3) = Ok (K, None, sk)
    ∧ acyclic K
    ∧ edges_of (edges_list (instance_of graph3)) K
    ∧ length K = 1%nat.
Proof.
  apply (C3_disconnected (instance_of graph3) 0 1 [0; 1]%nat [0; 2]%nat).
  - apply instance_of_well_formed.
  - apply NoDup_cons. split; [|apply NoDup_singleton].
    intros H%list_elem_of_singleton. done.
  - apply graph3_component.
  - vm_compute. lia.
  - apply graph3_transversal.
Defined.

(** C5. On the empty graph both algorithms return no edge with the
    condition "empty", and the runtime recorded is not negative, the clock
    being monotonic. *)
Theorem C5_empty_graph (self : MSTAlgorithms) (t0 t1 : Q) :
  num_nodes self = 0%nat →
  (t0 <= t1)%Q →
  ∃ sk sp,
    kruskal_mst t0 t1 self = Ok ([], Some Graph_is_empty, sk)
    ∧ prim_mst t0 t1 self = Ok ([], Some Graph_is_empty, sp)
    ∧ (0 <= runtime (get_metrics sk))%Q
    ∧ (0 <= runtime (get_metrics sp))%Q.
Proof.
  intros Hn Ht. unfold kruskal_mst, prim_mst. cbv zeta.
  change (num_nodes (reset_metrics self)) with (num_nodes self).
  rewrite !decide_True by done.
  eexists _, _. split; [reflexivity|]. split; [reflexivity|].
  assert (0 <= (t1 - t0) * 1000)%Q.
  { apply Qmult_le_0_compat; [|done]. unfold Qminus. rewrite <-Qle_minus_iff. done. }
  done.
Qed.

Lemma C5_witness :
  ∃ sk sp,
    kruskal_mst 0 1 (instance_of graph0) = Ok ([], Some Graph_is_empty, sk)
    ∧ prim_mst 0 1 (instance_of graph0) = Ok ([], Some Graph_is_empty, sp)
    ∧ (0 <= runtime (get_metrics sk))%Q
    ∧ (0 <= runtime (get_metrics sp))%Q.
Proof.
  apply (C5_empty_graph (instance_of graph0) 0 1).
  - reflexivity.
  - vm_compute. discriminate.
Defined.

Section SublistFacts.
Context {A : Type}.
Implicit Types (l k : list A).

Lemma sublist_StronglySorted (R : A → A → Prop) l k :
  l `sublist_of` k → StronglySorted R k → StronglySorted R l.
Proof.
  induction 1 as [|x l k Hlk IH|x l k Hlk IH]; intros Hk.
  - constructor.
  - apply StronglySorted_cons in Hk as [Hx Hk]. apply StronglySorted_cons.
    split; [|by apply IH]. rewrite Forall_forall in *.
    intros y Hy. apply Hx. by eapply elem_of_sublist.
  - apply StronglySorted_cons in Hk as [_ Hk]. by apply IH.
Qed.

Lemma sublist_filter_mono (P : A → Prop) `{!∀ x, Decision (P x)} l k :
  l `sublist_of` k → filter P l `sublist_of` filter P k.
Proof.
  induction 1 as [|x l k Hlk IH|x l k Hlk IH].
  - done.
  - rewrite !filter_cons. destruct (decide (P x)); [by constructor|done].
  - rewrite filter_cons. destruct (decide (P x)); [by constructor|done].
Qed.
End SublistFacts.

(** C6. The edges [kruskal_mst] returns are in non-decreasing order of
    weight, and those of one weight are in the order they have in the
    input: for every weight, the edges of that weight in the result are a
    subsequence of the edges of that weight in [edges_list]. *)
Theorem C6_kruskal_order (self : MSTAlgorithms) (t0 t1 : Q) :
  well_formed self →
  ∃ K err sk,
    kruskal_mst t0 t1 self = Ok (K, err, sk)
    ∧ StronglySorted weight_le K
    ∧ ∀ w, filter (λ e, weight e = w) K
             `sublist_of` filter (λ e, weight e = w) (edges_list self).
Proof.
  intros [HE _]. destruct (decide (num_nodes self = 0%nat)) as [Hn|Hn].
  - exists [], (Some Graph_is_empty). eexists. split_and!.
    + unfold kruskal_mst. cbv zeta.
      change (num_nodes (reset_metrics self)) with (num_nodes self).
      by rewrite decide_True by done.
    + constructor.
    + intros w. apply sublist_nil_l.
  - destruct (kruskal_mst_spec self t0 t1 ltac:(lia) HE) as (K & Hrun & _ & Hsub & _).
    exists K, None. eexists. split_and!; [exact Hrun| |].
    + eapply sublist_StronglySorted; [exact Hsub|apply sorted_sorted].
    + intros w. rewrite <-(sorted_stable w (edges_list self)).
      by apply sublist_filter_mono.
Qed.

Lemma C6_witness :
  ∃ K err sk,
    kruskal_mst 0 1 (instance_of graph4) = Ok (K, err, sk)
    ∧ StronglySorted weight_le K
    ∧ ∀ w, filter (λ e, weight e = w) K
             `sublist_of` filter (λ e, weight e = w) (edges_list (instance_of graph4)).
Proof.
  apply (C6_kruskal_order (instance_of graph4) 0 1).
  apply instance_of_well_formed.
Defined.

(** Node 0 is visited first and is the child of no edge. *)
Lemma tree_inv_root_not_child n E st :
  tree_inv n E st → 0%nat ∉ dst <$> ps_mst_edges st.
Proof.
  intros [_ _ _ _ _ Hs Hch Hnd _ _] H0.
  assert (ps_visited st = list_to_set (dst <$> ps_mst_edges st)) as HVP.
  { apply set_eq. intros x. rewrite elem_of_list_to_set, (Hch x).
    split; [intros [->|?]; done|by right]. }
  rewrite HVP, size_list_to_set in Hs by done.
  rewrite length_fmap in Hs. lia.
Qed.

(** C10. The edges [prim_mst] returns form a tree rooted at node 0: no
    node is the child of two edges, node 0 is the child of none, the
    parent of an edge is node 0 or the child of an earlier edge, the edges
    have no cycle, and they connect both ends of every edge with node 0. *)
Theorem C10_prim_rooted_tree (self : MSTAlgorithms) (t0 t1 : Q) :
  well_formed self →
  ∃ P err sp,
    prim_mst t0 t1 self = Ok (P, err, sp)
    ∧ NoDup (dst <$> P)
    ∧ (0%nat ∉ dst <$> P)
    ∧ acyclic P
    ∧ (∀ e, e ∈ P → conn P 0%nat (src e) ∧ conn P 0%nat (dst e))
    ∧ ∀ i e, P !! i = Some e →
        src e = 0%nat
        ∨ ∃ j e', (j < i)%nat ∧ P !! j = Some e' ∧ dst e' = src e.
Proof.
  intros Hwf. destruct (decide (num_nodes self = 0%nat)) as [Hn|Hn].
  - exists [], (Some Graph_is_empty). eexists. split_and!.
    + unfold prim_mst. cbv zeta.
      change (num_nodes (reset_metrics self)) with (num_nodes self).
      by rewrite decide_True by done.
    + constructor.
    + intros H. by apply elem_of_nil in H.
    + apply acyclic_nil.
    + intros e He. by apply elem_of_nil in He.
    + intros i e Hi. done.
  - destruct (prim_mst_spec self t0 t1 ltac:(lia) Hwf) as (st & Hrun & _ & Htree & _).
    eexists _, _, _. split; [exact Hrun|]. split_and!.
    + apply Htree.
    + by eapply tree_inv_root_not_child.
    + apply Htree.
    + intros e He. destruct (ti_edges _ _ _ Htree e He) as (Hs & Hd & _).
      split; by apply (ti_conn _ _ _ Htree).
    + apply Htree.
Qed.

Lemma C10_witness :
  ∃ P err sp,
    prim_mst 0 1 (instance_of graph4) = Ok (P, err, sp)
    ∧ NoDup (dst <$> P)
    ∧ (0%nat ∉ dst <$> P)
    ∧ acyclic P
    ∧ (∀ e, e ∈ P → conn P 0%nat (src e) ∧ conn P 0%nat (dst e))
    ∧ ∀ i e, P !! i = Some e →
        src e = 0%nat
        ∨ ∃ j e', (j < i)%nat ∧ P !! j = Some e' ∧ dst e' = src e.
Proof.
  apply (C10_prim_rooted_tree (instance_of graph4) 0 1).
  apply instance_of_well_formed.
Defined.

Section Metrics.
Context (self : MSTAlgorithms) (Hwf : well_formed self).

(** The counters after a call of [kruskal_mst]. *)
Lemma kruskal_mst_counters t0 t1 m :
  ∃ K err,
    kruskal_mst t0 t1 (set_metrics self m)
    = Ok (K, err,
          set_metrics self
            (mkMetrics ((t1 - t0) * 1000)%Q
               (if decide (num_nodes self = 0%nat) then 0
                else kruskal_comparisons (length (edges_list self)))
               (if decide (num_nodes self = 0%nat) then 0
                else Z.of_nat (length (edges_list self))))).
Proof.
  destruct Hwf as [HE _]. destruct (decide (num_nodes self = 0%nat)) as [Hn|Hn].
  - exists [], (Some Graph_is_empty). unfold kruskal_mst. cbv zeta.
    change (num_nodes (reset_metrics (set_metrics self m))) with (num_nodes self).
    by rewrite decide_True by done.
  - destruct (kruskal_mst_spec (set_metrics self m) t0 t1) as (K & Hrun & _).
    + change (0 < num_nodes self)%nat. lia.
    + exact HE.
    + by exists K, None.
Qed.

(** The counters after a call of [prim_mst] are those of the loop run from
    the initial state, whatever the metrics were before. *)
Lemma prim_mst_counters t0 t1 m :
  ∃ P err c i,
    prim_mst t0 t1 (set_metrics self m)
    = Ok (P, err, set_metrics self (mkMetrics ((t1 - t0) * 1000)%Q c i))
    ∧ (c, i) = if decide (num_nodes self = 0%nat) then (0, 0)
               else match prim_loop (prim_fuel self) (adj_list self) (prim_init self) with
                    | Ok st => (ps_edge_comparisons st, ps_iterations st)
                    | _ => (0, 0)
                    end.
Proof.
  destruct (decide (num_nodes self = 0%nat)) as [Hn|Hn].
  - exists [], (Some Graph_is_empty), 0, 0. split; [|done]. unfold prim_mst. cbv zeta.
    change (num_nodes (reset_metrics (set_metrics self m))) with (num_nodes self).
    by rewrite decide_True by done.
  - destruct (prim_mst_spec (set_metrics self m) t0 t1) as (st & Hrun & Hloop & _).
    + change (0 < num_nodes self)%nat. lia.
    + exact Hwf.
    + change (prim_loop (prim_fuel self) (adj_list self) (prim_init self) = Ok st) in Hloop.
      rewrite Hloop. eexists _, _, _, _. split; [exact Hrun|done].
Qed.
End Metrics.

(** C7. The metrics are reset at the start of every call: whatever the
    metrics of the instance were, a call of [kruskal_mst] (or [prim_mst])
    and a second call on the same instance leave the same [iterations] and
    [edge_comparisons], and these are the values a call on the instance
    with its metrics reset leaves. *)
Theorem C7_metrics_reset (self : MSTAlgorithms) (m : Metrics) (t0 t1 t2 t3 : Q) :
  well_formed self →
  (∃ r s r' s' r0 s0,
     kruskal_mst t0 t1 (set_metrics self m) = Ok (r, s)
     ∧ kruskal_mst t2 t3 s = Ok (r', s')
     ∧ kruskal_mst t0 t1 (reset_metrics self) = Ok (r0, s0)
     ∧ iterations (get_metrics s') = iterations (get_metrics s)
     ∧ edge_comparisons (get_metrics s') = edge_comparisons (get_metrics s)
     ∧ iterations (get_metrics s) = iterations (get_metrics s0)
     ∧ edge_comparisons (get_metrics s) = edge_comparisons (get_metrics s0))
  ∧ (∃ r s r' s' r0 s0,
     prim_mst t0 t1 (set_metrics self m) = Ok (r, s)
     ∧ prim_mst t2 t3 s = Ok (r', s')
     ∧ prim_mst t0 t1 (reset_metrics self) = Ok (r0, s0)
     ∧ iterations (get_metrics s') = iterations (get_metrics s)
     ∧ edge_comparisons (get_metrics s') = edge_comparisons (get_metrics s)
     ∧ iterations (get_metrics s) = iterations (get_metrics s0)
     ∧ edge_comparisons (get_metrics s) = edge_comparisons (get_metrics s0)).
Proof.
  intros Hwf. split.
  - destruct (kruskal_mst_counters self Hwf t0 t1 m) as (K & err & H1).
    destruct (kruskal_mst_counters self Hwf t2 t3
                (mkMetrics ((t1 - t0) * 1000)%Q
                   (if decide (num_nodes self = 0%nat) then 0
                    else kruskal_comparisons (length (edges_list self)))
                   (if decide (num_nodes self = 0%nat) then 0
                    else Z.of_nat (length (edges_list self)))))
      as (K' & err' & H2).
    destruct (kruskal_mst_counters self Hwf t0 t1 (mkMetrics 0%Q 0 0)) as (K0 & err0 & H0).
    eexists _, _, _, _, _, _. split; [exact H1|]. split; [exact H2|].
    split; [exact H0|]. done.
  - destruct (prim_mst_counters self Hwf t0 t1 m) as (P & err & c & i & H1 & Hc).
    destruct (prim_mst_counters self Hwf t2 t3 (mkMetrics ((t1 - t0) * 1000)%Q c i))
      as (P' & err' & c' & i' & H2 & Hc').
    destruct (prim_mst_counters self Hwf t0 t1 (mkMetrics 0%Q 0 0))
      as (P0 & err0 & c0 & i0 & H0 & Hc0).
    eexists _, _, _, _, _, _. split; [exact H1|]. split; [exact H2|].
    split; [exact H0|]. simpl.
    rewrite <-Hc in Hc', Hc0. by simplify_eq.
Qed.

Lemma C7_witness :
  (∃ r s r' s' r0 s0,
     kruskal_mst 0 1 (set_metrics (instance_of graph4) (mkMetrics 7 8 9)) = Ok (r, s)
     ∧ kruskal_mst 2 3 s = Ok (r', s')
     ∧ kruskal_mst 0 1 (reset_metrics (instance_of graph4)) = Ok (r0, s0)
     ∧ iterations (get_metrics s') = iterations (get_metrics s)
     ∧ edge_comparisons (get_metrics s') = edge_comparisons (get_metrics s)
     ∧ iterations (get_metrics s) = iterations (get_metrics s0)
     ∧ edge_comparisons (get_metrics s) = edge_comparisons (get_metrics s0))
  ∧ (∃ r s r' s' r0 s0,
     prim_mst 0 1 (set_metrics (instance_of graph4) (mkMetrics 7 8 9)) = Ok (r, s)
     ∧ prim_mst 2 3 s = Ok (r', s')
     ∧ prim_mst 0 1 (reset_metrics (instance_of graph4)) = Ok (r0, s0)
     ∧ iterations (get_metrics s') = iterations (get_metrics s)
     ∧ edge_comparisons (get_metrics s') = edge_comparisons (get_metrics s)
     ∧ iterations (get_metrics s) = iterations (get_metrics s0)
     ∧ edge_comparisons (get_metrics s) = edge_comparisons (get_metrics s0)).
Proof.
  apply (C7_metrics_reset (instance_of graph4) (mkMetrics 7 8 9) 0 1 2 3).
  apply instance_of_well_formed.
Defined.

Section Reachable.
Context (self : MSTAlgorithms) (Hwf : well_formed self).

Lemma reachable_inv st :
  prim_reachable (adj_list self) (prim_init self) st →
  prim_seed st ∨ prim_inv (num_nodes self) (edges_list self) (adj_list self) st.
Proof.
  destruct (well_formed_adj self Hwf) as [Hlen Hadj]. pose proof Hwf as [HE _].
  induction 1 as [|st st' Hreach IH Hne Hbody].
  - left. by split_and!.
  - destruct (decide (num_nodes self = 0%nat)) as [Hn|Hn].
    + exfalso. destruct IH as [(Hh & Hm & HV & HF)|[Htree _]].
      * unfold prim_body in Hbody. rewrite Hh in Hbody. simpl in Hbody.
        rewrite decide_False in Hbody by (rewrite HV; apply not_elem_of_empty).
        rewrite decide_False in Hbody by (rewrite Hm, lookup_singleton_eq; done).
        unfold getitem in Hbody. rewrite lookup_ge_None_2 in Hbody by lia. done.
      * pose proof (ti_range _ _ _ Htree _ (ti_root _ _ _ Htree)). lia.
    + right. destruct IH as [Hseed|Hinv].
      * destruct (prim_body_seed (num_nodes self) (edges_list self) _ ltac:(lia) HE Hlen st Hseed)
          as (st'' & Hb & Hinv & _). congruence.
      * destruct (prim_body_main (num_nodes self) (edges_list self) _ ltac:(lia) HE Hlen Hadj st Hinv Hne)
          as (st'' & Hb & Hinv' & _). congruence.
Qed.

(** The seed is alone in the heap: once it is popped, every entry has a
    parent, so no entry is ever compared with the seed. *)
Lemma seed_alone st :
  prim_reachable (adj_list self) (prim_init self) st →
  ps_heap st = [(0, 0%nat, None)]
  ∨ ∀ w v p, (w, v, p) ∈ ps_heap st → p ≠ None.
Proof.
  intros [(Hh & _)|[_ [Hent _ _]]]%reachable_inv; [by left|right].
  intros w v p Hin. destruct (Hent _ _ _ Hin) as (u & -> & _). done.
Qed.

Lemma unvisited_entry_in_heap st w u p :
  prim_reachable (adj_list self) (prim_init self) st →
  (w, u, p) ∈ ps_heap st → u ∉ ps_visited st → is_Some (ps_in_heap st !! u).
Proof.
  intros [(Hh & Hm & _)|[_ [Hent Hmap Hfront]]]%reachable_inv Hin Hu.
  - rewrite Hh in Hin. apply list_elem_of_singleton in Hin. simplify_eq.
    rewrite Hm, lookup_singleton_eq. by eexists.
  - destruct (Hent _ _ _ Hin) as (q & -> & Hq & Hqu).
    destruct (Hfront q u w (conj Hq Hqu) Hu) as (m & Hm & _). by eexists.
Qed.
End Reachable.

(** C9. In every state the loop of [prim_mst] reaches, a node that is
    popped and not yet visited is a key of [in_heap]; more generally every
    heap entry of an unvisited node has its node in [in_heap]. So
    [del in_heap[u]] never raises [KeyError], and [prim_mst] returns. *)
Theorem C9_prim_del_in_heap (self : MSTAlgorithms) (t0 t1 : Q) :
  well_formed self →
  (∀ st, prim_reachable (adj_list self) (prim_init self) st →
     (∀ w u p h', heappop (ps_heap st) = Some ((w, u, p), h') →
        u ∉ ps_visited st → is_Some (ps_in_heap st !! u))
     ∧ (∀ w u p, (w, u, p) ∈ ps_heap st →
        u ∉ ps_visited st → is_Some (ps_in_heap st !! u))
     ∧ prim_body (adj_list self) st ≠ Raise KeyError)
  ∧ ∃ r, prim_mst t0 t1 self = Ok r.
Proof.
  intros Hwf. split.
  - intros st Hreach.
    assert (Hpop : ∀ w u p h', heappop (ps_heap st) = Some ((w, u, p), h') →
              u ∉ ps_visited st → is_Some (ps_in_heap st !! u)).
    { intros w u p h' Hp Hu. apply (unvisited_entry_in_heap self Hwf st w u p); [done| |done].
      destruct (heappop_spec _ _ _ Hp) as [Hperm _]. rewrite Hperm. by left. }
    split; [exact Hpop|]. split.
    + intros w u p. by apply (unvisited_entry_in_heap self Hwf).
    + unfold prim_body. destruct (heappop (ps_heap st)) as [[[[w u] p] h']|] eqn:Hp; [|done].
      destruct (decide (u ∈ ps_visited st)) as [|Hu]; [done|].
      destruct (Hpop w u p h' eq_refl Hu) as [m Hm].
      rewrite decide_False by (rewrite Hm; done).
      unfold getitem. by destruct (adj_list self !! u).
  - destruct (decide (num_nodes self = 0%nat)) as [Hn|Hn].
    + eexists. unfold prim_mst. cbv zeta.
      change (num_nodes (reset_metrics self)) with (num_nodes self).
      by rewrite decide_True by done.
    + destruct (prim_mst_spec self t0 t1 ltac:(lia) Hwf) as (st & Hrun & _). by eexists.
Qed.

Lemma C9_witness :
  (∀ st, prim_reachable (adj_list (instance_of graph4)) (prim_init (instance_of graph4)) st →
     (∀ w u p h', heappop (ps_heap st) = Some ((w, u, p), h') →
        u ∉ ps_visited st → is_Some (ps_in_heap st !! u))
     ∧ (∀ w u p, (w, u, p) ∈ ps_heap st →
        u ∉ ps_visited st → is_Some (ps_in_heap st !! u))
     ∧ prim_body (adj_list (instance_of graph4)) st ≠ Raise KeyError)
  ∧ ∃ r, prim_mst 0 1 (instance_of graph4) = Ok r.
Proof.
  apply (C9_prim_del_in_heap (instance_of graph4) 0 1).
  apply instance_of_well_formed.
Defined.

(** * The trace *)

Section Trace.
Implicit Types (F : list edge) (evs : list event) (seen : gset nat).

Lemma edge_events_app evs evs' :
  edge_events (evs ++ evs') = edge_events evs ++ edge_events evs'.
Proof. apply omap_app. Qed.

Lemma final_events_app evs evs' :
  final_events (evs ++ evs') = final_events evs ++ final_events evs'.
Proof. apply omap_app. Qed.

Lemma kruskal_replay_step seen evs e :
  edge_events (kruskal_replay (seen, evs) e).2 = edge_events evs ++ [ends e]
  ∧ final_events (kruskal_replay (seen, evs) e).2 = final_events evs.
Proof.
  destruct e as [[u v] w]. unfold kruskal_replay.
  destruct (decide (u ∉ seen)); destruct (decide (v ∉ _)); simpl;
    rewrite !edge_events_app, !final_events_app; simpl; rewrite ?app_nil_r; done.
Qed.

Lemma kruskal_replay_events F : ∀ seen evs,
  edge_events (foldl kruskal_replay (seen, evs) F).2 = edge_events evs ++ (ends <$> F)
  ∧ final_events (foldl kruskal_replay (seen, evs) F).2 = final_events evs.
Proof.
  induction F as [|e F IH]; intros seen evs; simpl.
  - by rewrite app_nil_r.
  - destruct (kruskal_replay_step seen evs e) as [H1 H2].
    destruct (kruskal_replay (seen, evs) e) as [seen' evs']. simpl in H1, H2.
    destruct (IH seen' evs') as [IH1 IH2].
    rewrite IH1, IH2, H1, H2, <-app_assoc. done.
Qed.

Lemma prim_replay_step seen evs e :
  edge_events (prim_replay (seen, evs) e).2 = edge_events evs ++ [ends e]
  ∧ final_events (prim_replay (seen, evs) e).2 = final_events evs.
Proof.
  destruct e as [[p u] w]. unfold prim_replay.
  destruct (decide (u ∉ seen)); simpl;
    rewrite !edge_events_app, !final_events_app; simpl; rewrite ?app_nil_r; done.
Qed.

Lemma prim_replay_events F : ∀ seen evs,
  edge_events (foldl prim_replay (seen, evs) F).2 = edge_events evs ++ (ends <$> F)
  ∧ final_events (foldl prim_replay (seen, evs) F).2 = final_events evs.
Proof.
  induction F as [|e F IH]; intros seen evs; simpl.
  - by rewrite app_nil_r.
  - destruct (prim_replay_step seen evs e) as [H1 H2].
    destruct (prim_replay (seen, evs) e) as [seen' evs']. simpl in H1, H2.
    destruct (IH seen' evs') as [IH1 IH2].
    rewrite IH1, IH2, H1, H2, <-app_assoc. done.
Qed.

Lemma acyclic_tail e F : acyclic (e :: F) → acyclic F.
Proof.
  intros H F1 c F2 -> Hc. apply (H (e :: F1) c F2 eq_refl). simpl.
  by apply conn_cons_weaken.
Qed.

(** In a forest no two edges join the same two nodes. *)
Lemma acyclic_unordered F : acyclic F → NoDup (unordered ∘ ends <$> F).
Proof.
  induction F as [|e F IH]; intros HF; simpl; [constructor|].
  apply NoDup_cons. split; [|by eapply IH, acyclic_tail].
  intros Hin. apply list_elem_of_fmap in Hin as (c & Heq & Hc).
  destruct (acyclic_no_parallel [] e F c HF Hc) as [H1 H2].
  unfold unordered, ends, compose in Heq. simpl in Heq.
  injection Heq as Hmin Hmax.
  destruct (decide (src c = src e ∧ dst c = dst e)); [tauto|].
  destruct (decide (src c = dst e ∧ dst c = src e)); [tauto|]. lia.
Qed.
End Trace.

Section Results.
Context (self : MSTAlgorithms) (Hwf : well_formed self) (t0 t1 : Q).

Lemma kruskal_mst_acyclic :
  ∃ F err s, kruskal_mst t0 t1 self = Ok (F, err, s) ∧ acyclic F.
Proof.
  destruct (decide (num_nodes self = 0%nat)) as [Hn|Hn].
  - exists [], (Some Graph_is_empty). eexists. split; [|apply acyclic_nil].
    unfold kruskal_mst. cbv zeta.
    change (num_nodes (reset_metrics self)) with (num_nodes self).
    by rewrite decide_True by done.
  - destruct Hwf as [HE _].
    destruct (kruskal_mst_spec self t0 t1 ltac:(lia) HE) as (K & Hrun & Hacyc & _).
    by eexists _, _, _.
Qed.

Lemma prim_mst_acyclic :
  ∃ F err s, prim_mst t0 t1 self = Ok (F, err, s) ∧ acyclic F.
Proof.
  destruct (decide (num_nodes self = 0%nat)) as [Hn|Hn].
  - exists [], (Some Graph_is_empty). eexists. split; [|apply acyclic_nil].
    unfold prim_mst. cbv zeta.
    change (num_nodes (reset_metrics self)) with (num_nodes self).
    by rewrite decide_True by done.
  - destruct (prim_mst_spec self t0 t1 ltac:(lia) Hwf) as (st & Hrun & _ & Htree & _).
    eexists _, _, _. split; [exact Hrun|apply Htree].
Qed.
End Results.

(** C4. The trace of a call that returns no error ends with the [Final]
    event that carries the very list the call returns, and its [Edge]
    events correspond one to one, in order, to the edges of that list, no
    two of which join the same two nodes; the trace of a call that returns
    an error is the single event [Final [] error]. *)
Theorem C4_trace_replays (self : MSTAlgorithms) (t0 t1 : Q) :
  well_formed self →
  ∃ rk rp,
    kruskal_mst t0 t1 self = Ok rk
    ∧ trace_replays (kruskal_mst_with_animation t0 t1 self) rk
    ∧ prim_mst t0 t1 self = Ok rp
    ∧ trace_replays (prim_mst_with_animation t0 t1 self) rp.
Proof.
  intros Hwf.
  destruct (kruskal_mst_acyclic self Hwf t0 t1) as (K & ek & sk & HK & HaK).
  destruct (prim_mst_acyclic self Hwf t0 t1) as (P & ep & sp & HP & HaP).
  exists (K, ek, sk), (P, ep, sp). split; [done|]. split; [|split; [done|]].
  - unfold kruskal_mst_with_animation, trace_replays. rewrite HK, bind_Ok. simpl.
    destruct ek as [e|]; [done|].
    destruct (kruskal_replay_events K ∅ []) as [H1 H2].
    destruct (foldl kruskal_replay (∅, []) K) as [seen evs]. simpl in *.
    exists evs. split_and!; [done..|]. by apply acyclic_unordered.
  - unfold prim_mst_with_animation, trace_replays. rewrite HP, bind_Ok. simpl.
    destruct ep as [e|]; [done|].
    destruct (prim_replay_events P {[0%nat]} [Vertex 0]) as [H1 H2].
    destruct (foldl prim_replay ({[0%nat]}, [Vertex 0]) P) as [seen evs]. simpl in *.
    exists evs. split_and!; [done..|]. by apply acyclic_unordered.
Qed.

Lemma C4_witness :
  ∃ rk rp,
    kruskal_mst 0 1 (instance_of graph4) = Ok rk
    ∧ trace_replays (kruskal_mst_with_animation 0 1 (instance_of graph4)) rk
    ∧ prim_mst 0 1 (instance_of graph4) = Ok rp
    ∧ trace_replays (prim_mst_with_animation 0 1 (instance_of graph4)) rp.
Proof.
  apply (C4_trace_replays (instance_of graph4) 0 1).
  apply instance_of_well_formed.
Defined.

(** * The estimate of the sort's comparisons *)

Lemma bit_length_log2 (m : Z) : 1 ≤ m → bit_length m - 1 = Z.log2 m.
Proof.
  intros Hm. unfold bit_length. destruct m as [|p|p]; try lia.
  destruct p as [q|q|]; simpl; lia.
Qed.

(** C8, as the code has it. When the loop of [kruskal_mst] is entered on a
    graph with [E] edges, [edge_comparisons] is [E * k], where [k] is
    [bit_length E - 1]: the integer part of the binary logarithm of [E]
    (the [k] with [2^k ≤ E < 2^(k+1)]) when [E ≥ 1]; the count is 0 when
    [E = 0]. *)
Theorem C8_sort_estimate (self : MSTAlgorithms) :
  let E := Z.of_nat (length (edges_list self)) in
  let count := ks_edge_comparisons (kruskal_sort_phase self).2 in
  count = E * Z.log2 E
  ∧ ((E = 0 ∧ count = 0)
     ∨ (1 ≤ E ∧ 2 ^ Z.log2 E ≤ E < 2 ^ (Z.log2 E + 1))).
Proof.
  intros E count. unfold count, kruskal_sort_phase. simpl.
  rewrite sorted_length. fold E.
  destruct (decide (E = 0)) as [->|HE].
  - split; [done|]. by left.
  - assert (1 ≤ E) by (unfold E in *; lia).
    rewrite bit_length_log2 by done. split; [lia|right].
    split; [done|]. pose proof (Z.log2_spec E). lia.
Qed.

(** C8, as stated, fails on a graph with three edges: the count is [3],
    which is not [3 * log2 3]. *)
Lemma C8_counterexample :
  IZR (ks_edge_comparisons (kruskal_sort_phase (instance_of triangle)).2)
  ≠ (INR (length (edges_list (instance_of triangle)))
     * log2_real (INR (length (edges_list (instance_of triangle)))))%R.
Proof.
  replace (ks_edge_comparisons (kruskal_sort_phase (instance_of triangle)).2)
    with 3 by (vm_compute; reflexivity).
  replace (length (edges_list (instance_of triangle))) with 3%nat
    by (vm_compute; reflexivity).
  unfold log2_real. simpl INR. intros H.
  assert (H2 : (0 < ln 2)%R).
  { rewrite <-ln_1. apply ln_increasing; lra. }
  assert (H3 : (ln 2 < ln (1 + 1 + 1))%R).
  { apply ln_increasing; lra. }
  assert (Ha : (ln (1 + 1 + 1) / ln 2 * ln 2 = ln (1 + 1 + 1))%R) by (field; lra).
  assert (H1 : (ln (1 + 1 + 1) / ln 2 = 1)%R) by lra.
  rewrite H1 in Ha. lra.
Qed.

(** * Further properties of the code *)

(** ** Union-find *)

Section UnionFindRuns.
Context (n : nat) (Hn : (0 < n)%nat).
Implicit Types (parent : list nat) (rank : list Z) (F : list edge).

Lemma uf_state_start : uf_state n (seq 0 n) (replicate n 0) [].
Proof.
  destruct (kruskal_inv_start n [] Hn) as [H1 H2 H3 _ H5 _ _ _]. by split.
Qed.

Lemma uf_state_fuel parent rank F :
  uf_state n parent rank F → Z.of_nat (length F) < Z.of_nat n.
Proof.
  intros [_ _ (reps & Hreps & Hcount) _].
  pose proof (transversal_nonempty n Hn _ _ Hreps). lia.
Qed.

(** [find] leaves the length and makes its node point to the root. *)
Lemma find_points_to_root fuel : ∀ parent i parent' r,
  find fuel parent i = Ok (parent', r) →
  length parent' = length parent ∧ parent' !! i = Some r.
Proof.
  induction fuel as [|fuel IH]; intros parent i parent' r; simpl; [done|].
  unfold getitem. destruct (parent !! i) as [pi|] eqn:Hi; [|done]. rewrite bind_Ok.
  destruct (decide (pi ≠ i)) as [Hne|Heq].
  - destruct (find fuel parent pi) as [[parent1 r1]| |] eqn:Hf; [|done..].
    rewrite bind_Ok. intros [= <- <-].
    destruct (IH _ _ _ _ Hf) as [Hlen _]. rewrite length_insert. split; [done|].
    apply list_lookup_insert_eq. rewrite Hlen. by eapply lookup_lt_Some.
  - apply dec_stable in Heq. intros [= <- <-]. by subst.
Qed.

Lemma find_state parent rank F i :
  uf_state n parent rank F → (i < n)%nat →
  ∃ parent' r,
    find n parent i = Ok (parent', r)
    ∧ uf_state n parent' rank F
    ∧ rep parent i r ∧ (r < n)%nat
    ∧ parent' !! r = Some r ∧ parent' !! i = Some r
    ∧ compressed parent parent'.
Proof.
  intros Hst Hi. pose proof (uf_state_fuel _ _ _ Hst) as HK.
  destruct Hst as [Hinv Hmod Hcount Hrange].
  destruct (find_spec _ _ _ _ n i Hinv Hi HK) as (parent' & r & Hf & Hr & Hroot & Hrn & Hc).
  exists parent', r. split_and!; try done.
  - split; [by eapply compressed_inv|by eapply compressed_models|done..].
  - by destruct (find_points_to_root _ _ _ _ _ Hf).
Qed.

(** [find] on a node that points to its root changes nothing. *)
Lemma find_again parent rank F i r :
  uf_state n parent rank F → (i < n)%nat →
  rep parent i r → parent !! i = Some r → 
  find n parent i = Ok (parent, r).
Proof.
  intros Hst Hi Hr Hir. destruct n as [|n'] eqn:Hn'; [lia|].
  destruct (decide (r = i)) as [->|Hne].
  - by apply find_at_root.
  - assert (Hroot : parent !! r = Some r).
    { destruct Hr as [d Hd]. by eapply root_of_is_root. }
    destruct n' as [|n''].
    { exfalso. apply lookup_lt_Some in Hroot.
      rewrite (uf_len_parent _ _ _ _ (us_inv _ _ _ _ Hst)) in Hroot. lia. }
    simpl. unfold getitem. rewrite Hir. simpl.
    rewrite decide_True by done. rewrite Hroot. simpl.
    rewrite decide_False by (intros ?; done). simpl.
    by rewrite list_insert_id.
Qed.
End UnionFindRuns.

Section UnionRuns.
Context (n : nat) (Hn : (0 < n)%nat).
Implicit Types (parent : list nat) (rank : list Z) (F : list edge).

(** [union] on the two roots that its own two [find]s return is the rest
    of [union] after them. *)
Lemma union_after_finds fuel parent rank x y parent1 px parent2 py :
  find fuel parent x = Ok (parent1, px) →
  find fuel parent1 y = Ok (parent2, py) →
  parent2 !! px = Some px → parent2 !! py = Some py →
  union fuel parent rank x y = union fuel parent2 rank px py.
Proof.
  intros H1 H2 Hpx Hpy. unfold union at 1. rewrite H1, bind_Ok. cbv beta iota.
  rewrite H2, bind_Ok. cbv beta iota.
  destruct fuel as [|fuel]; [done|].
  unfold union. rewrite (find_at_root _ _ _ Hpx), bind_Ok. cbv beta iota.
  by rewrite (find_at_root _ _ _ Hpy), bind_Ok.
Qed.

Lemma union_state parent rank F x y :
  uf_state n parent rank F → (x < n)%nat → (y < n)%nat →
  ∃ parent' rank' F',
    union n parent rank x y = Ok (parent', rank')
    ∧ uf_state n parent' rank' F'
    ∧ (∀ i j, conn F' i j ↔ conn ((x, y, 0) :: F) i j)
    ∧ (conn F x y → rank' = rank ∧ F' = F).
Proof.
  intros Hst Hx Hy.
  destruct (find_state n Hn _ _ _ x Hst Hx)
    as (parent1 & px & Hf1 & Hst1 & Hrx & Hpxn & Hpx1 & _ & Hc1).
  destruct (find_state n Hn _ _ _ y Hst1 Hy)
    as (parent2 & py & Hf2 & Hst2 & Hry & Hpyn & Hpy2 & _ & Hc2).
  pose proof (compressed_root _ _ _ Hc2 Hpx1) as Hpx2.
  pose proof (us_inv _ _ _ _ Hst) as Huf.
  pose proof (us_inv _ _ _ _ Hst1) as Huf1.
  pose proof (us_inv _ _ _ _ Hst2) as Huf2.
  pose proof (us_models _ _ _ _ Hst2) as Hmod2.
  assert (Hxu : rep parent2 x px).
  { apply (compressed_rep _ _ _ _ _ _ _ Huf1 Hc2 Hx).
    by apply (compressed_rep _ _ _ _ _ _ _ Huf Hc1 Hx). }
  assert (Hyv : rep parent2 y py).
  { by apply (compressed_rep _ _ _ _ _ _ _ Huf1 Hc2 Hy). }
  rewrite (union_after_finds _ _ _ _ _ _ _ _ _ Hf1 Hf2 Hpx2 Hpy2).
  destruct (decide (px = py)) as [Heq|Hne].
  - subst py.
    assert (Hc : conn F x y).
    { exact (models_same_root n parent2 F x y px Hmod2 Hx Hy Hxu Hyv). }
    exists parent2, rank, F. split_and!; [|done| |done].
    + destruct n as [|n']; [lia|]. unfold union.
      rewrite (find_at_root _ _ _ Hpx2), bind_Ok. cbv beta iota.
      rewrite (find_at_root _ _ _ Hpx2), bind_Ok. cbv beta iota.
      by rewrite decide_True.
    + intros i j. split; [apply conn_cons_weaken|by apply conn_cons_redundant].
  - assert (Hnc : ¬ conn F x y).
    { intros Hc. apply Hne. eapply rep_det; [exact Hxu|].
      exact (models_conn_root n parent2 F y x py Hmod2 Hy Hx (conn_sym _ _ _ Hc) Hyv). }
    destruct (union_roots _ _ _ _ n px py Huf2 Hn Hpx2 Hpy2 Hne)
      as (parent3 & rank3 & a & b & Hun & Hab & -> & Huf3).
    exists (<[b:=a]> parent2), rank3, (F ++ [(x, y, 0)]).
    split_and!; [done| |intros; apply conn_snoc|done].
    destruct Hst2 as [_ _ (reps & Hreps & Hcount) Hrange]. split.
    + rewrite length_app. simpl.
      by replace (Z.of_nat (length F + 1)) with (Z.of_nat (length F) + 1) by lia.
    + apply (link_models _ _ _ _ _ _ _ (x, y, 0) Huf2 Hmod2); try done.
      * destruct Hab as [[-> ->]|[-> ->]]; done.
      * destruct Hab as [[-> ->]|[-> ->]]; done.
      * destruct Hab as [[-> ->]|[-> ->]]; congruence.
      * destruct Hab as [[-> ->]|[-> ->]]; [left|right]; done.
    + destruct (transversal_cons _ _ _ (x, y, 0) Hreps Hx Hy Hnc) as (reps' & Hreps' & Hlen).
      exists reps'. split.
      * eapply transversal_ext; [|exact Hreps']. intros. symmetry. apply conn_snoc.
      * rewrite length_app. simpl. lia.
    + intros c [Hc| ->%list_elem_of_singleton]%elem_of_app; [by apply Hrange|done].
Qed.

Lemma conn_cons_iff e F G :
  (∀ i j, conn F i j ↔ conn G i j) → ∀ i j, conn (e :: F) i j ↔ conn (e :: G) i j.
Proof.
  intros H i j. split; apply conn_cons_incl; intros ??; apply H.
Qed.

Lemma unions_state ops : ∀ parent rank F G,
  uf_state n parent rank F →
  (∀ i j, conn F i j ↔ conn G i j) →
  Forall (λ p, (p.1 < n)%nat ∧ (p.2 < n)%nat) ops →
  ∃ parent' rank' F',
    unions n parent rank ops = Ok (parent', rank')
    ∧ uf_state n parent' rank' F'
    ∧ (∀ i j, conn F' i j ↔ conn ((pair_edge <$> ops) ++ G) i j).
Proof.
  induction ops as [|[x y] ops IH]; intros parent rank F G Hst HFG Hops.
  - exists parent, rank, F. by split_and!.
  - apply Forall_cons in Hops as [[Hx Hy] Hops]. simpl in Hx, Hy.
    destruct (union_state _ _ _ x y Hst Hx Hy) as (parent1 & rank1 & F1 & Hun & Hst1 & Hc1 & _).
    destruct (IH parent1 rank1 F1 ((x, y, 0) :: G) Hst1) as (parent2 & rank2 & F2 & Hun2 & Hst2 & Hc2);
      [|done|].
    { intros i j. rewrite Hc1. by apply conn_cons_iff. }
    exists parent2, rank2, F2. split_and!; [|done|].
    + simpl. rewrite Hun, bind_Ok. done.
    + intros i j. rewrite Hc2. split; apply conn_perm; simpl.
      * by rewrite <-Permutation_middle.
      * by rewrite <-Permutation_middle.
Qed.

(** The roots that [find] gives two nodes are equal exactly when the
    forest of the state connects them. *)
Lemma find_classes parent rank F i j :
  uf_state n parent rank F → (i < n)%nat → (j < n)%nat →
  ∃ pi ri pj rj,
    find n parent i = Ok (pi, ri) ∧ find n parent j = Ok (pj, rj)
    ∧ (ri = rj ↔ conn F i j).
Proof.
  intros Hst Hi Hj.
  destruct (find_state n Hn _ _ _ i Hst Hi) as (pi & ri & Hfi & _ & Hri & _).
  destruct (find_state n Hn _ _ _ j Hst Hj) as (pj & rj & Hfj & _ & Hrj & _).
  exists pi, ri, pj, rj. split_and!; [done..|].
  pose proof (us_models _ _ _ _ Hst) as Hmod. split.
  - intros <-. exact (models_same_root n parent F i j ri Hmod Hi Hj Hri Hrj).
  - intros Hc. eapply rep_det; [exact Hri|].
    exact (models_conn_root n parent F j i rj Hmod Hj Hi (conn_sym _ _ _ Hc) Hrj).
Qed.
End UnionRuns.

(** X1. Union-find is right. From the initial arrays [list(range(n))] and
    [[0] * n], any run of [union] calls on nodes below [n] succeeds, and
    afterwards [find] gives two nodes the same root exactly when the pairs
    of the calls connect them. *)
Theorem X1_unions_classes (n : nat) (ops : list (nat * nat)) (i j : nat) :
  Forall (λ p, (p.1 < n)%nat ∧ (p.2 < n)%nat) ops →
  (i < n)%nat → (j < n)%nat →
  ∃ parent rank pi ri pj rj,
    unions n (seq 0 n) (replicate n 0) ops = Ok (parent, rank)
    ∧ find n parent i = Ok (pi, ri)
    ∧ find n parent j = Ok (pj, rj)
    ∧ (ri = rj ↔ conn (pair_edge <$> ops) i j).
Proof.
  intros Hops Hi Hj. assert (Hn : (0 < n)%nat) by lia.
  destruct (unions_state n Hn ops _ _ [] [] (uf_state_start n Hn)) as
    (parent & rank & F & Hun & Hst & Hc); [done..|].
  destruct (find_classes n Hn parent rank F i j Hst Hi Hj) as (pi & ri & pj & rj & H1 & H2 & H3).
  exists parent, rank, pi, ri, pj, rj. split_and!; [done..|].
  rewrite H3, Hc. by rewrite app_nil_r.
Qed.

Lemma X1_witness :
  ∃ parent rank pi ri pj rj,
    unions 4 (seq 0 4) (replicate 4 0) [(0, 1); (2, 3); (1, 0)]%nat = Ok (parent, rank)
    ∧ find 4 parent 0 = Ok (pi, ri)
    ∧ find 4 parent 2 = Ok (pj, rj)
    ∧ (ri = rj ↔ conn (pair_edge <$> [(0, 1); (2, 3); (1, 0)]%nat) 0 2).
Proof.
  apply (X1_unions_classes 4 [(0, 1); (2, 3); (1, 0)]%nat 0 2).
  - repeat constructor; simpl; lia.
  - lia.
  - lia.
Defined.

(** X2. Path compression. On arrays that a run of [union] calls produced,
    [find] returns a root, leaves its node pointing to that root, keeps
    the length of [parent] and the root of every node, and a second
    [find] on the same node changes nothing. *)
Theorem X2_find_compresses (n : nat) (ops : list (nat * nat))
    (parent : list nat) (rank : list Z) (i : nat) :
  Forall (λ p, (p.1 < n)%nat ∧ (p.2 < n)%nat) ops →
  unions n (seq 0 n) (replicate n 0) ops = Ok (parent, rank) →
  (i < n)%nat →
  ∃ parent' r,
    find n parent i = Ok (parent', r)
    ∧ length parent' = length parent
    ∧ parent' !! r = Some r
    ∧ parent' !! i = Some r
    ∧ find n parent' i = Ok (parent', r)
    ∧ ∀ j, (j < n)%nat →
        ∃ p1 p2 rj, find n parent j = Ok (p1, rj) ∧ find n parent' j = Ok (p2, rj).
Proof.
  intros Hops Hun Hi. assert (Hn : (0 < n)%nat) by lia.
  destruct (unions_state n Hn ops _ _ [] [] (uf_state_start n Hn)) as
    (parent0 & rank0 & F & Hun0 & Hst & _); [done..|].
  rewrite Hun in Hun0. injection Hun0 as <- <-.
  destruct (find_state n Hn _ _ _ i Hst Hi)
    as (parent' & r & Hf & Hst' & Hr & Hrn & Hroot & Hir & Hc).
  pose proof (us_inv _ _ _ _ Hst) as Huf.
  exists parent', r. split_and!; try done.
  - by destruct Hc.
  - apply (find_again n Hn parent' rank F i r Hst' Hi); [|done].
    by apply (compressed_rep _ _ _ _ _ _ _ Huf Hc Hi).
  - intros j Hj.
    destruct (find_state n Hn _ _ _ j Hst Hj) as (p1 & rj & Hf1 & _ & Hrj & _).
    destruct (find_state n Hn _ _ _ j Hst' Hj) as (p2 & rj' & Hf2 & _ & Hrj' & _).
    exists p1, p2, rj. split; [done|].
    apply (compressed_rep _ _ _ _ _ _ _ Huf Hc Hj) in Hrj'.
    by rewrite (rep_det _ _ _ _ Hrj Hrj').
Qed.

Lemma X2_witness :
  ∃ parent' r,
    find 4 [0; 0; 0; 2]%nat 3 = Ok (parent', r)
    ∧ length parent' = length [0; 0; 0; 2]%nat
    ∧ parent' !! r = Some r
    ∧ parent' !! 3%nat = Some r
    ∧ find 4 parent' 3 = Ok (parent', r)
    ∧ ∀ j, (j < 4)%nat →
        ∃ p1 p2 rj, find 4 [0; 0; 0; 2]%nat j = Ok (p1, rj) ∧ find 4 parent' j = Ok (p2, rj).
Proof.
  apply (X2_find_compresses 4 [(0, 1); (2, 3); (1, 3)]%nat [0; 0; 0; 2]%nat [2; 0; 1; 0] 3).
  - repeat constructor; simpl; lia.
  - vm_compute. reflexivity.
  - lia.
Defined.

(** ** The constructor *)

Section ConstructorFacts.
Implicit Types (g : Graph) (adj : list (list (nat * Z))) (es : list edge).

Lemma foldl_insert_imap (l : list nat) : ∀ (f : nat → nat) (m0 : gmap nat nat),
  NoDup l → (∀ x, x ∈ l → m0 !! x = None) →
  ∀ k i, foldl (λ m p, <[p.2 := p.1]> m) m0 (imap (λ j x, (f j, x)) l) !! k = Some i
         ↔ m0 !! k = Some i ∨ ∃ j, l !! j = Some k ∧ i = f j.
Proof.
  induction l as [|x l IH]; intros f m0 Hnd Hm0 k i; simpl.
  - split; [by left|]. intros [H|(j & Hj & _)]; [done|]. by rewrite lookup_nil in Hj.
  - apply NoDup_cons in Hnd as [Hx Hnd].
    rewrite (IH (f ∘ S) (<[x := f 0%nat]> m0) Hnd).
    + split.
      * intros [H|(j & Hj & ->)]; [|right; by exists (S j)].
        destruct (decide (x = k)) as [->|Hne].
        -- rewrite lookup_insert_eq in H. injection H as <-. right. by exists 0%nat.
        -- rewrite lookup_insert_ne in H by done. by left.
      * intros [H|(j & Hj & ->)].
        -- left. destruct (decide (x = k)) as [->|Hne].
           ++ rewrite Hm0 in H; [done|by left].
           ++ by rewrite lookup_insert_ne.
        -- destruct j as [|j]; simpl in Hj.
           ++ injection Hj as ->. left. by rewrite lookup_insert_eq.
           ++ right. by exists j.
    + intros y Hy. rewrite lookup_insert_ne; [apply Hm0; by right|].
      intros ->. done.
Qed.

(** Without repeated labels, [node_map] sends each label to its position. *)
Lemma node_map_lookup g k i :
  NoDup (nodes g) → node_map g !! k = Some i ↔ nodes g !! i = Some k.
Proof.
  intros Hnd. unfold node_map.
  rewrite (foldl_insert_imap (nodes g) (λ j, j) ∅ Hnd); [|intros; apply lookup_empty].
  rewrite lookup_empty. split.
  - intros [H|(j & Hj & ->)]; done.
  - intros H. right. by exists i.
Qed.

Lemma remap_edges_ok g l :
  NoDup (nodes g) →
  (∀ e, e ∈ l → e.1.1 ∈ nodes g ∧ e.1.2 ∈ nodes g) →
  ∃ es, remap_edges (node_map g) l = Ok es ∧ Forall2 (renamed g) l es.
Proof.
  intros Hnd. induction l as [|[[u v] w] l IH]; intros Hl; simpl.
  - exists []. by split.
  - destruct (Hl (u, v, w)) as [Hu Hv]; [by left|]. simpl in Hu, Hv.
    apply list_elem_of_lookup in Hu as [iu Hiu]. apply list_elem_of_lookup in Hv as [iv Hiv].
    unfold map_getitem.
    rewrite (proj2 (node_map_lookup g u iu Hnd) Hiu), bind_Ok.
    rewrite (proj2 (node_map_lookup g v iv Hnd) Hiv), bind_Ok.
    destruct IH as (es & -> & Hes); [intros e He; apply Hl; by right|].
    rewrite bind_Ok. eexists. split; [done|]. by constructor.
Qed.

Lemma sum_list_insert_snoc adj : ∀ u l x,
  adj !! u = Some l →
  sum_list (length <$> <[u := l ++ [x]]> adj) = S (sum_list (length <$> adj)).
Proof.
  induction adj as [|l0 adj IH]; intros [|u] l x Hl; simplify_eq/=.
  - rewrite length_app. simpl. lia.
  - rewrite (IH u l x Hl). lia.
Qed.

(** The constructor's loop over the edges, from any lists [adj0]. *)
Lemma build_adj_exact es : ∀ adj0,
  edges_in_range (length adj0) es →
  ∃ adj, build_adj adj0 es = Ok adj
    ∧ length adj = length adj0
    ∧ (∀ u l0, adj0 !! u = Some l0 → adj !! u = Some (l0 ++ incident u es))
    ∧ sum_list (length <$> adj) = (sum_list (length <$> adj0) + 2 * length es)%nat.
Proof.
  induction es as [|[[a b] c] es IH]; intros adj0 Hr; simpl.
  - exists adj0. split_and!; [done..| |lia]. intros u l0 H. by rewrite app_nil_r.
  - destruct (Hr (a, b, c)) as [Ha Hb]; [by left|]. simpl in Ha, Hb.
    destruct (lookup_lt_is_Some_2 adj0 a Ha) as [la Hla].
    unfold adj_append, getitem. rewrite Hla, !bind_Ok.
    set (adj1 := <[a := la ++ [(b, c)]]> adj0).
    assert (Hlen1 : length adj1 = length adj0) by apply length_insert.
    change (a < length adj0)%nat in Ha. change (b < length adj0)%nat in Hb.
    assert (Hb1 : (b < length adj1)%nat) by lia.
    destruct (lookup_lt_is_Some_2 adj1 b Hb1) as [lb Hlb].
    rewrite Hlb, !bind_Ok.
    set (adj2 := <[b := lb ++ [(a, c)]]> adj1).
    assert (Hlen2 : length adj2 = length adj0) by (unfold adj2; by rewrite length_insert).
    destruct (IH adj2) as (adj & -> & Hlen & Hlook & Hsum).
    { rewrite Hlen2. intros e He. apply Hr. by right. }
    exists adj. split_and!; [done|lia| |].
    + intros u l0 Hu.
      assert (adj2 !! u = Some (l0 ++ (if decide (a = u) then [(b, c)] else [])
                                   ++ (if decide (b = u) then [(a, c)] else []))) as H2.
      { unfold adj2. destruct (decide (b = u)) as [->|Hbu].
        - rewrite list_lookup_insert_eq by lia.
          f_equal. unfold adj1 in Hlb. destruct (decide (a = u)) as [->|Hau].
          + rewrite list_lookup_insert_eq in Hlb by lia. simplify_eq.
            by rewrite <-!app_assoc.
          + rewrite list_lookup_insert_ne in Hlb by done. by simplify_eq.
        - rewrite list_lookup_insert_ne by done. unfold adj1.
          destruct (decide (a = u)) as [->|Hau].
          + rewrite list_lookup_insert_eq by lia. simplify_eq. by rewrite app_nil_r.
          + rewrite list_lookup_insert_ne by done. by rewrite !app_nil_r. }
      rewrite (Hlook u _ H2). f_equal. by rewrite <-!app_assoc.
    + rewrite Hsum. unfold adj2. rewrite (sum_list_insert_snoc _ _ _ _ Hlb).
      unfold adj1. rewrite (sum_list_insert_snoc _ _ _ _ Hla). lia.
Qed.

Lemma renamed_range g l es :
  Forall2 (renamed g) l es → edges_in_range (length (nodes g)) es.
Proof.
  intros H e He. apply list_elem_of_lookup in He as [i Hi].
  destruct (Forall2_lookup_r _ _ _ _ _ H Hi) as (e0 & _ & H1 & H2 & _).
  split; by eapply lookup_lt_Some.
Qed.
End ConstructorFacts.

(** X3. The constructor on a graph whose node labels are distinct and whose
    edges are between its nodes, as networkx keeps them: it succeeds,
    [num_nodes] is the number of labels, [edges_list] is the graph's edges
    in order with each end replaced by the position of its label, all
    ends are below [num_nodes], and the three metrics are zero. *)
Theorem X3_init_renames (g : Graph) :
  NoDup (nodes g) → closed_graph g →
  ∃ self,
    init g = Ok self
    ∧ num_nodes self = length (nodes g)
    ∧ Forall2 (renamed g) (edges g) (edges_list self)
    ∧ edges_in_range (num_nodes self) (edges_list self)
    ∧ get_metrics self = mkMetrics 0 0 0.
Proof.
  intros Hnd Hcl. unfold init.
  destruct (remap_edges_ok g (edges g) Hnd Hcl) as (es & -> & Hes). rewrite bind_Ok.
  pose proof (renamed_range g _ _ Hes) as Hr.
  destruct (build_adj_exact es (replicate (length (nodes g)) []))
    as (adj & -> & _); [by rewrite length_replicate|].
  rewrite bind_Ok. eexists. split; [done|]. by split_and!.
Qed.

Lemma X3_witness :
  ∃ self,
    init (mkGraph [7; 5; 9]%nat [(5%nat, 9%nat, 2); (7%nat, 5%nat, 1)]) = Ok self
    ∧ num_nodes self = 3%nat
    ∧ Forall2 (renamed (mkGraph [7; 5; 9]%nat [(5%nat, 9%nat, 2); (7%nat, 5%nat, 1)]))
        [(5%nat, 9%nat, 2); (7%nat, 5%nat, 1)] (edges_list self)
    ∧ edges_in_range (num_nodes self) (edges_list self)
    ∧ get_metrics self = mkMetrics 0 0 0.
Proof.
  apply (X3_init_renames (mkGraph [7; 5; 9]%nat [(5%nat, 9%nat, 2); (7%nat, 5%nat, 1)])).
  - simpl. repeat constructor; rewrite ?elem_of_cons, ?elem_of_nil; lia.
  - intros e He. simpl in He.
    repeat (apply elem_of_cons in He as [->|He];
            [simpl; rewrite !elem_of_cons; split; lia|]).
    by apply elem_of_nil in He.
Defined.

(** X4. The adjacency lists that the constructor builds: one list per
    node; the list of node [u] holds, for each edge at [u] in the order of
    [edges_list], the other end and the weight (twice for a loop at [u]);
    and the lengths of the lists add up to twice the number of edges. *)
Theorem X4_init_adjacency (g : Graph) (self : MSTAlgorithms) :
  init g = Ok self →
  length (adj_list self) = num_nodes self
  ∧ (∀ u, (u < num_nodes self)%nat →
       adj_list self !! u = Some (incident u (edges_list self)))
  ∧ sum_list (length <$> adj_list self) = (2 * length (edges_list self))%nat.
Proof.
  intros Hinit. destruct (init_well_formed g self Hinit) as [Hr Hb].
  destruct (build_adj_exact (edges_list self) (replicate (num_nodes self) []))
    as (adj & Hadj & Hlen & Hlook & Hsum); [by rewrite length_replicate|].
  rewrite Hb in Hadj. injection Hadj as <-.
  rewrite length_replicate in Hlen. split_and!; [done| |].
  - intros u Hu. apply (Hlook u []). by apply lookup_replicate.
  - rewrite Hsum. rewrite fmap_replicate. simpl.
    assert (∀ k, sum_list (replicate k 0%nat) = 0%nat) as ->; [|lia].
    induction k; simpl; lia.
Qed.

Lemma X4_witness :
  length (adj_list (instance_of graph4)) = num_nodes (instance_of graph4)
  ∧ (∀ u, (u < num_nodes (instance_of graph4))%nat →
       adj_list (instance_of graph4) !! u = Some (incident u (edges_list (instance_of graph4))))
  ∧ sum_list (length <$> adj_list (instance_of graph4))
    = (2 * length (edges_list (instance_of graph4)))%nat.
Proof.
  apply (X4_init_adjacency graph4 (instance_of graph4)).
  vm_compute. reflexivity.
Defined.

(** ** Kruskal on any graph *)

Section ForestCut.
Context (D : nat → nat → Prop) (E T : list edge).
Implicit Types (F R : list edge) (e c : edge).

Lemma promising_for_start :
  edges_of E T → (∀ x y, D x y → conn T x y) → promising_for D E T [].
Proof. intros H1 H2. exists T. simpl. split_and!; [done..|lia]. Qed.

Lemma promising_for_step (S : nat → Prop) `{!∀ x, Decision (S x)} F e :
  promising_for D E T F →
  (∀ c, c ∈ F → S (src c) ↔ S (dst c)) →
  (∀ G, (∀ x y, D x y → conn G x y) → conn G (src e) (dst e)) →
  S (src e) → ¬ S (dst e) →
  (∀ c, c ∈ E ∨ flip c ∈ E → ¬ (S (src c) ↔ S (dst c)) → weight e ≤ weight c) →
  promising_for D E T (F ++ [e]).
Proof.
  intros (R & HR & Hsp & Hw) HF He Hs Hd Hmin.
  destruct (exchange S e R F HF Hs Hd (He _ Hsp)) as (c & R' & HP & Hc & Hsub).
  assert (Hc' : c ∈ R) by (rewrite HP; by left).
  exists R'. split_and!.
  - intros a Ha. apply HR. rewrite HP. by right.
  - intros x y Hxy. eapply conn_perm; [|apply Hsub, Hsp; done].
    rewrite <-app_assoc. simpl. by rewrite Permutation_middle.
  - rewrite total_weight_app. rewrite (total_weight_perm _ _ HP) in Hw.
    specialize (Hmin c (HR c Hc') Hc).
    unfold total_weight in *. simpl in *. lia.
Qed.

Lemma promising_for_end F :
  (∀ e, e ∈ E → 0 ≤ weight e) → promising_for D E T F →
  total_weight F ≤ total_weight T.
Proof.
  intros Hpos (R & HR & _ & Hw).
  assert (0 ≤ total_weight R); [|lia].
  apply total_weight_nonneg. intros e He.
  destruct (HR e He) as [H|H]; apply Hpos in H; by rewrite ?weight_flip in H.
Qed.
End ForestCut.

Section KruskalForest.
Context (n : nat) (E T : list edge).
Context (Hn : (0 < n)%nat) (HE : edges_in_range n E).

(** An iteration appends the edge or leaves the edges as they are. *)
Lemma kruskal_body_edges fuel st e st' :
  kruskal_body fuel st e = Ok st' →
  ks_mst_edges st' = ks_mst_edges st ∨ ks_mst_edges st' = ks_mst_edges st ++ [e].
Proof.
  destruct e as [[u v] w]. unfold kruskal_body.
  destruct (find fuel (ks_parent st) u) as [[parent1 x]| |]; [|done..]. rewrite bind_Ok.
  cbv beta iota.
  destruct (find fuel parent1 v) as [[parent2 y]| |]; [|done..]. rewrite bind_Ok.
  cbv beta iota. destruct (decide (x ≠ y)).
  - destruct (union fuel parent2 (ks_rank st) x y) as [[parent3 rank3]| |]; [|done..].
    rewrite bind_Ok. intros [= <-]. by right.
  - intros [= <-]. by left.
Qed.

Lemma kruskal_body_forest P st e st' :
  kruskal_inv n E P st → kruskal_inv n E (P ++ [e]) st' →
  kruskal_body n st e = Ok st' →
  e ∈ E →
  (∀ c, c ∈ E ∨ flip c ∈ E → c ∈ P ∨ flip c ∈ P ∨ weight e ≤ weight c) →
  promising_for (conn E) E T (ks_mst_edges st) →
  promising_for (conn E) E T (ks_mst_edges st').
Proof.
  intros Hinv Hinv' Hbody He Hmin Hprom.
  destruct (kruskal_body_edges _ _ _ _ Hbody) as [->|Heq]; [done|].
  rewrite Heq. destruct (HE e He) as [Hu Hv].
  destruct Hinv as [Huf Hmod (reps & Hreps & Hcount) _ Hrange _ Hdone _].
  pose proof (transversal_nonempty n Hn _ _ Hreps) as Hne.
  assert (HK : Z.of_nat (length (ks_mst_edges st)) < Z.of_nat n) by lia.
  assert (Hnc : ¬ conn (ks_mst_edges st) (src e) (dst e)).
  { pose proof (ki_acyclic _ _ _ _ Hinv') as Hac. rewrite Heq in Hac.
    intros Hc. apply (Hac (ks_mst_edges st) e [] eq_refl). by rewrite app_nil_r. }
  destruct (find_spec _ _ _ _ n (src e) Huf Hu HK) as (parent1 & x & _ & Hx & _).
  set (F := ks_mst_edges st) in *. set (parent := ks_parent st) in *.
  assert (HS : ∀ z, (z < n)%nat → same_root n parent x z = true ↔ conn F z (src e)).
  { intros z Hz. rewrite (same_root_rep n _ _ _ x z Huf HK Hz). split.
    - intros Hzx. exact (models_same_root n parent F z (src e) x Hmod Hz Hu Hzx Hx).
    - intros Hc.
      exact (models_conn_root n parent F (src e) z x Hmod Hu Hz (conn_sym _ _ _ Hc) Hx). }
  assert (HSc : ∀ c, (src c < n)%nat → (dst c < n)%nat → conn F (src c) (dst c) →
            same_root n parent x (src c) = true ↔ same_root n parent x (dst c) = true).
  { intros c Hc1 Hc2 Hc. rewrite !HS by done. split; intros H'.
    - eapply conn_trans; [by apply conn_sym|done].
    - eapply conn_trans; [done|done]. }
  apply (promising_for_step (conn E) E T (λ z, same_root n parent x z = true)); try done.
  - intros c Hc. destruct (Hrange c Hc). apply HSc; [done..|]. by apply conn_edge.
  - intros G HG. by apply HG, conn_edge.
  - simpl. apply HS; [done|]. apply conn_refl.
  - simpl. rewrite HS by done. intros Hc. by apply Hnc, conn_sym.
  - intros c Hc Hcross.
    assert ((src c < n)%nat ∧ (dst c < n)%nat) as [Hc1 Hc2].
    { destruct Hc as [Hc|Hc]; destruct (HE _ Hc); done. }
    destruct (Hmin c Hc) as [Hp|[Hp|Hw]]; [| |done].
    + exfalso. apply Hcross, HSc; [done..|]. by apply Hdone in Hp.
    + exfalso. apply Hcross, HSc; [done..|]. apply Hdone in Hp. by apply conn_sym.
Qed.

Lemma kruskal_loop_forest es : ∀ P st st',
  kruskal_inv n E P st →
  (∀ c, c ∈ E → c ∈ P ++ es) →
  (∀ c, c ∈ es → c ∈ E) →
  StronglySorted weight_le (P ++ es) →
  promising_for (conn E) E T (ks_mst_edges st) →
  kruskal_loop n st es = Ok st' →
  promising_for (conn E) E T (ks_mst_edges st').
Proof.
  induction es as [|e es IH]; intros P st st' Hinv Hall Hsub Hsorted Hprom; simpl.
  { by intros [= <-]. }
  assert (Hmin : ∀ c, c ∈ E ∨ flip c ∈ E → c ∈ P ∨ flip c ∈ P ∨ weight e ≤ weight c).
  { apply StronglySorted_app_1_r, StronglySorted_cons in Hsorted as [Hle _].
    rewrite Forall_forall in Hle.
    assert (Hin : ∀ c, c ∈ E → c ∈ P ∨ weight e ≤ weight c).
    { intros c Hc. apply Hall in Hc.
      apply elem_of_app in Hc as [Hc|Hc]; [by left|right].
      apply elem_of_cons in Hc as [->|Hc]; [lia|]. by apply Hle. }
    intros c [Hc|Hc]; apply Hin in Hc; rewrite ?weight_flip in Hc; tauto. }
  assert (He : e ∈ E) by (apply Hsub; by left).
  destruct (HE e He) as [Hu Hv].
  destruct (kruskal_body_spec n E Hn HE P st e Hinv Hu Hv Hmin)
    as (st1 & Hbody & Hinv1 & _).
  rewrite Hbody, bind_Ok. apply (IH (P ++ [e]) st1 st'); try done.
  - intros c Hc. rewrite <-app_assoc. by apply Hall.
  - intros c Hc. apply Hsub. by right.
  - by rewrite <-app_assoc.
  - by apply (kruskal_body_forest P st e st1).
Qed.
End KruskalForest.

(** X5. On any graph with at least one node, connected or not,
    [kruskal_mst] returns without error a spanning forest of the graph:
    edges of the graph, without a cycle, that connect two nodes exactly
    when the graph connects them. *)
Theorem X5_kruskal_spanning_forest (self : MSTAlgorithms) (t0 t1 : Q) :
  well_formed self →
  (1 ≤ num_nodes self)%nat →
  ∃ K s,
    kruskal_mst t0 t1 self = Ok (K, None, s)
    ∧ spanning_forest (edges_list self) K
    ∧ ∀ x y, conn K x y ↔ conn (edges_list self) x y.
Proof.
  intros [HE _] Hn.
  destruct (kruskal_mst_spec self t0 t1 ltac:(lia) HE) as (K & Hrun & Hac & Hsub & Hconn & _).
  eexists K, _. split; [exact Hrun|]. split; [|done]. split_and!; [|done|].
  - intros e He. left. rewrite <-(sorted_perm (edges_list self)). by eapply elem_of_sublist.
  - intros x y. apply Hconn.
Qed.

Lemma X5_witness :
  ∃ K s,
    kruskal_mst 0 1 (instance_of graph3) = Ok (K, None, s)
    ∧ spanning_forest (edges_list (instance_of graph3)) K
    ∧ ∀ x y, conn K x y ↔ conn (edges_list (instance_of graph3)) x y.
Proof.
  apply (X5_kruskal_spanning_forest (instance_of graph3) 0 1).
  - apply instance_of_well_formed.
  - vm_compute. lia.
Defined.

Lemma kruskal_mst_minimal (self : MSTAlgorithms) (t0 t1 : Q) :
  well_formed self →
  (0 < num_nodes self)%nat →
  (∀ e, e ∈ edges_list self → 0 ≤ weight e) →
  ∃ K s,
    kruskal_mst t0 t1 self = Ok (K, None, s)
    ∧ spanning_forest (edges_list self) K
    ∧ minimal_forest (edges_list self) K.
Proof.
  intros [HE _] Hn' Hpos.
  destruct (kruskal_mst_spec self t0 t1 Hn' HE) as (K & Hrun & Hac & Hsub & Hconn & _).
  eexists K, _. split; [exact Hrun|]. split.
  { split_and!; [|done|intros x y; apply Hconn].
    intros e He. left. rewrite <-(sorted_perm (edges_list self)). by eapply elem_of_sublist. }
  intros T HT Hcov.
  apply (promising_for_end (conn (edges_list self)) (edges_list self) T K Hpos).
  revert Hrun. unfold kruskal_mst. cbv zeta.
  change (num_nodes (reset_metrics self)) with (num_nodes self).
  rewrite decide_False by lia. unfold kruskal_sort_phase. cbv zeta.
  change (num_nodes (reset_metrics self)) with (num_nodes self).
  change (edges_list (reset_metrics self)) with (edges_list self).
  cbv beta iota.
  match goal with |- context [kruskal_loop _ ?st0 _] => set (st := st0) end.
  destruct (kruskal_loop (num_nodes self) st (sorted (edges_list self)))
    as [st'| |] eqn:Hloop; [|done..].
  rewrite bind_Ok. intros [= <-].
  apply (kruskal_loop_forest (num_nodes self) (edges_list self) T Hn' HE
           (sorted (edges_list self)) [] st st'); try done.
  - destruct (kruskal_inv_start (num_nodes self) (edges_list self) Hn'). by split.
  - intros c Hc. simpl. by rewrite sorted_perm.
  - intros c Hc. by rewrite <-(sorted_perm (edges_list self)).
  - apply sorted_sorted.
  - by apply promising_for_start.
Qed.

(** An instance without nodes has no edges. *)
Lemma no_nodes_no_edges (self : MSTAlgorithms) :
  well_formed self → num_nodes self = 0%nat → edges_list self = [].
Proof.
  intros [HE _] Hn. destruct (edges_list self) as [|e l]; [done|].
  destruct (HE e); [by left|lia].
Qed.

(** X6. On any graph without negative weights, connected or not, the edges
    that [kruskal_mst] returns are a minimum spanning forest: they are
    edges of the graph, have no cycle, connect whatever the graph
    connects, and weigh no more than any set of edges of the graph that
    connects whatever the graph connects. *)
Theorem X6_kruskal_minimum_forest (self : MSTAlgorithms) (t0 t1 : Q) :
  well_formed self →
  (∀ e, e ∈ edges_list self → 0 ≤ weight e) →
  ∃ K err s,
    kruskal_mst t0 t1 self = Ok (K, err, s)
    ∧ spanning_forest (edges_list self) K
    ∧ minimal_forest (edges_list self) K.
Proof.
  intros Hwf Hpos. destruct (decide (num_nodes self = 0%nat)) as [Hn|Hn].
  - eexists [], _, _. split_and!.
    + unfold kruskal_mst. cbv zeta.
      change (num_nodes (reset_metrics self)) with (num_nodes self).
      by rewrite decide_True by done.
    + rewrite (no_nodes_no_edges self Hwf Hn). split_and!.
      * intros e He. by apply elem_of_nil in He.
      * apply acyclic_nil.
      * by intros x y.
    + intros T HT _. apply total_weight_nonneg. intros e He.
      destruct (HT e He) as [H|H]; apply Hpos in H; by rewrite ?weight_flip in H.
  - destruct (kruskal_mst_minimal self t0 t1 Hwf ltac:(lia) Hpos) as (K & s & Hrun & HK & Hmin).
    by eexists K, _, _.
Qed.

Lemma X6_witness :
  ∃ K err s,
    kruskal_mst 0 1 (instance_of graph3) = Ok (K, err, s)
    ∧ spanning_forest (edges_list (instance_of graph3)) K
    ∧ minimal_forest (edges_list (instance_of graph3)) K.
Proof.
  apply (X6_kruskal_minimum_forest (instance_of graph3) 0 1).
  - apply instance_of_well_formed.
  - intros e He. vm_compute in He.
    apply list_elem_of_singleton in He as ->. vm_compute. discriminate.
Defined.

(** X7. The two counters after [kruskal_mst] on a graph with at least one
    node and [m] edges, whatever the metrics were before and whatever the
    shape of the graph: [iterations] is [m] and [edge_comparisons] is
    [m * (m.bit_length() - 1) + m]. *)
Theorem X7_kruskal_metrics (self : MSTAlgorithms) (t0 t1 : Q) (before : Metrics) :
  well_formed self →
  (1 ≤ num_nodes self)%nat →
  ∃ K s,
    kruskal_mst t0 t1 (set_metrics self before) = Ok (K, None, s)
    ∧ iterations (get_metrics s) = Z.of_nat (length (edges_list self))
    ∧ edge_comparisons (get_metrics s)
      = Z.of_nat (length (edges_list self))
        * (bit_length (Z.of_nat (length (edges_list self))) - 1)
        + Z.of_nat (length (edges_list self)).
Proof.
  intros [HE _] Hn.
  destruct (kruskal_mst_spec (set_metrics self before) t0 t1 ltac:(simpl; lia) HE)
    as (K & Hrun & _).
  eexists K, _. split; [exact Hrun|]. done.
Qed.

Lemma X7_witness :
  ∃ K s,
    kruskal_mst 0 1 (set_metrics (instance_of graph4) (mkMetrics 7 8 9)) = Ok (K, None, s)
    ∧ iterations (get_metrics s) = Z.of_nat (length (edges_list (instance_of graph4)))
    ∧ edge_comparisons (get_metrics s)
      = Z.of_nat (length (edges_list (instance_of graph4)))
        * (bit_length (Z.of_nat (length (edges_list (instance_of graph4)))) - 1)
        + Z.of_nat (length (edges_list (instance_of graph4))).
Proof.
  apply (X7_kruskal_metrics (instance_of graph4) 0 1 (mkMetrics 7 8 9)).
  - apply instance_of_well_formed.
  - vm_compute. lia.
Defined.

(** ** Prim on any graph *)

Lemma conn_edges_of E F x y : edges_of E F → conn F x y → conn E x y.
Proof.
  intros HF. induction 1 as [x|e He|x y H IH|x y z H1 IH1 H2 IH2].
  - apply conn_refl.
  - destruct (HF e He) as [H|H]; [by apply conn_edge|by apply conn_flip].
  - by apply conn_sym.
  - by eapply conn_trans.
Qed.

Section PrimSteps.
Context (adj : list (list (nat * Z))).
Implicit Types (st : prim_state).

(** A push goes with one count in [edge_comparisons]. *)
Lemma relax_balance u st vw :
  Z.of_nat (length (ps_heap (relax u st vw))) - ps_edge_comparisons (relax u st vw)
  = Z.of_nat (length (ps_heap st)) - ps_edge_comparisons st.
Proof.
  destruct vw as [v w]. unfold relax, push_candidate, heappush.
  repeat (case_decide || case_match); simpl; rewrite ?length_app; simpl; lia.
Qed.

Lemma foldl_relax_balance u nbrs : ∀ st,
  Z.of_nat (length (ps_heap (foldl (relax u) st nbrs)))
  - ps_edge_comparisons (foldl (relax u) st nbrs)
  = Z.of_nat (length (ps_heap st)) - ps_edge_comparisons st.
Proof.
  induction nbrs as [|vw nbrs IH]; intros st; simpl; [done|].
  by rewrite IH, relax_balance.
Qed.

(** What one iteration of [while heap] does to the counters and to the
    edges. *)
Lemma prim_body_shape st st' :
  prim_body adj st = Ok st' →
  ps_iterations st' = ps_iterations st + 1
  ∧ Z.of_nat (length (ps_heap st')) - ps_edge_comparisons st' + 2
    = Z.of_nat (length (ps_heap st)) - ps_edge_comparisons st
  ∧ (ps_mst_edges st' = ps_mst_edges st
     ∨ ∃ w u p h', heappop (ps_heap st) = Some ((w, u, Some p), h')
         ∧ (u ∉ ps_visited st)
         ∧ ps_mst_edges st' = ps_mst_edges st ++ [(p, u, w)]).
Proof.
  unfold prim_body.
  destruct (heappop (ps_heap st)) as [[[[w u] p] h']|] eqn:Hpop; [|done].
  destruct (heappop_spec _ _ _ Hpop) as [Hperm _].
  assert (Hlen : length (ps_heap st) = S (length h')) by by rewrite Hperm.
  destruct (decide (u ∈ ps_visited st)) as [Hu|Hu].
  - intros [= <-]. simpl. split_and!; [done|lia|by left].
  - destruct (decide (ps_in_heap st !! u = None)); [done|].
    unfold getitem. destruct (adj !! u) as [nbrs|]; [|done]. rewrite bind_Ok.
    intros [= <-].
    rewrite foldl_relax_iterations, foldl_relax_balance, foldl_relax_mst_edges. simpl.
    split_and!; [done|lia|].
    destruct p as [p|]; [right|by left]. by exists w, u, p, h'.
Qed.

Lemma prim_loop_reachable fuel : ∀ st0 st st',
  prim_reachable adj st0 st → prim_loop fuel adj st = Ok st' →
  prim_reachable adj st0 st' ∧ ps_heap st' = [].
Proof.
  induction fuel as [|fuel IH]; intros st0 st st' Hreach; simpl.
  - destruct (ps_heap st) eqn:Hh; [|done]. intros [= <-]. done.
  - destruct (ps_heap st) eqn:Hh; [intros [= <-]; done|].
    destruct (prim_body adj st) as [st1| |] eqn:Hbody; [|done..]. rewrite bind_Ok.
    apply IH. apply (reach_step _ _ st st1); [done| |done]. by rewrite Hh.
Qed.
End PrimSteps.

Section PrimRuns.
Context (self : MSTAlgorithms) (Hwf : well_formed self).
Context (Hn : (0 < num_nodes self)%nat).

(** The counters in every state of a run of the loop. *)
Lemma reachable_counters st :
  prim_reachable (adj_list self) (prim_init self) st →
  Z.of_nat (length (ps_heap st)) - ps_edge_comparisons st + 2 * ps_iterations st = 1
  ∧ ps_iterations st + Z.of_nat (prim_measure (adj_list self) st)
    ≤ Z.of_nat (prim_fuel self)
  ∧ ((ps_heap st = [(0, 0%nat, None)] ∧ ps_mst_edges st = [] ∧ ps_iterations st = 0)
     ∨ Z.of_nat (length (ps_mst_edges st)) + 1 ≤ ps_iterations st).
Proof.
  destruct (well_formed_adj self Hwf) as [Hlen Hadj]. pose proof Hwf as [HE _].
  induction 1 as [|st st' Hreach IH Hne Hbody].
  - unfold prim_init, prim_measure, prim_fuel. simpl.
    rewrite pending_from_empty. split_and!; [lia|lia|by left].
  - destruct IH as (IH1 & IH2 & IH3).
    destruct (prim_body_shape _ _ _ Hbody) as (Hit & Hbal & Hed).
    assert (Z.of_nat (length (ps_mst_edges st')) + 1 ≤ ps_iterations st').
    { destruct IH3 as [(Hh & Hm & Hi)|IH3].
      - destruct Hed as [->|(w & u & p & h' & Hpop & _)].
        + rewrite Hm. simpl. lia.
        + by rewrite Hh in Hpop.
      - destruct Hed as [->|(w & u & p & h' & _ & _ & ->)]; [lia|].
        rewrite length_app. simpl. lia. }
    assert (prim_measure (adj_list self) st' < prim_measure (adj_list self) st)%nat.
    { destruct (reachable_inv self Hwf st Hreach) as [Hs|Hi].
      - destruct (prim_body_seed _ (edges_list self) _ Hn HE Hlen st Hs) as (st1 & H1 & _ & Hm).
        rewrite Hbody in H1. by injection H1 as <-.
      - destruct (prim_body_main _ _ _ Hn HE Hlen Hadj st Hi Hne) as (st1 & H1 & _ & Hm).
        rewrite Hbody in H1. by injection H1 as <-. }
    split_and!; [lia|lia|by right].
Qed.

(** The edges chosen in every state of a run can be completed to a
    lightest set of edges that connects the component of node 0. *)
Lemma reachable_promising T st :
  edges_of (edges_list self) T →
  (∀ x, conn (edges_list self) 0%nat x → conn T 0%nat x) →
  prim_reachable (adj_list self) (prim_init self) st →
  promising_for (component_of_root (edges_list self)) (edges_list self) T (ps_mst_edges st).
Proof.
  destruct (well_formed_adj self Hwf) as [Hlen Hadj]. pose proof Hwf as [HE _].
  intros HT Hcov. induction 1 as [|st st' Hreach IH Hne Hbody].
  - apply promising_for_start; [done|]. intros x y [Hx Hy].
    eapply conn_trans; [apply conn_sym|]; by apply Hcov.
  - destruct (prim_body_shape _ _ _ Hbody) as (_ & _ & [->|(w & u & p & h' & Hpop & Hu & ->)]);
      [done|].
    destruct (reachable_inv self Hwf st Hreach) as [(Hh & _)|Hinv].
    { rewrite Hh in Hpop. done. }
    destruct Hinv as [[Hroot Hrange Hedges Hconn _ _ _ _ _ _] [Hent Hmap Hfront]].
    destruct (heappop_spec _ _ _ Hpop) as [Hperm Hmin].
    assert (Hin : (w, u, Some p) ∈ ps_heap st) by (rewrite Hperm; by left).
    destruct (Hent _ _ _ Hin) as (p' & [= <-] & Hp & Hpu).
    set (F := ps_mst_edges st) in *. set (V := ps_visited st) in *.
    assert (Hclosed : ∀ c, c ∈ F → src c ∈ V ↔ dst c ∈ V).
    { intros c Hc. destruct (Hedges c Hc) as (? & ? & _). tauto. }
    assert (HF : edges_of (edges_list self) F).
    { intros c Hc. by destruct (Hedges c Hc) as (_ & _ & ?). }
    apply (promising_for_step _ _ T (λ z, z ∈ V)); try done.
    + intros G HG. apply HG. 
      assert (conn (edges_list self) 0%nat p) as H0p.
      { apply (conn_edges_of _ F); [done|]. by apply Hconn. }
      split; [done|]. eapply conn_trans; [exact H0p|].
      apply Hadj in Hpu as [H|H]; [by apply conn_edge' in H|].
      apply conn_sym. by apply conn_edge' in H.
    + intros c Hc Hcross.
      assert (Hcadj := in_adj_edge _ _ Hadj c Hc).
      assert (Hgo : ∀ x y, x ∈ V → y ∉ V → in_adj (adj_list self) x y (weight c) →
                w ≤ weight c).
      { intros x y Hx Hy Hxy.
        destruct (Hfront x y (weight c) (conj Hx Hxy) Hy) as (m & Hm & Hle).
        destruct (Hmap _ _ Hm) as [_ [q Hq]].
        apply Hmin, entry_leb_weight in Hq. simpl in Hq. 
        change (weight (p, u, w)) with w. lia. }
      destruct (decide (src c ∈ V)) as [Hs|Hs], (decide (dst c ∈ V)) as [Hd|Hd].
      * tauto.
      * by apply (Hgo (src c) (dst c)).
      * apply (Hgo (dst c) (src c)); [done..|]. by apply (in_adj_sym _ _ Hadj).
      * tauto.
Qed.
End PrimRuns.

Lemma well_formed_handshake self :
  well_formed self →
  sum_list (length <$> adj_list self) = (2 * length (edges_list self))%nat.
Proof.
  intros [Hr Hb].
  destruct (build_adj_exact (edges_list self) (replicate (num_nodes self) []))
    as (adj & Hadj & _ & _ & Hsum); [by rewrite length_replicate|].
  rewrite Hb in Hadj. injection Hadj as <-.
  rewrite Hsum. rewrite fmap_replicate. simpl.
  assert (∀ k, sum_list (replicate k 0%nat) = 0%nat) as ->; [|lia].
  induction k; simpl; lia.
Qed.



Lemma prim_mst_minimal (self : MSTAlgorithms) (t0 t1 : Q) :
  well_formed self →
  (0 < num_nodes self)%nat →
  (∀ e, e ∈ edges_list self → 0 ≤ weight e) →
  ∃ P err s,
    prim_mst t0 t1 self = Ok (P, err, s)
    ∧ spanning_tree_of_root (edges_list self) P
    ∧ minimal_from_root (edges_list self) P.
Proof.
  intros Hwf Hn' Hpos.
  destruct (prim_mst_spec self t0 t1 Hn' Hwf) as (st & Hrun & Hloop & Htree & HV).
  pose proof Hwf as [HE _].
  assert (HP : edges_of (edges_list self) (ps_mst_edges st)).
  { intros e He. by destruct (ti_edges _ _ _ Htree e He) as (_ & _ & ?). }
  eexists _, _, _. split; [exact Hrun|]. split.
  { split_and!; [done|apply Htree| |].
    - intros x. split; [by apply conn_edges_of|].
      intros Hc. apply (ti_conn _ _ _ Htree), HV. split; [|done].
      destruct (decide (0%nat = x)) as [<-|Hne]; [done|].
      by destruct (conn_in_range _ _ _ _ HE Hc Hne).
    - intros e He. destruct (ti_edges _ _ _ Htree e He) as (Hs & Hd & _).
      split; by apply (ti_conn _ _ _ Htree). }
  intros T HT Hcov.
  apply (promising_for_end (component_of_root (edges_list self)) (edges_list self) T _ Hpos).
  apply (reachable_promising self Hwf Hn' T st HT Hcov).
  by destruct (prim_loop_reachable _ _ _ _ _ (reach_start _ _) Hloop).
Qed.

(** X9. On any graph without negative weights, connected or not, the edges
    that [prim_mst] returns are a minimum spanning tree of the component
    of node 0: they are edges of the graph, have no cycle, connect node 0
    with exactly the nodes the graph connects it with and with both ends
    of each of them, and weigh no more than any set of edges of the graph
    that connects node 0 with every node of its component. *)
Theorem X9_prim_minimum_tree (self : MSTAlgorithms) (t0 t1 : Q) :
  well_formed self →
  (∀ e, e ∈ edges_list self → 0 ≤ weight e) →
  ∃ P err s,
    prim_mst t0 t1 self = Ok (P, err, s)
    ∧ spanning_tree_of_root (edges_list self) P
    ∧ minimal_from_root (edges_list self) P.
Proof.
  intros Hwf Hpos. destruct (decide (num_nodes self = 0%nat)) as [Hn|Hn].
  - eexists [], _, _. split_and!.
    + unfold prim_mst. cbv zeta.
      change (num_nodes (reset_metrics self)) with (num_nodes self).
      by rewrite decide_True by done.
    + rewrite (no_nodes_no_edges self Hwf Hn). split_and!.
      * intros e He. by apply elem_of_nil in He.
      * apply acyclic_nil.
      * by intros x.
      * intros e He. by apply elem_of_nil in He.
    + intros T HT _. apply total_weight_nonneg. intros e He.
      destruct (HT e He) as [H|H]; apply Hpos in H; by rewrite ?weight_flip in H.
  - destruct (prim_mst_minimal self t0 t1 Hwf ltac:(lia) Hpos)
      as (P & err & s & Hrun & HP & Hmin).
    by eexists P, _, _.
Qed.

Lemma X9_witness :
  ∃ P err s,
    prim_mst 0 1 (instance_of graph3) = Ok (P, err, s)
    ∧ spanning_tree_of_root (edges_list (instance_of graph3)) P
    ∧ minimal_from_root (edges_list (instance_of graph3)) P.
Proof.
  apply (X9_prim_minimum_tree (instance_of graph3) 0 1).
  - apply instance_of_well_formed.
  - intros e He. vm_compute in He.
    apply list_elem_of_singleton in He as ->. vm_compute. discriminate.
Defined.

(** X10. The two counters after [prim_mst] on a graph with at least one
    node and [m] edges, whatever the metrics were before:
    [edge_comparisons] is twice [iterations] minus one (every entry pushed
    in the loop is counted once when pushed and once when popped, the seed
    only when popped), and [iterations] is above the number of edges
    returned and at most [2 * m + 1]. *)
Theorem X10_prim_metrics (self : MSTAlgorithms) (t0 t1 : Q) (before : Metrics) :
  well_formed self →
  (1 ≤ num_nodes self)%nat →
  ∃ P err s,
    prim_mst t0 t1 (set_metrics self before) = Ok (P, err, s)
    ∧ edge_comparisons (get_metrics s) = 2 * iterations (get_metrics s) - 1
    ∧ Z.of_nat (length P) + 1 ≤ iterations (get_metrics s)
    ∧ iterations (get_metrics s) ≤ 2 * Z.of_nat (length (edges_list self)) + 1.
Proof.
  intros Hwf Hn. assert (Hn' : (0 < num_nodes (set_metrics self before))%nat) by (simpl; lia).
  assert (Hwf' : well_formed (set_metrics self before)) by exact Hwf.
  destruct (prim_mst_spec (set_metrics self before) t0 t1 Hn' Hwf')
    as (st & Hrun & Hloop & _).
  eexists _, _, _. split; [exact Hrun|]. simpl.
  destruct (prim_loop_reachable _ _ _ _ _ (reach_start _ _) Hloop) as [Hreach Hempty].
  destruct (reachable_counters _ Hwf' Hn' st Hreach) as (H1 & H2 & H3).
  rewrite Hempty in H1, H3. simpl in H1.
  unfold prim_fuel in H2. rewrite (well_formed_handshake _ Hwf') in H2.
  change (edges_list (set_metrics self before)) with (edges_list self) in H2.
  destruct H3 as [(? & _)|H3]; [done|].
  split_and!; lia.
Qed.

Lemma X10_witness :
  ∃ P err s,
    prim_mst 0 1 (set_metrics (instance_of graph4) (mkMetrics 7 8 9)) = Ok (P, err, s)
    ∧ edge_comparisons (get_metrics s) = 2 * iterations (get_metrics s) - 1
    ∧ Z.of_nat (length P) + 1 ≤ iterations (get_metrics s)
    ∧ iterations (get_metrics s) ≤ 2 * Z.of_nat (length (edges_list (instance_of graph4))) + 1.
Proof.
  apply (X10_prim_metrics (instance_of graph4) 0 1 (mkMetrics 7 8 9)).
  - apply instance_of_well_formed.
  - vm_compute. lia.
Defined.

(** ** The traces: vertices *)

Section TraceVertices.
Implicit Types (evs : list event) (seen : gset nat) (F : list edge).

Lemma vertex_events_app evs evs' :
  vertex_events (evs ++ evs') = vertex_events evs ++ vertex_events evs'.
Proof. apply omap_app. Qed.

Lemma announced_snoc_vertex evs u : announced evs → announced (evs ++ [Vertex u]).
Proof.
  intros H pre post a b Heq. destruct post as [|y post _] using rev_ind.
  - apply (app_inj_tail evs pre) in Heq as [_ ?]. done.
  - change (pre ++ Edge a b :: post ++ [y]) with (pre ++ (Edge a b :: post) ++ [y]) in Heq.
    rewrite app_assoc in Heq. apply app_inj_tail in Heq as [-> _]. by eapply H.
Qed.

Lemma announced_snoc_edge evs u v :
  announced evs → u ∈ vertex_events evs → v ∈ vertex_events evs →
  announced (evs ++ [Edge u v]).
Proof.
  intros H Hu Hv pre post a b Heq. destruct post as [|y post _] using rev_ind.
  - apply (app_inj_tail evs pre) in Heq as [-> [= -> ->]]. done.
  - change (pre ++ Edge a b :: post ++ [y]) with (pre ++ (Edge a b :: post) ++ [y]) in Heq.
    rewrite app_assoc in Heq. apply app_inj_tail in Heq as [-> _]. by eapply H.
Qed.

(** The loop of [kruskal_mst_with_animation] keeps the set
    [visited_vertices] equal to the vertices yielded. *)
Lemma kruskal_replay_vertices F : ∀ seen evs,
  (∀ x, x ∈ seen ↔ x ∈ vertex_events evs) →
  NoDup (vertex_events evs) → announced evs →
  ∃ seen' evs',
    foldl kruskal_replay (seen, evs) F = (seen', evs')
    ∧ (∀ x, x ∈ seen' ↔ x ∈ vertex_events evs')
    ∧ NoDup (vertex_events evs') ∧ announced evs'
    ∧ (∀ x, x ∈ vertex_events evs' ↔
         x ∈ vertex_events evs ∨ ∃ e, e ∈ F ∧ (x = src e ∨ x = dst e)).
Proof.
  induction F as [|[[u v] w] F IH]; intros seen evs Hseen Hnd Han.
  { exists seen, evs. split_and!; try done. intros x. split; [by left|].
    intros [?|(e & He & _)]; [done|]. by apply elem_of_nil in He. }
  assert (∃ seen1 evs1,
    kruskal_replay (seen, evs) (u, v, w) = (seen1, evs1 ++ [Edge u v])
    ∧ (∀ x, x ∈ seen1 ↔ x ∈ vertex_events evs1)
    ∧ NoDup (vertex_events evs1) ∧ announced evs1
    ∧ u ∈ vertex_events evs1 ∧ v ∈ vertex_events evs1
    ∧ (∀ x, x ∈ vertex_events evs1 ↔ x ∈ vertex_events evs ∨ x = u ∨ x = v))
    as (seen1 & evs1 & Hstep & Hseen1 & Hnd1 & Han1 & Hu1 & Hv1 & Hel1).
  { unfold kruskal_replay.
    assert (∃ seen0 evs0,
      (if decide (u ∉ seen) then ({[u]} ∪ seen, evs ++ [Vertex u]) else (seen, evs))
      = (seen0, evs0)
      ∧ (∀ x, x ∈ seen0 ↔ x ∈ vertex_events evs0)
      ∧ NoDup (vertex_events evs0) ∧ announced evs0
      ∧ (∀ x, x ∈ vertex_events evs0 ↔ x ∈ vertex_events evs ∨ x = u))
      as (seen0 & evs0 & -> & Hseen0 & Hnd0 & Han0 & Hel0).
    { destruct (decide (u ∉ seen)) as [Hu|Hu].
      - eexists _, _. split; [done|]. rewrite vertex_events_app. simpl. split_and!.
        + intros x. rewrite elem_of_union, elem_of_singleton, elem_of_app,
            list_elem_of_singleton, Hseen. tauto.
        + apply NoDup_app. split_and!; [done| |apply NoDup_singleton].
          intros x Hx ->%list_elem_of_singleton. by apply Hu, Hseen.
        + by apply announced_snoc_vertex.
        + intros x. rewrite elem_of_app, list_elem_of_singleton. tauto.
      - apply dec_stable in Hu. eexists _, _. split; [done|]. split_and!; try done.
        intros x. split; [by left|]. intros [?| ->]; [done|]. by apply Hseen. }
    destruct (decide (v ∉ seen0)) as [Hv|Hv].
    - eexists _, _. split; [done|]. rewrite vertex_events_app. simpl. split_and!.
      + intros x. rewrite elem_of_union, elem_of_singleton, elem_of_app,
          list_elem_of_singleton, Hseen0. tauto.
      + apply NoDup_app. split_and!; [done| |apply NoDup_singleton].
        intros x Hx ->%list_elem_of_singleton. by apply Hv, Hseen0.
      + by apply announced_snoc_vertex.
      + apply elem_of_app. left. apply Hel0. by right.
      + apply elem_of_app. right. by apply list_elem_of_singleton.
      + intros x. rewrite elem_of_app, list_elem_of_singleton, Hel0. tauto.
    - apply dec_stable in Hv. eexists _, _. split; [done|]. split_and!; try done.
      + apply Hel0. by right.
      + by apply Hseen0.
      + intros x. rewrite Hel0. split; [tauto|].
        intros [?|[?| ->]]; [tauto..|]. by apply Hel0, Hseen0. }
  destruct (IH seen1 (evs1 ++ [Edge u v])) as (seen' & evs' & Hfold & Hseen' & Hnd' & Han' & Hel').
  - intros x. rewrite vertex_events_app. simpl. by rewrite app_nil_r.
  - rewrite vertex_events_app. simpl. by rewrite app_nil_r.
  - by apply announced_snoc_edge.
  - exists seen', evs'.
    change (foldl kruskal_replay (seen, evs) ((u, v, w) :: F))
      with (foldl kruskal_replay (kruskal_replay (seen, evs) (u, v, w)) F).
    rewrite Hstep. split_and!; try done.
    intros x. rewrite Hel', vertex_events_app. simpl. rewrite app_nil_r, Hel1. split.
    + intros [[?|Hx]|(e & He & Hx)]; [by left| |].
      * right. exists (u, v, w). split; [by left|done].
      * right. exists e. split; [by right|done].
    + intros [?|(e & [->|He]%elem_of_cons & Hx)]; [tauto| |].
      * left. right. done.
      * right. by exists e.
Qed.

(** The loop of [prim_mst_with_animation] on edges whose children are new:
    each edge yields the vertex of its child, then the edge. *)
Lemma prim_replay_fresh F : ∀ seen evs,
  NoDup (dst <$> F) → (∀ x, x ∈ dst <$> F → x ∉ seen) →
  (foldl prim_replay (seen, evs) F).2 = evs ++ flat_map prim_edge_events F.
Proof.
  induction F as [|[[p u] w] F IH]; intros seen evs Hnd Hnew; simpl.
  { by rewrite app_nil_r. }
  apply NoDup_cons in Hnd as [Hu Hnd]. simpl in Hu.
  rewrite decide_True by (apply Hnew; by left).
  rewrite IH; [by rewrite <-!app_assoc|done|].
  intros x Hx [->%elem_of_singleton|Hs]%elem_of_union; [done|].
  apply (Hnew x); [by right|done].
Qed.
End TraceVertices.

Lemma conn_touches F x y :
  conn F x y → x ≠ y →
  (∃ e, e ∈ F ∧ (x = src e ∨ x = dst e)) ∧ (∃ e, e ∈ F ∧ (y = src e ∨ y = dst e)).
Proof.
  induction 1 as [x|e He|x y H IH|x y z H1 IH1 H2 IH2]; intros Hne.
  - done.
  - split; exists e; auto.
  - destruct IH as [? ?]; [done|]. done.
  - destruct (decide (x = y)) as [->|Hxy]; [by apply IH2|].
    destruct (decide (y = z)) as [<-|Hyz]; [by apply IH1|].
    split; [by apply IH1|by apply IH2].
Qed.

(** X11. The vertices of Kruskal's trace. On a graph with at least one
    node, the events that [kruskal_mst_with_animation] yields before the
    final one never show a vertex twice, show exactly the ends of the
    edges that [kruskal_mst] returns, and show both ends of an edge before
    the edge itself. *)
Theorem X11_kruskal_trace_vertices (self : MSTAlgorithms) (t0 t1 : Q) :
  well_formed self →
  (1 ≤ num_nodes self)%nat →
  ∃ K s evs,
    kruskal_mst t0 t1 self = Ok (K, None, s)
    ∧ kruskal_mst_with_animation t0 t1 self = Ok (evs ++ [Final K None], s)
    ∧ NoDup (vertex_events evs)
    ∧ announced evs
    ∧ ∀ x, x ∈ vertex_events evs ↔ ∃ e, e ∈ K ∧ (x = src e ∨ x = dst e).
Proof.
  intros [HE _] Hn.
  destruct (kruskal_mst_spec self t0 t1 ltac:(lia) HE) as (K & Hrun & _).
  destruct (kruskal_replay_vertices K ∅ []) as (seen & evs & Hfold & _ & Hnd & Han & Hel).
  { intros x. split; [by intros ?%elem_of_empty|by intros ?%elem_of_nil]. }
  { constructor. }
  { intros [|??] ???; done. }
  eexists K, _, evs. split; [exact Hrun|]. split_and!; [|done..|].
  - unfold kruskal_mst_with_animation. rewrite Hrun, bind_Ok. cbv beta iota.
    by rewrite Hfold.
  - intros x. rewrite Hel. simpl. rewrite elem_of_nil. tauto.
Qed.

Lemma X11_witness :
  ∃ K s evs,
    kruskal_mst 0 1 (instance_of graph4) = Ok (K, None, s)
    ∧ kruskal_mst_with_animation 0 1 (instance_of graph4) = Ok (evs ++ [Final K None], s)
    ∧ NoDup (vertex_events evs)
    ∧ announced evs
    ∧ ∀ x, x ∈ vertex_events evs ↔ ∃ e, e ∈ K ∧ (x = src e ∨ x = dst e).
Proof.
  apply (X11_kruskal_trace_vertices (instance_of graph4) 0 1).
  - apply instance_of_well_formed.
  - vm_compute. lia.
Defined.

(** X12. The shape of Prim's trace. Whenever [prim_mst] returns edges [P]
    and no error, [prim_mst_with_animation] yields the vertex 0, then for
    each edge of [P] the vertex of its child followed by the edge, then
    the final event: [2 * N] events, whose vertices are all the nodes,
    each once. *)
Theorem X12_prim_trace_shape (self : MSTAlgorithms) (t0 t1 : Q)
    (P : list edge) (s : MSTAlgorithms) :
  well_formed self →
  prim_mst t0 t1 self = Ok (P, None, s) →
  prim_mst_with_animation t0 t1 self
  = Ok (Vertex 0 :: flat_map prim_edge_events P ++ [Final P None], s)
  ∧ 0%nat :: (dst <$> P) ≡ₚ seq 0 (num_nodes self)
  ∧ length (Vertex 0 :: flat_map prim_edge_events P ++ [Final P None])
    = (2 * num_nodes self)%nat.
Proof.
  intros Hwf Hrun. destruct (decide (num_nodes self = 0%nat)) as [Hn|Hn].
  { exfalso. revert Hrun. unfold prim_mst. cbv zeta.
    change (num_nodes (reset_metrics self)) with (num_nodes self).
    by rewrite decide_True by done. }
  destruct (prim_mst_spec self t0 t1 ltac:(lia) Hwf) as (st & Hrun' & _ & Htree & _).
  rewrite Hrun in Hrun'. injection Hrun' as -> Herr _.
  destruct (decide (size (ps_visited st) < num_nodes self)%nat) as [|Hsize]; [done|].
  clear Herr.
  destruct Htree as [_ Hrange _ _ _ Hs Hch Hnd _ _].
  set (P := ps_mst_edges st) in *. set (V := ps_visited st) in *.
  assert (Hsub : V ⊆ set_seq 0 (num_nodes self)).
  { intros x Hx. apply elem_of_set_seq. split; [lia|]. by apply Hrange. }
  assert (HV : V = set_seq 0 (num_nodes self)).
  { apply set_subseteq_size_eq; [done|]. rewrite size_set_seq. lia. }
  assert (Hroot : 0%nat ∉ dst <$> P).
  { intros H0.
    assert (V = list_to_set (dst <$> P)) as HVP.
    { apply set_eq. intros x. rewrite elem_of_list_to_set, (Hch x).
      split; [intros [->|?]; done|by right]. }
    rewrite HVP, size_list_to_set in Hs by done.
    rewrite length_fmap in Hs. lia. }
  assert (Hperm : 0%nat :: (dst <$> P) ≡ₚ seq 0 (num_nodes self)).
  { apply NoDup_Permutation.
    - apply NoDup_cons. by split.
    - apply NoDup_seq.
    - intros x. rewrite elem_of_cons, <-(Hch x).
      rewrite HV, elem_of_set_seq, elem_of_seq. lia. }
  split_and!; [|done|].
  - unfold prim_mst_with_animation. rewrite Hrun, bind_Ok. cbv beta iota zeta.
    pose proof (prim_replay_fresh P {[0%nat]} [Vertex 0%nat]) as Hfold.
    destruct (foldl prim_replay ({[0%nat]}, [Vertex 0%nat]) P) as [seen evs].
    simpl in Hfold. rewrite Hfold; [done|done|].
    intros x Hx ->%elem_of_singleton. done.
  - apply Permutation_length in Hperm. rewrite length_seq in Hperm.
    simpl in Hperm. rewrite length_fmap in Hperm.
    simpl. rewrite length_app. simpl.
    assert (length (flat_map prim_edge_events P) = (2 * length P)%nat) as ->; [|lia].
    clear. induction P as [|e P IH]; simpl; lia.
Qed.

Lemma X12_witness :
  prim_mst_with_animation 0 1 (instance_of graph4)
  = Ok (Vertex 0 :: flat_map prim_edge_events
                      [(0%nat, 1%nat, 5); (1%nat, 2%nat, 3); (2%nat, 3%nat, 1)]
          ++ [Final [(0%nat, 1%nat, 5); (1%nat, 2%nat, 3); (2%nat, 3%nat, 1)] None],
        set_metrics (instance_of graph4) (mkMetrics 1000 9 5))
  ∧ 0%nat :: (dst <$> [(0%nat, 1%nat, 5); (1%nat, 2%nat, 3); (2%nat, 3%nat, 1)])
    ≡ₚ seq 0 (num_nodes (instance_of graph4))
  ∧ length (Vertex 0 :: flat_map prim_edge_events
                          [(0%nat, 1%nat, 5); (1%nat, 2%nat, 3); (2%nat, 3%nat, 1)]
            ++ [Final [(0%nat, 1%nat, 5); (1%nat, 2%nat, 3); (2%nat, 3%nat, 1)] None])
    = (2 * num_nodes (instance_of graph4))%nat.
Proof.
  apply (X12_prim_trace_shape (instance_of graph4) 0 1).
  - apply instance_of_well_formed.
  - vm_compute. reflexivity.
Defined.

(** X13. The vertices of Kruskal's trace on a connected graph. With two or
    more nodes the trace shows every node exactly once; with a single node
    it shows no vertex at all and consists of the final event alone,
    whereas Prim's trace of the same graph shows node 0. *)
Theorem X13_kruskal_trace_connected (self : MSTAlgorithms) (t0 t1 : Q) :
  well_formed self →
  (1 ≤ num_nodes self)%nat →
  connected_graph (num_nodes self) (edges_list self) →
  ∃ K s evs,
    kruskal_mst_with_animation t0 t1 self = Ok (evs ++ [Final K None], s)
    ∧ ((2 ≤ num_nodes self)%nat → vertex_events evs ≡ₚ seq 0 (num_nodes self))
    ∧ (num_nodes self = 1%nat →
         evs = [] ∧ K = []
         ∧ ∃ s', prim_mst_with_animation t0 t1 self = Ok ([Vertex 0; Final [] None], s')).
Proof.
  intros Hwf Hn Hconn. pose proof Hwf as [HE _].
  destruct (kruskal_connected self t0 t1 Hwf Hn Hconn)
    as (K & s & Hrun & Hlen & (HK & _ & Hsp) & _).
  destruct (kruskal_replay_vertices K ∅ []) as (seen & evs & Hfold & _ & Hnd & Han & Hel).
  { intros x. split; [by intros ?%elem_of_empty|by intros ?%elem_of_nil]. }
  { constructor. }
  { intros [|??] ???; done. }
  assert (Htrace : kruskal_mst_with_animation t0 t1 self = Ok (evs ++ [Final K None], s)).
  { unfold kruskal_mst_with_animation. rewrite Hrun, bind_Ok. cbv beta iota.
    by rewrite Hfold. }
  exists K, s, evs. split_and!; [done| |].
  - intros Hn2. apply NoDup_Permutation; [done|apply NoDup_seq|].
    intros x. rewrite Hel, elem_of_seq. simpl. rewrite elem_of_nil. split.
    + intros [[]|(e & He & Hx)].
      assert ((src e < num_nodes self)%nat ∧ (dst e < num_nodes self)%nat) as [??].
      { destruct (HK e He) as [H|H]; destruct (HE _ H); done. }
      destruct Hx as [->| ->]; lia.
    + intros [_ Hx]. right.
      destruct (decide (x = 0%nat)) as [->|Hx0].
      * destruct (conn_touches K 0%nat 1%nat) as [H _]; [apply Hsp; lia|done|exact H].
      * destruct (conn_touches K x 0%nat) as [H _]; [apply Hsp; lia|done|exact H].
  - intros Hn1. rewrite Hn1 in Hlen. destruct K; [|done].
    simpl in Hfold. injection Hfold as _ <-. split_and!; [done..|].
    destruct (prim_connected self t0 t1 Hwf Hn Hconn) as (P & s' & HrunP & HlenP & _).
    rewrite Hn1 in HlenP. destruct P; [|done].
    exists s'. unfold prim_mst_with_animation. by rewrite HrunP, bind_Ok.
Qed.

Lemma X13_witness :
  ∃ K s evs,
    kruskal_mst_with_animation 0 1 (instance_of graph4) = Ok (evs ++ [Final K None], s)
    ∧ ((2 ≤ num_nodes (instance_of graph4))%nat →
         vertex_events evs ≡ₚ seq 0 (num_nodes (instance_of graph4)))
    ∧ (num_nodes (instance_of graph4) = 1%nat →
         evs = [] ∧ K = []
         ∧ ∃ s', prim_mst_with_animation 0 1 (instance_of graph4)
                 = Ok ([Vertex 0; Final [] None], s')).
Proof.
  apply (X13_kruskal_trace_connected (instance_of graph4) 0 1).
  - apply instance_of_well_formed.
  - vm_compute. lia.
  - apply graph4_connected.
Defined.

(** ** The benchmark's algorithms against the engine's *)

Lemma conn_reweigh u v w w' F G x y :
  (∀ i j, conn F i j → conn G i j) →
  conn ((u, v, w) :: F) x y → conn ((u, v, w') :: G) x y.
Proof.
  intros HFG. induction 1 as [x|e He|x y H IH|x y z H1 IH1 H2 IH2].
  - apply conn_refl.
  - apply elem_of_cons in He as [->|He].
    + apply (conn_cons_new (u, v, w')).
    + apply conn_cons_weaken, HFG. by apply conn_edge.
  - by apply conn_sym.
  - by eapply conn_trans.
Qed.

(** The constructor on a graph whose labels are the indices keeps the
    edges as they are. *)
Lemma init_identity g n :
  nodes g = seq 0 n → edges_in_range n (edges g) →
  ∃ self, init g = Ok self ∧ num_nodes self = n ∧ edges_list self = edges g
          ∧ well_formed self.
Proof.
  intros Hnodes Hr.
  assert (Hnd : NoDup (nodes g)) by (rewrite Hnodes; apply NoDup_seq).
  assert (Hmap : ∀ l, edges_in_range n l → remap_edges (node_map g) l = Ok l).
  { induction l as [|[[u v] w] l IH]; intros Hl; simpl; [done|].
    destruct (Hl (u, v, w)) as [Hu Hv]; [by left|].
    change (u < n)%nat in Hu. change (v < n)%nat in Hv. unfold map_getitem.
    rewrite (proj2 (node_map_lookup g u u Hnd)), bind_Ok
      by (rewrite Hnodes; by apply lookup_seq).
    rewrite (proj2 (node_map_lookup g v v Hnd)), bind_Ok
      by (rewrite Hnodes; by apply lookup_seq).
    rewrite IH, bind_Ok; [done|]. intros e He. apply Hl. by right. }
  destruct (build_adj_exact (edges g) (replicate n []))
    as (adj & Hadj & _); [by rewrite length_replicate|].
  unfold init. rewrite Hnodes, length_seq.
  rewrite (Hmap _ Hr), bind_Ok, Hadj, bind_Ok.
  eexists. split; [done|]. by split_and!.
Qed.

Section BenchKruskal.
Context (n : nat) (E : list edge).
Context (Hn : (0 < n)%nat) (HE : edges_in_range n E).

(** The two loops in step: the benchmark's arrays and the engine's may
    differ, the edges chosen are the same. *)
Lemma bench_kruskal_lockstep es : ∀ P st pb rb G,
  kruskal_inv n E P st →
  uf_state n pb rb G →
  (∀ i j, conn G i j ↔ conn (ks_mst_edges st) i j) →
  (∀ c, c ∈ E → c ∈ P ++ es) →
  edges_in_range n es →
  StronglySorted weight_le (P ++ es) →
  ∃ st' pb' rb',
    kruskal_loop n st es = Ok st'
    ∧ bench_kruskal_loop n (pb, rb, ks_mst_edges st) es = Ok (pb', rb', ks_mst_edges st')
    ∧ length pb' = n ∧ length rb' = n.
Proof.
  induction es as [|e es IH]; intros P st pb rb G Hinv Hst HG Hall Hrange Hsorted.
  { exists st, pb, rb. simpl. split_and!; [done..| |].
    - apply (uf_len_parent _ _ _ _ (us_inv _ _ _ _ Hst)).
    - apply (uf_len_rank _ _ _ _ (us_inv _ _ _ _ Hst)). }
  assert (Hmin : ∀ c, c ∈ E ∨ flip c ∈ E → c ∈ P ∨ flip c ∈ P ∨ weight e ≤ weight c).
  { apply StronglySorted_app_1_r, StronglySorted_cons in Hsorted as [Hle _].
    rewrite Forall_forall in Hle.
    assert (Hin : ∀ c, c ∈ E → c ∈ P ∨ weight e ≤ weight c).
    { intros c Hc. apply Hall in Hc.
      apply elem_of_app in Hc as [Hc|Hc]; [by left|right].
      apply elem_of_cons in Hc as [->|Hc]; [lia|]. by apply Hle. }
    intros c [Hc|Hc]; apply Hin in Hc; rewrite ?weight_flip in Hc; tauto. }
  destruct (Hrange e) as [Hu Hv]; [by left|].
  destruct (kruskal_body_spec n E Hn HE P st e Hinv Hu Hv Hmin)
    as (st1 & Hbody & Hinv1 & _).
  (* what the engine did with the edge *)
  assert (Hdec : (conn (ks_mst_edges st) (src e) (dst e) ∧ ks_mst_edges st1 = ks_mst_edges st)
               ∨ (¬ conn (ks_mst_edges st) (src e) (dst e)
                  ∧ ks_mst_edges st1 = ks_mst_edges st ++ [e])).
  { destruct (kruskal_body_edges _ _ _ _ Hbody) as [Heq|Heq].
    - left. split; [|done]. rewrite <-Heq. apply (ki_done _ _ _ _ Hinv1).
      apply elem_of_app. right. by apply list_elem_of_singleton.
    - right. split; [|done]. pose proof (ki_acyclic _ _ _ _ Hinv1) as Hac.
      rewrite Heq in Hac. intros Hc.
      apply (Hac (ks_mst_edges st) e [] eq_refl). by rewrite app_nil_r. }
  (* what the benchmark does with it *)
  destruct e as [[u v] w]. change (u < n)%nat in Hu. change (v < n)%nat in Hv.
  change (src (u, v, w)) with u in Hdec. change (dst (u, v, w)) with v in Hdec.
  destruct (find_state n Hn _ _ _ u Hst Hu)
    as (p1 & x & Hf1 & Hst1 & Hrx & _ & _ & _ & Hc1).
  destruct (find_state n Hn _ _ _ v Hst1 Hv)
    as (p2 & y & Hf2 & Hst2 & Hry & _).
  assert (Hxy : x = y ↔ conn G u v).
  { pose proof (us_models _ _ _ _ Hst1) as Hmod1.
    assert (Hrx1 : rep p1 u x).
    { by apply (compressed_rep _ _ _ _ _ _ _ (us_inv _ _ _ _ Hst) Hc1 Hu). }
    split.
    - intros <-. exact (models_same_root n p1 G u v x Hmod1 Hu Hv Hrx1 Hry).
    - intros Hc. eapply rep_det; [exact Hrx1|].
      exact (models_conn_root n p1 G v u y Hmod1 Hv Hu (conn_sym _ _ _ Hc) Hry). }
  assert (∃ pb1 rb1 G1,
    bench_kruskal_body n (pb, rb, ks_mst_edges st) (u, v, w) = Ok (pb1, rb1, ks_mst_edges st1)
    ∧ uf_state n pb1 rb1 G1
    ∧ ∀ i j, conn G1 i j ↔ conn (ks_mst_edges st1) i j)
    as (pb1 & rb1 & G1 & Hbb & Hstb & HG1).
  { unfold bench_kruskal_body. rewrite Hf1, bind_Ok. cbv beta iota.
    rewrite Hf2, bind_Ok. cbv beta iota.
    destruct Hdec as [[Hc Heq]|[Hnc Heq]].
    - rewrite decide_False by (intros Hne; apply Hne, Hxy, HG, Hc).
      exists p2, rb, G. rewrite Heq. done.
    - rewrite decide_True by (intros Heq'; apply Hnc, HG, Hxy, Heq').
      destruct (union_state n Hn p2 rb G u v Hst2 Hu Hv)
        as (p3 & rb3 & G3 & Hun & Hst3 & HG3 & _).
      rewrite Hun, bind_Ok. exists p3, rb3, G3. rewrite Heq. split_and!; [done..|].
      intros i j. rewrite HG3, conn_snoc.
      split; apply conn_reweigh; intros ??; apply HG. }
  destruct (IH (P ++ [(u, v, w)]) st1 pb1 rb1 G1) as (st' & pb' & rb' & Hloop & Hbloop & Hl1 & Hl2);
    try done.
  - intros c Hc. rewrite <-app_assoc. by apply Hall.
  - intros c Hc. apply Hrange. by right.
  - by rewrite <-app_assoc.
  - exists st', pb', rb'. split_and!; [| |done..].
    + change (kruskal_loop n st ((u, v, w) :: es))
        with (kruskal_body n st (u, v, w) ≫= λ s, kruskal_loop n s es).
      by rewrite Hbody, bind_Ok.
    + change (bench_kruskal_loop n (pb, rb, ks_mst_edges st) ((u, v, w) :: es))
        with (bench_kruskal_body n (pb, rb, ks_mst_edges st) (u, v, w)
              ≫= λ s, bench_kruskal_loop n s es).
      by rewrite Hbb, bind_Ok.
Qed.
End BenchKruskal.

(** X14. The benchmark measures the engine's algorithm. On a graph whose
    nodes are labelled [0..n-1] and whose edges join such nodes, the
    benchmark's own [kruskal_mst(graph)] completes and returns the same
    list of edges as [MSTAlgorithms(graph).kruskal_mst()], with [parent]
    and [rank] of length [n]. *)
Theorem X14_bench_kruskal_agrees (g : Graph) (n : nat) (t0 t1 : Q) :
  nodes g = seq 0 n →
  edges_in_range n (edges g) →
  ∃ self K err s parent rank,
    init g = Ok self
    ∧ kruskal_mst t0 t1 self = Ok (K, err, s)
    ∧ bench_kruskal_mst g = Ok (K, parent, rank)
    ∧ length parent = n ∧ length rank = n.
Proof.
  intros Hnodes Hr.
  destruct (init_identity g n Hnodes Hr) as (self & Hinit & Hnum & Hedges & Hwf).
  exists self. unfold bench_kruskal_mst. rewrite Hnodes, length_seq. cbv zeta.
  destruct (decide (n = 0%nat)) as [->|Hn].
  - assert (edges g = []) as ->.
    { destruct (edges g) as [|e l]; [done|]. destruct (Hr e); [by left|lia]. }
    eexists [], _, _, [], []. split_and!; try done.
    unfold kruskal_mst. cbv zeta.
    change (num_nodes (reset_metrics self)) with (num_nodes self).
    by rewrite decide_True by done.
  - assert (Hn' : (0 < n)%nat) by lia.
    destruct (bench_kruskal_lockstep n (edges g) Hn' Hr (sorted (edges g)) []
                (mkKS (seq 0 n) (replicate n 0) []
                   (0 + Z.of_nat (length (sorted (edges g)))
                        * (bit_length (Z.of_nat (length (sorted (edges g)))) - 1)) 0)
                (seq 0 n) (replicate n 0) [])
      as (st' & pb' & rb' & Hloop & Hbloop & Hl1 & Hl2).
    + destruct (kruskal_inv_start n (edges g) Hn'). by split.
    + apply (uf_state_start n Hn').
    + done.
    + intros c Hc. simpl. by rewrite sorted_perm.
    + intros c Hc. apply Hr. by rewrite <-(sorted_perm (edges g)).
    + apply sorted_sorted.
    + simpl in Hbloop. rewrite Hbloop, bind_Ok.
      eexists (ks_mst_edges st'), None, _, pb', rb'. split_and!; try done.
      unfold kruskal_mst, kruskal_sort_phase. cbv zeta.
      change (num_nodes (reset_metrics self)) with (num_nodes self).
      change (edges_list (reset_metrics self)) with (edges_list self).
      rewrite Hnum, Hedges. rewrite decide_False by done. cbv beta iota.
      change (edge_comparisons (metrics (reset_metrics self))) with 0.
      change (iterations (metrics (reset_metrics self))) with 0.
      rewrite Hloop, bind_Ok. done.
Qed.

Lemma X14_witness :
  ∃ self K err s parent rank,
    init graph4 = Ok self
    ∧ kruskal_mst 0 1 self = Ok (K, err, s)
    ∧ bench_kruskal_mst graph4 = Ok (K, parent, rank)
    ∧ length parent = 4%nat ∧ length rank = 4%nat.
Proof.
  apply (X14_bench_kruskal_agrees graph4 4 0 1).
  - reflexivity.
  - intros e He. vm_compute in He.
    repeat (apply elem_of_cons in He as [->|He]; [vm_compute; lia|]).
    by apply elem_of_nil in He.
Defined.

Section BenchPrim.
Context (adj : list (list (nat * Z))).

Lemma bench_relax_of u st peak vw :
  bench_relax u (bench_of st peak) vw = bench_of (relax u st vw) peak.
Proof.
  destruct vw as [v w]. unfold bench_relax, relax, bench_of, bench_push, push_candidate.
  simpl. repeat (case_decide || case_match); done.
Qed.

Lemma foldl_bench_relax_of u nbrs : ∀ st peak,
  foldl (bench_relax u) (bench_of st peak) nbrs = bench_of (foldl (relax u) st nbrs) peak.
Proof.
  induction nbrs as [|vw nbrs IH]; intros st peak; simpl; [done|].
  by rewrite bench_relax_of, IH.
Qed.

(** An iteration of the benchmark's loop is the engine's, with the peak
    updated on entry. *)
Lemma bench_prim_body_of st peak st' :
  prim_body adj st = Ok st' →
  bench_prim_body adj (bench_of st peak)
  = Ok (bench_of st' (peak `max` size (ps_in_heap st))).
Proof.
  unfold prim_body, bench_prim_body. simpl.
  destruct (heappop (ps_heap st)) as [[[[w u] p] h']|]; [|done].
  destruct (decide (u ∈ ps_visited st)); [by intros [= <-]|].
  destruct (decide (ps_in_heap st !! u = None)); [done|].
  unfold getitem. destruct (adj !! u) as [nbrs|]; [|done]. rewrite !bind_Ok.
  intros [= <-].
  match goal with |- Ok (foldl _ ?s _) = _ =>
    change s with (bench_of (mkPS h' (delete u (ps_in_heap st)) ({[u]} ∪ ps_visited st)
                     match p with
                     | Some p0 => ps_mst_edges st ++ [(p0, u, w)]
                     | None => ps_mst_edges st
                     end (ps_edge_comparisons st + 1) (ps_iterations st + 1))
                     (peak `max` size (ps_in_heap st)))
  end.
  by rewrite foldl_bench_relax_of.
Qed.

Lemma bench_prim_loop_of (N : nat) st0 fuel : ∀ st peak st',
  prim_reachable adj st0 st →
  (∀ s, prim_reachable adj st0 s → (size (ps_in_heap s) ≤ N)%nat) →
  (peak ≤ N)%nat →
  prim_loop fuel adj st = Ok st' →
  ∃ peak',
    bench_prim_loop fuel adj (bench_of st peak) = Ok (bench_of st' peak')
    ∧ (peak ≤ peak')%nat ∧ (peak' ≤ N)%nat
    ∧ (ps_heap st ≠ [] → (size (ps_in_heap st) ≤ peak')%nat).
Proof.
  induction fuel as [|fuel IH]; intros st peak st' Hreach HN Hpeak; simpl.
  - destruct (ps_heap st) eqn:Hh; [|done]. intros [= <-]. exists peak. done.
  - destruct (ps_heap st) eqn:Hh; [intros [= <-]; exists peak; done|].
    destruct (prim_body adj st) as [st1| |] eqn:Hbody; [|done..]. rewrite bind_Ok.
    intros Hloop. rewrite (bench_prim_body_of _ _ _ Hbody), bind_Ok.
    pose proof (HN st Hreach) as Hsz.
    destruct (IH st1 (peak `max` size (ps_in_heap st))%nat st') as (peak' & Hb & H1 & H2 & _);
      [|done|lia|done|].
    { apply (reach_step _ _ st st1); [done| |done]. by rewrite Hh. }
    exists peak'. split_and!; [done|lia|done|]. intros _. lia.
Qed.
End BenchPrim.

(** [in_heap] never holds more than the nodes. *)
Lemma reachable_in_heap_size self st :
  well_formed self → (0 < num_nodes self)%nat →
  prim_reachable (adj_list self) (prim_init self) st →
  (size (ps_in_heap st) ≤ num_nodes self)%nat.
Proof.
  intros Hwf Hn Hreach.
  destruct (well_formed_adj self Hwf) as [Hlen Hadj]. pose proof Hwf as [HE _].
  destruct (reachable_inv self Hwf st Hreach) as [(_ & -> & _)|[_ [Hent Hmap _]]].
  - rewrite map_size_singleton. lia.
  - rewrite <-size_dom.
    rewrite <-(size_set_seq (C := gset nat) 0 (num_nodes self)).
    apply subseteq_size. intros v [m Hm]%elem_of_dom.
    destruct (Hmap v m Hm) as [_ [p Hp]].
    destruct (Hent _ _ _ Hp) as (u & _ & _ & Huv).
    destruct (in_adj_range _ _ _ HE Hadj _ _ _ Huv) as [_ Hv].
    apply elem_of_set_seq. lia.
Qed.

(** X15. The benchmark's [prim_mst(graph)] against the engine's. On a
    graph whose nodes are labelled [0..n-1] and whose edges join such
    nodes, it returns the same list of edges as
    [MSTAlgorithms(graph).prim_mst()], and its estimate [spc_kb] is the
    peak of [len(in_heap)] times 80 / 1024, where the peak is at least 1
    and at most [n]; on the graph without nodes it returns [[], 0]. *)
Theorem X15_bench_prim_agrees (g : Graph) (n : nat) (t0 t1 : Q) :
  nodes g = seq 0 n →
  edges_in_range n (edges g) →
  ∃ self P err s spc,
    init g = Ok self
    ∧ prim_mst t0 t1 self = Ok (P, err, s)
    ∧ bench_prim_mst g = Ok (P, spc)
    ∧ (n = 0%nat → spc = 0%Q)
    ∧ ((1 ≤ n)%nat →
         ∃ peak, spc = (inject_Z (Z.of_nat peak * 80) / 1024)%Q
                 ∧ (1 ≤ peak)%nat ∧ (peak ≤ n)%nat).
Proof.
  intros Hnodes Hr.
  destruct (init_identity g n Hnodes Hr) as (self & Hinit & Hnum & Hedges & Hwf).
  exists self. unfold bench_prim_mst. rewrite Hnodes, length_seq. cbv zeta.
  destruct (decide (n = 0%nat)) as [->|Hn].
  - rewrite decide_True by done. eexists [], _, _, _. split_and!; try done; [|lia].
    unfold prim_mst. cbv zeta.
    change (num_nodes (reset_metrics self)) with (num_nodes self).
    by rewrite decide_True by done.
  - rewrite decide_False by (destruct n; done).
    assert (Hn' : (0 < num_nodes self)%nat) by lia.
    destruct (prim_mst_spec self t0 t1 Hn' Hwf) as (st & Hrun & Hloop & _).
    pose proof Hwf as [HE Hb]. rewrite Hnum, Hedges in Hb. rewrite Hb, bind_Ok.
    destruct (bench_prim_loop_of (adj_list self) n (prim_init self) (prim_fuel self)
                (prim_init self) 0 st (reach_start _ _)) as (peak & Hbl & _ & Hp2 & Hp3);
      [|lia|done|].
    { intros s' Hs'. rewrite <-Hnum. by apply reachable_in_heap_size. }
    change (bench_of (prim_init self) 0)
      with (mkBPS [(0, 0%nat, None)] {[0%nat := 0]} ∅ [] 0) in Hbl.
    unfold prim_fuel in Hbl. rewrite Hbl, bind_Ok.
    eexists _, _, _, _. split_and!; [done|exact Hrun|done|lia|].
    intros _. exists peak. split_and!; [done| |done].
    specialize (Hp3 ltac:(done)). simpl in Hp3. by rewrite map_size_singleton in Hp3.
Qed.

Lemma X15_witness :
  ∃ self P err s spc,
    init graph4 = Ok self
    ∧ prim_mst 0 1 self = Ok (P, err, s)
    ∧ bench_prim_mst graph4 = Ok (P, spc)
    ∧ (4%nat = 0%nat → spc = 0%Q)
    ∧ ((1 ≤ 4)%nat →
         ∃ peak, spc = (inject_Z (Z.of_nat peak * 80) / 1024)%Q
                 ∧ (1 ≤ peak)%nat ∧ (peak ≤ 4)%nat).
Proof.
  apply (X15_bench_prim_agrees graph4 4 0 1).
  - reflexivity.
  - intros e He. vm_compute in He.
    repeat (apply elem_of_cons in He as [->|He]; [vm_compute; lia|]).
    by apply elem_of_nil in He.
Defined.

(** ** The GUI's runner *)

Section Runner.
Implicit Types (evs steps gen : list event).

(** Up to the first final event the loop collects the events; the final
    event ends it. *)
Lemma run_generator_final algo evs F err rest :
  final_events evs = [] →
  ∀ steps first sn,
    run_algorithm_generator_loop algo (evs ++ Final F err :: rest) steps first sn
    = (steps ++ evs, (F, Reported <$> err),
       match algo with
       | Kruskal =>
           if first then sn
           else match edge_events evs with
                | (u, _) :: _ => Some u
                | [] => sn
                end
       | Prim => match steps ++ evs with _ :: _ => Some 0%nat | [] => sn end
       end).
Proof.
  induction evs as [|ev evs IH]; intros Hfin steps first sn.
  - simpl. rewrite app_nil_r. destruct algo, first; try done.
  - destruct ev as [u|u v|F' err']; [| |done].
    + simpl. rewrite (IH Hfin). rewrite <-app_assoc. simpl.
      destruct algo; [done|]. by destruct steps.
    + change (final_events (Edge u v :: evs)) with (final_events evs) in Hfin.
      change (edge_events (Edge u v :: evs)) with ((u, v) :: edge_events evs).
      destruct algo, first; simpl; rewrite (IH Hfin), <-app_assoc; simpl; try done.
Qed.

Lemma prim_replay_grows F : ∀ seen evs,
  ∃ evs', (foldl prim_replay (seen, evs) F).2 = evs ++ evs'.
Proof.
  induction F as [|[[p u] w] F IH]; intros seen evs; simpl.
  - exists []. by rewrite app_nil_r.
  - destruct (decide (u ∉ seen)).
    + destruct (IH ({[u]} ∪ seen) ((evs ++ [Vertex u]) ++ [Edge p u])) as [evs' ->].
      eexists. by rewrite <-!app_assoc.
    + destruct (IH seen (evs ++ [Edge p u])) as [evs' ->].
      eexists. by rewrite <-!app_assoc.
Qed.
End Runner.

(** X16. The runner on the engine's generators. For either algorithm, on
    any instance, [run_algorithm_generator] returns as result what the
    final event carries, which is the list of edges and no error when the
    engine's call gave no error, and the empty list with the engine's
    error otherwise; it never falls back to "Unexpected termination". The
    steps it returns hold no final event, and their edge events are the
    ends of the returned edges. It leaves [starting_node] at the first
    end of the first edge for Kruskal, at 0 for a run of Prim without
    error, and untouched otherwise. *)
Theorem X16_runner_returns_result (algo : algorithm) (self : MSTAlgorithms) (t0 t1 : Q) :
  well_formed self →
  ∃ res err s gen steps,
    engine_of algo t0 t1 self = Ok (res, err, s)
    ∧ generator_of algo t0 t1 self = Ok (gen, s)
    ∧ run_algorithm_generator algo gen None
      = (steps,
         (if err is None then res else [], Reported <$> err),
         match algo, err with
         | Kruskal, None => src <$> head res
         | Prim, None => Some 0%nat
         | _, Some _ => None
         end)
    ∧ final_events steps = []
    ∧ edge_events steps = (if err is None then ends <$> res else []).
Proof.
  intros Hwf.
  assert (∃ res err s, engine_of algo t0 t1 self = Ok (res, err, s)) as (res & err & s & Hrun).
  { destruct (decide (num_nodes self = 0%nat)) as [Hn|Hn].
    - destruct algo; simpl; unfold kruskal_mst, prim_mst; cbv zeta;
        change (num_nodes (reset_metrics self)) with (num_nodes self);
        rewrite decide_True by done; by eexists _, _, _.
    - destruct algo; simpl.
      + destruct Hwf as [HE _].
        destruct (kruskal_mst_spec self t0 t1 ltac:(lia) HE) as (K & -> & _).
        by eexists _, _, _.
      + destruct (prim_mst_spec self t0 t1 ltac:(lia) Hwf) as (st & -> & _).
        by eexists _, _, _. }
  exists res, err, s. destruct err as [e|].
  - (* the engine reported an error: the single final event *)
    exists [Final [] (Some e)], []. split; [done|]. split.
    + destruct algo; simpl in *;
        unfold kruskal_mst_with_animation, prim_mst_with_animation;
        by rewrite Hrun, bind_Ok.
    + by destruct algo.
  - destruct algo; simpl in Hrun.
    + pose proof (kruskal_replay_events res ∅ []) as [He Hf].
      destruct (foldl kruskal_replay (∅, []) res) as [seen evs] eqn:Hfold.
      simpl in He, Hf. exists (evs ++ [Final res None]), evs. split_and!; try done.
      * simpl. unfold kruskal_mst_with_animation. rewrite Hrun, bind_Ok.
        cbv beta iota. by rewrite Hfold.
      * unfold run_algorithm_generator. rewrite (run_generator_final _ _ _ _ _ Hf).
        simpl. rewrite He. by destruct res as [|[[u v] w] res].
    + pose proof (prim_replay_events res {[0%nat]} [Vertex 0%nat]) as [He Hf].
      destruct (prim_replay_grows res {[0%nat]} [Vertex 0%nat]) as [evs' Hg].
      destruct (foldl prim_replay ({[0%nat]}, [Vertex 0%nat]) res) as [seen evs] eqn:Hfold.
      simpl in He, Hf, Hg. exists (evs ++ [Final res None]), evs. split_and!; try done.
      * simpl. unfold prim_mst_with_animation. rewrite Hrun, bind_Ok.
        cbv beta iota zeta. by rewrite Hfold.
      * unfold run_algorithm_generator. rewrite (run_generator_final _ _ _ _ _ Hf).
        rewrite Hg. done.
Qed.

Lemma X16_witness :
  ∃ res err s gen steps,
    engine_of Kruskal 0 1 (instance_of graph4) = Ok (res, err, s)
    ∧ generator_of Kruskal 0 1 (instance_of graph4) = Ok (gen, s)
    ∧ run_algorithm_generator Kruskal gen None
      = (steps,
         (if err is None then res else [], Reported <$> err),
         match err with
         | None => src <$> head res
         | Some _ => None
         end)
    ∧ final_events steps = []
    ∧ edge_events steps = (if err is None then ends <$> res else []).
Proof.
  apply (X16_runner_returns_result Kruskal (instance_of graph4) 0 1).
  apply instance_of_well_formed.
Defined.

Section Animation.
Implicit Types (a : animation) (steps : list event).

(** The two calls that go with one step. *)
Lemma animate_step_twice a step :
  animation_steps a !! current_step a = Some step → sub_step a = 0%nat →
  animate_step (animate_step a)
  = mkAnimation (animation_steps a) (current_step a + 1) 0 (starting_node a)
      (match step with
       | Vertex u =>
           if decide (u ∉ visited_vertices a) then visited_vertices a ++ [u]
           else visited_vertices a
       | _ => visited_vertices a
       end)
      (match step with
       | Edge u v => highlighted_edges a ++ [(u, v)]
       | _ => highlighted_edges a
       end)
      (is_animation_running a) (timer_active a).
Proof.
  intros Hstep Hsub. unfold animate_step at 2. rewrite Hstep, Hsub. simpl.
  unfold animate_step. simpl. rewrite Hstep. done.
Qed.

Lemma animate_steps post : ∀ pre a,
  animation_steps a = pre ++ post → current_step a = length pre → sub_step a = 0%nat →
  NoDup (visited_vertices a) →
  ∃ visited,
    Nat.iter (2 * length post) animate_step a
    = mkAnimation (animation_steps a) (length (pre ++ post)) 0 (starting_node a)
        visited (highlighted_edges a ++ edge_events post)
        (is_animation_running a) (timer_active a)
    ∧ NoDup visited
    ∧ ∀ x, x ∈ visited ↔ x ∈ visited_vertices a ∨ x ∈ vertex_events post.
Proof.
  induction post as [|step post IH]; intros pre a Hsteps Hcur Hsub Hnd.
  - exists (visited_vertices a). simpl. rewrite app_nil_r, <-Hcur, !app_nil_r.
    split_and!; [by destruct a; simpl in *; subst|done|].
    intros x. rewrite elem_of_nil. tauto.
  - replace (2 * length (step :: post))%nat with (2 * length post + 2)%nat by (simpl; lia).
    rewrite Nat.iter_add. simpl Nat.iter at 2.
    assert (Hstep : animation_steps a !! current_step a = Some step).
    { rewrite Hsteps, Hcur. by rewrite list_lookup_middle. }
    rewrite (animate_step_twice a step Hstep Hsub).
    match goal with |- context [Nat.iter _ _ ?a1] => set (a' := a1) end.
    destruct (IH (pre ++ [step]) a') as (visited & Hrun & Hnd' & Hel).
    + simpl. by rewrite Hsteps, <-app_assoc.
    + simpl. rewrite Hcur, length_app. simpl. lia.
    + done.
    + simpl. destruct step as [u| |]; try done.
      destruct (decide (u ∉ visited_vertices a)); [|done].
      apply NoDup_app. split_and!; [done| |apply NoDup_singleton].
      intros x Hx ->%list_elem_of_singleton. done.
    + exists visited. rewrite Hrun. simpl. split_and!; [|done|].
      * rewrite <-!app_assoc. simpl. f_equal.
        destruct step; simpl; by rewrite <-?app_assoc.
      * intros x. rewrite Hel. simpl. destruct step as [u| |]; simpl; try tauto.
        rewrite elem_of_cons. destruct (decide (u ∉ visited_vertices a)) as [Hu|Hu].
        -- rewrite elem_of_app, list_elem_of_singleton. tauto.
        -- apply dec_stable in Hu. split; [tauto|]. intros [?|[->|?]]; tauto.
Qed.
End Animation.

(** X17. The animation runs to its end. From the state in which
    [run_algorithm] starts the timer, with its non-empty list of steps:
    [animate_step] takes two calls for each step; after them every edge
    step is in [highlighted_edges], in order, every vertex of a vertex
    step is in [visited_vertices] once, and the animation still runs; the
    next call stops the timer, clears the running flag, keeps the
    highlighted edges, and leaves only the starting node, if there is one,
    in [visited_vertices]. *)
Theorem X17_animation_completes (steps : list event) (start : option nat) :
  steps ≠ [] →
  let a1 := Nat.iter (2 * length steps) animate_step (animation_start steps start) in
  let a2 := animate_step a1 in
  current_step a1 = length steps
  ∧ highlighted_edges a1 = edge_events steps
  ∧ NoDup (visited_vertices a1)
  ∧ (∀ x, x ∈ visited_vertices a1 ↔ x ∈ vertex_events steps)
  ∧ is_animation_running a1 = true ∧ timer_active a1 = true
  ∧ highlighted_edges a2 = edge_events steps
  ∧ visited_vertices a2 = (if start is Some s then [s] else [])
  ∧ is_animation_running a2 = false ∧ timer_active a2 = false.
Proof.
  intros _.
  destruct (animate_steps steps [] (animation_start steps start))
    as (visited & Hrun & Hnd & Hel); [done|done|done|constructor|].
  cbv zeta. rewrite Hrun. simpl. split_and!; try done.
  - intros x. rewrite Hel. simpl. rewrite elem_of_nil. tauto.
  - unfold animate_step. simpl. by rewrite lookup_ge_None_2 by lia.
  - unfold animate_step. simpl. by rewrite lookup_ge_None_2 by lia.
  - unfold animate_step. simpl. by rewrite lookup_ge_None_2 by lia.
  - unfold animate_step. simpl. by rewrite lookup_ge_None_2 by lia.
Qed.

Lemma X17_witness :
  let steps := [Vertex 0; Vertex 1; Edge 0 1; Vertex 2; Edge 1 2] in
  let a1 := Nat.iter (2 * length steps) animate_step (animation_start steps (Some 0%nat)) in
  let a2 := animate_step a1 in
  current_step a1 = length steps
  ∧ highlighted_edges a1 = edge_events steps
  ∧ NoDup (visited_vertices a1)
  ∧ (∀ x, x ∈ visited_vertices a1 ↔ x ∈ vertex_events steps)
  ∧ is_animation_running a1 = true ∧ timer_active a1 = true
  ∧ highlighted_edges a2 = edge_events steps
  ∧ visited_vertices a2 = [0%nat]
  ∧ is_animation_running a2 = false ∧ timer_active a2 = false.
Proof.
  apply (X17_animation_completes [Vertex 0; Vertex 1; Edge 0 1; Vertex 2; Edge 1 2]
           (Some 0%nat)).
  done.
Defined.

(** ** The GUI's weights *)

Lemma foldl_weight_sum (F : list edge) : ∀ a,
  foldl (λ s e, s + weight e) a F = a + total_weight F.
Proof.
  induction F as [|e F IH]; intros a; simpl; [unfold total_weight; simpl; lia|].
  rewrite IH. unfold total_weight. simpl. lia.
Qed.

Lemma calculate_mst_weight_total (F : list edge) : calculate_mst_weight F = total_weight F.
Proof.
  destruct F as [|e F]; [done|]. unfold calculate_mst_weight.
  rewrite foldl_weight_sum. lia.
Qed.

Lemma renamed_total_weight g l es :
  Forall2 (renamed g) l es → ∀ a, foldl (λ s e, s + e.2) a l = a + total_weight es.
Proof.
  induction 1 as [|e e' l es (_ & _ & Hw) _ IH]; intros a; simpl.
  - unfold total_weight. simpl. lia.
  - rewrite IH. unfold total_weight. simpl. lia.
Qed.

Lemma init_renamed g :
  NoDup (nodes g) → closed_graph g →
  ∃ self, init g = Ok self
    ∧ num_nodes self = length (nodes g)
    ∧ Forall2 (renamed g) (edges g) (edges_list self)
    ∧ well_formed self.
Proof.
  intros Hnd Hcl. unfold init.
  destruct (remap_edges_ok g (edges g) Hnd Hcl) as (es & -> & Hes). rewrite bind_Ok.
  pose proof (renamed_range g _ _ Hes) as Hr.
  destruct (build_adj_exact es (replicate (length (nodes g)) []))
    as (adj & Hadj & _); [by rewrite length_replicate|].
  rewrite Hadj, bind_Ok. eexists. split; [done|]. by split_and!.
Qed.

(** X18. The weight the GUI shows for a result never exceeds the weight it
    shows for the graph. On a graph with distinct labels, edges between
    its nodes and no negative weight, for either algorithm,
    [calculate_mst_weight] of the edges returned lies between 0 and
    [calculate_total_graph_weight]. *)
Theorem X18_mst_weight_bounded (algo : algorithm) (g : Graph) (t0 t1 : Q) :
  NoDup (nodes g) → closed_graph g →
  (∀ e, e ∈ edges g → 0 ≤ e.2) →
  ∃ self res err s,
    init g = Ok self
    ∧ engine_of algo t0 t1 self = Ok (res, err, s)
    ∧ 0 ≤ calculate_mst_weight res
    ∧ calculate_mst_weight res ≤ calculate_total_graph_weight (Some g).
Proof.
  intros Hnd Hcl Hpos.
  destruct (init_renamed g Hnd Hcl) as (self & Hinit & Hnum & Hren & Hwf).
  exists self.
  assert (Hpos' : ∀ e, e ∈ edges_list self → 0 ≤ weight e).
  { intros e' He'. apply list_elem_of_lookup in He' as [i Hi].
    destruct (Forall2_lookup_r _ _ _ _ _ Hren Hi) as (e & He & _ & _ & ->).
    apply Hpos. by eapply list_elem_of_lookup_2. }
  destruct (decide (nodes g = [])) as [Hnil|Hnil].
  - assert (num_nodes self = 0%nat) as Hn by (by rewrite Hnum, Hnil).
    exists [], (Some Graph_is_empty). eexists. split_and!; [done| |done|].
    + destruct algo; simpl; unfold kruskal_mst, prim_mst; cbv zeta;
        change (num_nodes (reset_metrics self)) with (num_nodes self);
        by rewrite decide_True by done.
    + simpl. by rewrite decide_True by done.
  - assert (Hn : (0 < num_nodes self)%nat).
    { rewrite Hnum. destruct (nodes g); [done|simpl; lia]. }
    assert (Htot : calculate_total_graph_weight (Some g) = total_weight (edges_list self)).
    { simpl. rewrite decide_False by done.
      rewrite (renamed_total_weight g _ _ Hren). lia. }
    assert (HEE : edges_of (edges_list self) (edges_list self)) by (intros e He; by left).
    rewrite Htot. destruct algo; simpl.
    + destruct (kruskal_mst_minimal self t0 t1 Hwf Hn Hpos') as (K & s & Hrun & [HK _] & Hmin).
      exists K, None, s. rewrite calculate_mst_weight_total. split_and!; [done..| |].
      * apply total_weight_nonneg. intros e He.
        destruct (HK e He) as [H|H]; apply Hpos' in H; by rewrite ?weight_flip in H.
      * apply Hmin; [done|]. by intros x y.
    + destruct (prim_mst_minimal self t0 t1 Hwf Hn Hpos') as (P & err & s & Hrun & [HP _] & Hmin).
      exists P, err, s. rewrite calculate_mst_weight_total. split_and!; [done..| |].
      * apply total_weight_nonneg. intros e He.
        destruct (HP e He) as [H|H]; apply Hpos' in H; by rewrite ?weight_flip in H.
      * apply Hmin; [done|]. by intros x.
Qed.

Lemma X18_witness :
  ∃ self res err s,
    init graph4 = Ok self
    ∧ engine_of Prim 0 1 self = Ok (res, err, s)
    ∧ 0 ≤ calculate_mst_weight res
    ∧ calculate_mst_weight res ≤ calculate_total_graph_weight (Some graph4).
Proof.
  apply (X18_mst_weight_bounded Prim graph4 0 1).
  - simpl. repeat constructor; rewrite ?elem_of_cons, ?elem_of_nil; lia.
  - intros e He. simpl in He.
    repeat (apply elem_of_cons in He as [->|He];
            [simpl; rewrite !elem_of_cons; split; lia|]).
    by apply elem_of_nil in He.
  - intros e He. simpl in He.
    repeat (apply elem_of_cons in He as [->|He]; [simpl; lia|]).
    by apply elem_of_nil in He.
Defined.

(** ** The GUI's input *)

Section InputFacts.
Context (int : str → option Z).

Lemma split_go_nonempty sep s : ∀ skip cur, split_go sep skip cur s ≠ [].
Proof.
  induction s as [|c s IH]; intros skip cur; simpl; [done|].
  destruct skip; [|apply IH]. destruct (starts_with sep (c :: s)); [done|apply IH].
Qed.

Lemma parse_edge_valid num_nodes edge x :
  parse_edge int num_nodes edge = inr x → valid_user_edge num_nodes x.
Proof.
  unfold parse_edge. case_decide; [done|].
  destruct (split [","%char] edge) as [|p0 [|p1 rest]]; [done..|].
  destruct (int p0) as [u|]; [|done]. destruct (int p1) as [v|]; [|done].
  destruct (decide (¬ (0 ≤ u < num_nodes ∧ 0 ≤ v < num_nodes))) as [|Hr]; [done|].
  apply dec_stable in Hr.
  destruct rest as [|p2 [|??]]; try (intros [= <-]; simpl; tauto).
  destruct (int p2) as [w|]; [|done]. case_decide; [done|].
  intros [= <-]. simpl. split_and!; [tauto..|lia].
Qed.

Lemma parse_edges_valid num_nodes edges : ∀ l,
  parse_edges int num_nodes edges = inr l →
  Forall (valid_user_edge num_nodes) l ∧ length l = length edges.
Proof.
  induction edges as [|edge edges IH]; intros l; simpl.
  - intros [= <-]. by split.
  - destruct (parse_edge int num_nodes edge) as [|x] eqn:Hx; [done|].
    destruct (parse_edges int num_nodes edges) as [|l'] eqn:Hl; [done|].
    intros [= <-]. destruct (IH l' eq_refl) as [H1 H2]. split.
    + constructor; [by eapply parse_edge_valid|done].
    + simpl. by rewrite H2.
Qed.

(** [edges[0]] and [edges[-1]] exist: [split] gives at least one piece. *)
Lemma parse_edges_input_no_index_error edges_text num_nodes :
  parse_edges_input int edges_text num_nodes ≠ Parse_index_error.
Proof.
  unfold parse_edges_input. case_decide; [done|].
  pose proof (split_go_nonempty [")"%char; ","%char; "("%char]
                (remove_spaces edges_text) 0 []) as Hne.
  fold (split [")"%char; ","%char; "("%char] (remove_spaces edges_text)) in Hne.
  destruct (split [")"%char; ","%char; "("%char] (remove_spaces edges_text))
    as [|first edges] eqn:Hs; [done|].
  simpl. 
  destruct (last (lstrip "("%char first :: edges)) as [final|] eqn:Hlast.
  - destruct (parse_edges int num_nodes _) as [[]|]; done.
  - by apply last_None in Hlast.
Qed.
End InputFacts.

(** X19. What [parse_edges_input] returns. A list is returned only for a
    non-empty text and a positive number of nodes; it has one entry for
    each piece of the text between the separators ["),("], and in every
    entry both node indices are at least 0 and below [num_nodes] and the
    weight, if there is one, is positive. *)
Theorem X19_parse_edges_validates (int : str → option Z) (edges_text : str)
    (num_nodes : Z) (edge_list : list user_edge) :
  parse_edges_input int edges_text num_nodes = Parsed edge_list →
  edges_text ≠ []
  ∧ edge_list ≠ []
  ∧ 0 < num_nodes
  ∧ Forall (valid_user_edge num_nodes) edge_list
  ∧ length edge_list
    = length (split [")"%char; ","%char; "("%char] (remove_spaces edges_text)).
Proof.
  unfold parse_edges_input. case_decide as Htext; [done|].
  pose proof (split_go_nonempty [")"%char; ","%char; "("%char]
                (remove_spaces edges_text) 0 []) as Hne.
  fold (split [")"%char; ","%char; "("%char] (remove_spaces edges_text)) in Hne.
  destruct (split [")"%char; ","%char; "("%char] (remove_spaces edges_text))
    as [|first edges] eqn:Hs; [done|].
  simpl. destruct (last (lstrip "("%char first :: edges)) as [final|]; [|done].
  match goal with |- context [parse_edges int num_nodes ?es] => set (edges' := es) end.
  destruct (parse_edges int num_nodes edges') as [[]|l] eqn:Hl; try done.
  intros [= <-]. destruct (parse_edges_valid int _ _ _ Hl) as [Hvalid Hlen].
  assert (Hlen' : length l = S (length edges)).
  { rewrite Hlen. unfold edges'. by rewrite length_insert. }
  destruct l as [|x l]; [done|]. split_and!; [done|done| |done|done].
  apply Forall_cons in Hvalid as [Hx _]. destruct x; simpl in Hx; lia.
Qed.

Lemma X19_witness :
  parse_edges_input int_decimal
    ["("; "1"; ","; "2"; ","; "1"; "9"; ")"; ","; " "; "("; "2"; ","; "3"; ")"]%char 4
  = Parsed [Weighted 1 2 19; Unweighted 2 3]
  ∧ 0 < 4
  ∧ Forall (valid_user_edge 4) [Weighted 1 2 19; Unweighted 2 3].
Proof.
  assert (H : parse_edges_input int_decimal
    ["("; "1"; ","; "2"; ","; "1"; "9"; ")"; ","; " "; "("; "2"; ","; "3"; ")"]%char 4
    = Parsed [Weighted 1 2 19; Unweighted 2 3]) by (vm_compute; reflexivity).
  destruct (X19_parse_edges_validates _ _ _ _ H) as (_ & _ & H3 & H4 & _).
  split_and!; [exact H|exact H3|exact H4].
Defined.

(** ** The graph manager *)

Lemma add_user_edges_valid num_nodes user_edges : ∀ added,
  Forall (valid_user_edge num_nodes) user_edges →
  ∃ k,
    add_user_edges num_nodes user_edges added
    = (if decide (k = length user_edges) then None else Some Not_enough_values,
       added ++ omap weighted_triple (take k user_edges))
    ∧ (k ≤ length user_edges)%nat
    ∧ (∀ e, e ∈ take k user_edges → is_Some (weighted_triple e))
    ∧ (k < length user_edges → ∃ u v, user_edges !! k = Some (Unweighted u v))%nat.
Proof.
  induction user_edges as [|e l IH]; intros added Hvalid.
  - exists 0%nat. simpl. rewrite app_nil_r. split_and!; [done|lia| |lia].
    intros e He. by apply elem_of_nil in He.
  - apply Forall_cons in Hvalid as [He Hl]. destruct e as [u v|u v w]; simpl in He.
    + exists 0%nat. simpl. rewrite app_nil_r. split_and!; [done|lia| |by eexists _, _].
      intros e He'. by apply elem_of_nil in He'.
    + destruct (IH (added ++ [(u, v, w)]) Hl) as (k & Heq & Hk & Hw & Hnext).
      exists (S k). simpl.
      rewrite decide_False by tauto. rewrite decide_False by lia.
      rewrite Heq, <-app_assoc. simpl. split_and!; [|lia| |].
      * repeat case_decide; try lia; done.
      * intros e [->|He']%elem_of_cons; [by eexists|by apply Hw].
      * intros Hlt. apply Hnext. lia.
Qed.

(** X20. The graph manager's own checks are dead after the parser. On a
    list that [parse_edges_input] returned, the loop of
    [generate_random_graph] over [user_edges] never raises its "out of
    range" or "must be positive" errors. It adds the edges in order up to
    the first one entered without a weight and fails there on the
    unpacking of the pair; when every edge has a weight it adds them all
    and raises nothing. *)
Theorem X20_user_edges_checks_dead (int : str → option Z) (edges_text : str)
    (num_nodes : Z) (edge_list : list user_edge) :
  parse_edges_input int edges_text num_nodes = Parsed edge_list →
  ∃ k,
    add_user_edges num_nodes edge_list []
    = (if decide (k = length edge_list) then None else Some Not_enough_values,
       omap weighted_triple (take k edge_list))
    ∧ (k ≤ length edge_list)%nat
    ∧ (∀ e, e ∈ take k edge_list → is_Some (weighted_triple e))
    ∧ (k < length edge_list → ∃ u v, edge_list !! k = Some (Unweighted u v))%nat.
Proof.
  intros Hparse.
  assert (Hvalid : Forall (valid_user_edge num_nodes) edge_list).
  { revert Hparse. unfold parse_edges_input. case_decide; [done|].
    destruct (split _ _ !! 0%nat); [|done]. cbv zeta.
    destruct (last _); [|done].
    match goal with |- context [parse_edges int num_nodes ?es] => set (edges' := es) end.
    destruct (parse_edges int num_nodes edges') as [[]|l] eqn:Hl; try done.
    intros [= <-]. by destruct (parse_edges_valid int _ _ _ Hl). }
  destruct (add_user_edges_valid num_nodes edge_list [] Hvalid) as (k & Heq & H).
  exists k. by rewrite Heq.
Qed.

Lemma X20_witness :
  ∃ k,
    add_user_edges 4 [Weighted 1 2 19; Unweighted 2 3] []
    = (if decide (k = 2%nat) then None else Some Not_enough_values,
       omap weighted_triple (take k [Weighted 1 2 19; Unweighted 2 3]))
    ∧ (k ≤ 2)%nat
    ∧ (∀ e, e ∈ take k [Weighted 1 2 19; Unweighted 2 3] → is_Some (weighted_triple e))
    ∧ (k < 2 → ∃ u v, [Weighted 1 2 19; Unweighted 2 3] !! k = Some (Unweighted u v))%nat.
Proof.
  apply (X20_user_edges_checks_dead int_decimal
           ["("; "1"; ","; "2"; ","; "1"; "9"; ")"; ","; " "; "("; "2"; ","; "3"; ")"]%char
           4 [Weighted 1 2 19; Unweighted 2 3]).
  vm_compute. reflexivity.
Defined.

(** ** The benchmark's graphs *)

(** X21. The benchmark's graphs are complete. For every number of nodes
    [V ≥ 0], [E = min(V * V, max_edges)] is [max_edges = V * (V - 1) // 2]
    itself, the number of pairs of distinct nodes, so
    [nx.gnm_random_graph(V, E)] is asked for every possible edge. *)
Theorem X21_bench_graphs_complete (V : Z) :
  0 ≤ V →
  bench_num_edges V = bench_max_edges V ∧ 2 * bench_num_edges V = V * (V - 1).
Proof.
  intros HV. unfold bench_num_edges, bench_max_edges.
  assert (Heven : V * (V - 1) = 2 * (V * (V - 1) / 2)).
  { apply Z.div_exact; [lia|].
    replace (V * (V - 1)) with (V * V - V) by lia.
    rewrite Zminus_mod, <-Zmult_mod_idemp_l, <-Zmult_mod_idemp_r.
    pose proof (Z.mod_pos_bound V 2 ltac:(lia)).
    assert (V mod 2 = 0 ∨ V mod 2 = 1) as [->| ->] by lia; done. }
  assert (V * (V - 1) / 2 ≤ V * V) by nia.
  rewrite Z.min_r by done. lia.
Qed.

Lemma X21_witness :
  bench_num_edges 5 = bench_max_edges 5 ∧ 2 * bench_num_edges 5 = 5 * (5 - 1).
Proof.
  apply (X21_bench_graphs_complete 5). lia.
Defined.
